(** * Snake Arena: simulation engine and room state machine

    A shallow embedding of [GameEngine.js] and of the membership and
    end-of-round logic of [Room.js], with the properties of the
    specification stated and proved over it.

    Numbers.  A JavaScript number is an IEEE-754 binary64 value, so
    coordinates, angles and radii are Rocq's primitive [float]s and the
    arithmetic on them is the kernel's binary64 arithmetic.  Counters that
    the code only ever moves by integer steps ([tick], [score], [kills],
    [length], [growPending], effect durations, the generator state) are
    [Z]; they stay far below 2^53, where binary64 is exact on integers.

    Maps.  A JavaScript [Map] iterates in insertion order and the engine's
    loops depend on that order, so a map is an association list: [set]
    overwrites in place or appends, [delete] drops the binding. *)

From Stdlib Require Import ZArith List String Bool Lia Floats.
From Stdlib Require Import Sorted Permutation.
Import ListNotations.

Set Warnings "-inexact-float".
Local Open Scope Z_scope.

(* ================================================================== *)
(** ** JavaScript numbers *)

Module JS.

  (** Integer to number; exact below 2^53. *)
Definition of_Z (z : Z) : float :=
    if z <? 0 then PrimFloat.opp (PrimFloat.of_uint63 (Uint63.of_Z (- z)))
    else PrimFloat.of_uint63 (Uint63.of_Z z).

Definition PI : float := 3.141592653589793%float.

  (** [isFinite(x)] for a value that already is a number. *)
Definition isFinite (x : float) : bool :=
    negb (PrimFloat.is_nan x || PrimFloat.is_infinity x).

  (** [x > y] *)
Definition gt (x y : float) : bool := PrimFloat.ltb y x.

  (** [Math.sign]: 1, -1, or the argument itself (signed zero, NaN). *)
Definition sign (x : float) : float :=
    if PrimFloat.ltb 0 x then 1%float
    else if PrimFloat.ltb x 0 then (-1)%float
    else x.

  (** [Math.floor] of a finite number, as an integer (0 on NaN and the
      infinities, which the engine never floors). *)
Definition floor (x : float) : Z :=
    match Prim2SF x with
    | S754_finite s m e =>
        let v := cond_Zopp s (Zpos m) in
        if 0 <=? e then v * 2 ^ e else v / 2 ^ (- e)
    | _ => 0
    end.

  (** [Math.round]: the nearest integer, halves towards +infinity; the
      argument itself when it is already integral, infinite or NaN. *)
Definition round (x : float) : float :=
    match Prim2SF x with
    | S754_finite s m e =>
        if 0 <=? e then x
        else
          let d := 2 ^ (- e) in
          let n := (2 * cond_Zopp s (Zpos m) + d) / (2 * d) in
          if n =? 0 then (if s then (-0)%float else 0%float) else of_Z n
    | _ => x
    end.

  (** The remainder operator [x % y] on numbers: the sign of the dividend,
      exact (no rounding happens in an IEEE remainder). *)
Definition fmod (x y : float) : float :=
    match Prim2SF x, Prim2SF y with
    | S754_nan, _ => PrimFloat.nan
    | _, S754_nan => PrimFloat.nan
    | S754_infinity _, _ => PrimFloat.nan
    | _, S754_zero _ => PrimFloat.nan
    | S754_zero _, _ => x
    | S754_finite _ _ _, S754_infinity _ => x
    | S754_finite sx mx ex, S754_finite _ my ey =>
        let e := Z.min ex ey in
        let r := Z.rem (Zpos mx * 2 ^ (ex - e)) (Zpos my * 2 ^ (ey - e)) in
        SF2Prim (binary_normalize prec emax (cond_Zopp sx r) e sx)
    end.

End JS.

(** [Math.cos], [Math.sin] and [Math.atan2] are implementation-approximated
    in JavaScript; the engine is parameterised by them. *)
Record MathLib := {
  Math_cos : float -> float;
  Math_sin : float -> float;
  Math_atan2 : float -> float -> float
}.

(* ================================================================== *)
(** ** Constants ([constants.js]) *)

Definition TICK_RATE : Z := 50.
Definition SYNC_FULL_EVERY : Z := 10.
Definition INITIAL_SNAKE_LENGTH : Z := 10.
Definition SNAKE_SPEED : float := 3%float.
Definition SNAKE_BOOST_SPEED : float := 5.5%float.
Definition SNAKE_TURN_RATE : float := 0.12%float.
Definition SNAKE_SEGMENT_RADIUS : float := 8%float.
Definition SNAKE_HEAD_RADIUS : float := 10%float.
Definition GROW_PER_FOOD : Z := 2.
Definition BOOST_COST_INTERVAL : Z := 5.
Definition MAX_SNAKE_SEGMENTS : Z := 200.
Definition FOOD_BASE_COUNT : Z := 120.
Definition FOOD_PER_PLAYER : Z := 8.
Definition FOOD_SCORE : Z := 10.
Definition FOOD_RADIUS : float := 5%float.
Definition BONUS_FOOD_CHANCE : float := 0.12%float.
Definition POWERUP_SPAWN_CHANCE : float := 0.008%float.
Definition POWERUP_MAX : Z := 5.
Definition POWERUP_DESPAWN_TICKS : Z := 200.
Definition COLLISION_GRACE_SEGMENTS : nat := 5.
Definition BOUNDARY_KILL_MARGIN : float := 50%float.
Definition COUNTDOWN_SECONDS : Z := 3.
Definition TIMED_GAME_DURATION : Z := 180.
Definition MAX_PLAYERS_PER_ROOM : Z := 50.

Definition TWO_PI : float := (JS.PI * 2)%float.

(* ================================================================== *)
(** ** Insertion-ordered maps keyed by strings *)

Definition PlayerId := string.

Section StringMap.
Context {V : Type}.

Fixpoint map_get (k : string) (m : list (string * V)) : option V :=
    match m with
    | [] => None
    | (k', v) :: r => if String.eqb k k' then Some v else map_get k r
    end.

Fixpoint map_set (k : string) (v : V) (m : list (string * V))
    : list (string * V) :=
    match m with
    | [] => [(k, v)]
    | (k', v') :: r =>
        if String.eqb k k' then (k, v) :: r else (k', v') :: map_set k v r
    end.

Definition map_delete (k : string) (m : list (string * V))
    : list (string * V) :=
    filter (fun kv => negb (String.eqb k (fst kv))) m.

Definition map_keys (m : list (string * V)) : list string := map fst m.
Definition map_values (m : list (string * V)) : list V := map snd m.
Definition map_size (m : list (string * V)) : Z := Z.of_nat (List.length m).
End StringMap.

(* ================================================================== *)
(** ** Data model *)

Record Point := { pt_x : float; pt_y : float }.

Inductive PowerupType := speed | shield | ghost.
Inductive FoodType := normal | bonus.
Inductive DeathCause := wall | self | head_collision | collision.

Definition PowerupType_eqb (a b : PowerupType) : bool :=
  match a, b with
  | speed, speed | shield, shield | ghost, ghost => true
  | _, _ => false
  end.

(** [POWERUP_TYPES[t].duration] and [.label] *)
Definition powerup_duration (t : PowerupType) : Z :=
  match t with speed => 80 | shield => 60 | ghost => 50 end.

Definition powerup_label (t : PowerupType) : string :=
  match t with
  | speed => "Speed Boost" | shield => "Shield" | ghost => "Ghost"
  end.

(** [Object.keys(POWERUP_TYPES)] *)
Definition POWERUP_TYPE_KEYS : list PowerupType := [speed; shield; ghost].

(** The [activePowerups] object: effect type -> remaining ticks, keys in
    insertion order. *)
Definition Effects := list (PowerupType * Z).

Fixpoint fx_get (t : PowerupType) (m : Effects) : option Z :=
  match m with
  | [] => None
  | (t', v) :: r => if PowerupType_eqb t t' then Some v else fx_get t r
  end.

Fixpoint fx_set (t : PowerupType) (v : Z) (m : Effects) : Effects :=
  match m with
  | [] => [(t, v)]
  | (t', v') :: r =>
      if PowerupType_eqb t t' then (t, v) :: r else (t', v') :: fx_set t v r
  end.

(** Truthiness of [snake.activePowerups.<t>]: present and not 0. *)
Definition fx_active (t : PowerupType) (m : Effects) : bool :=
  match fx_get t m with
  | Some v => negb (v =? 0)
  | None => false
  end.

Module Snake.
Record t := mk {
    id : PlayerId;
    username : string;
    pattern : string;
    color : string;
    segments : list Point;        (* [0] = head *)
    angle : float;
    targetAngle : float;
    boosting : bool;
    alive : bool;
    score : Z;
    kills : Z;
    length : Z;                   (* target segment count *)
    growPending : Z;
    activePowerups : Effects;
    deathTick : option Z;
    deathCause : option DeathCause;
    killedBy : option PlayerId;
    spawnTick : Z
  }.

Definition set_segments (s : t) (v : list Point) : t :=
    mk (id s) (username s) (pattern s) (color s) v (angle s) (targetAngle s)
       (boosting s) (alive s) (score s) (kills s) (length s) (growPending s)
       (activePowerups s) (deathTick s) (deathCause s) (killedBy s)
       (spawnTick s).
Definition set_angle (s : t) (v : float) : t :=
    mk (id s) (username s) (pattern s) (color s) (segments s) v
       (targetAngle s) (boosting s) (alive s) (score s) (kills s) (length s)
       (growPending s) (activePowerups s) (deathTick s) (deathCause s)
       (killedBy s) (spawnTick s).
Definition set_targetAngle (s : t) (v : float) : t :=
    mk (id s) (username s) (pattern s) (color s) (segments s) (angle s) v
       (boosting s) (alive s) (score s) (kills s) (length s) (growPending s)
       (activePowerups s) (deathTick s) (deathCause s) (killedBy s)
       (spawnTick s).
Definition set_boosting (s : t) (v : bool) : t :=
    mk (id s) (username s) (pattern s) (color s) (segments s) (angle s)
       (targetAngle s) v (alive s) (score s) (kills s) (length s)
       (growPending s) (activePowerups s) (deathTick s) (deathCause s)
       (killedBy s) (spawnTick s).
Definition set_score (s : t) (v : Z) : t :=
    mk (id s) (username s) (pattern s) (color s) (segments s) (angle s)
       (targetAngle s) (boosting s) (alive s) v (kills s) (length s)
       (growPending s) (activePowerups s) (deathTick s) (deathCause s)
       (killedBy s) (spawnTick s).
Definition set_kills (s : t) (v : Z) : t :=
    mk (id s) (username s) (pattern s) (color s) (segments s) (angle s)
       (targetAngle s) (boosting s) (alive s) (score s) v (length s)
       (growPending s) (activePowerups s) (deathTick s) (deathCause s)
       (killedBy s) (spawnTick s).
Definition set_length (s : t) (v : Z) : t :=
    mk (id s) (username s) (pattern s) (color s) (segments s) (angle s)
       (targetAngle s) (boosting s) (alive s) (score s) (kills s) v
       (growPending s) (activePowerups s) (deathTick s) (deathCause s)
       (killedBy s) (spawnTick s).
Definition set_growPending (s : t) (v : Z) : t :=
    mk (id s) (username s) (pattern s) (color s) (segments s) (angle s)
       (targetAngle s) (boosting s) (alive s) (score s) (kills s) (length s)
       v (activePowerups s) (deathTick s) (deathCause s) (killedBy s)
       (spawnTick s).
Definition set_activePowerups (s : t) (v : Effects) : t :=
    mk (id s) (username s) (pattern s) (color s) (segments s) (angle s)
       (targetAngle s) (boosting s) (alive s) (score s) (kills s) (length s)
       (growPending s) v (deathTick s) (deathCause s) (killedBy s)
       (spawnTick s).
  (** The four assignments at the top of [_applyDeath]. *)
Definition die (s : t) (tick : Z) (cause : DeathCause)
             (killer : option PlayerId) : t :=
    mk (id s) (username s) (pattern s) (color s) (segments s) (angle s)
       (targetAngle s) (boosting s) false (score s) (kills s) (length s)
       (growPending s) (activePowerups s) (Some tick) (Some cause) killer
       (spawnTick s).

  (** [segments[0]]; reading it on an empty body is a [TypeError] in the
      source, which [GameEngine.snake_ok] below rules out. *)
Definition head (s : t) : Point :=
    match segments s with
    | p :: _ => p
    | [] => {| pt_x := 0%float; pt_y := 0%float |}
    end.

Definition has (s : t) (e : PowerupType) : bool :=
    fx_active e (activePowerups s).
End Snake.

Record Food := {
  food_x : float;
  food_y : float;
  food_type : FoodType;
  food_value : Z
}.

(** A field power-up.  Its [id] is the string [pu_<tick>_<n>], kept as the
    pair; its [type] is [undefined] when the type index fell outside
    [Object.keys(POWERUP_TYPES)]. *)
Record Powerup := {
  pu_id : Z * Z;
  pu_x : float;
  pu_y : float;
  pu_type : option PowerupType;
  pu_spawnTick : Z
}.

Inductive Event :=
| EvKill (killerId : PlayerId) (killerName : string) (victimId : PlayerId)
         (victimName : string) (cause : DeathCause)
| EvDeath (playerId : PlayerId) (username : string) (color : string)
          (cause : DeathCause) (killerId : option PlayerId)
          (finalScore : Z) (finalLength : Z) (tick : Z)
| EvEat (playerId : PlayerId) (username : string)
        (x y : float) (type : FoodType) (growth : Z) (points : Z)
| EvPowerupSpawn (powerup : Powerup)
| EvPowerupPickup (playerId : PlayerId) (username : string)
                  (powerupType : option PowerupType)
                  (powerupLabel : option string)
| EvPowerupExpired (playerId : PlayerId) (powerupType : PowerupType)
| EvPowerupDespawn (powerupId : Z * Z).

(** A value received as [angle]: a number, or anything whose [typeof] is
    not ["number"]. *)
Inductive JsValue := JsNumber (f : float) | JsNotNumber.

(** One pending death collected by [_detectCollisions]. *)
Record Death := {
  d_id : PlayerId;
  d_cause : DeathCause;
  d_killerId : option PlayerId
}.

(** What [update()] returns. *)
Record UpdateResult := { r_tick : Z; r_events : list Event }.

(** Rows of [getLeaderboard()] (for a living snake the three death fields
    are absent) and of [getStandings()]. *)
Record LeaderEntry := {
  le_rank : Z;
  le_id : PlayerId;
  le_username : string;
  le_color : string;
  le_pattern : string;
  le_score : Z;
  le_length : Z;
  le_kills : Z;
  le_alive : bool;
  le_deathTick : option Z;
  le_deathCause : option DeathCause;
  le_killedBy : option PlayerId
}.

Record Leaderboard := {
  lb_alive : list LeaderEntry;
  lb_dead : list LeaderEntry;
  lb_total : Z;
  lb_aliveCount : Z
}.

Record Standing := {
  st_rank : Z;
  st_id : PlayerId;
  st_username : string;
  st_pattern : string;
  st_color : string;
  st_score : Z;
  st_length : Z;
  st_kills : Z;
  st_alive : bool;
  st_deathTick : option Z;
  st_deathCause : option DeathCause;
  st_survivalTicks : Z
}.

(** [getFullState()]: what a client is sent of a snake and of the world. *)
Record SnakeView := {
  sv_id : PlayerId;
  sv_username : string;
  sv_pattern : string;
  sv_color : string;
  sv_segments : list Point;
  sv_angle : float;
  sv_alive : bool;
  sv_score : Z;
  sv_kills : Z;
  sv_length : Z;
  sv_boosting : bool;
  sv_activePowerups : Effects;
  sv_deathTick : option Z;
  sv_deathCause : option DeathCause;
  sv_killedBy : option PlayerId
}.

Record FullState := {
  fs_tick : Z;
  fs_worldSize : float;
  fs_boundaryRadius : float;
  fs_centerX : float;
  fs_centerY : float;
  fs_snakes : list (PlayerId * SnakeView);
  fs_food : list (float * float * FoodType);
  fs_powerups : list ((Z * Z) * float * float * option PowerupType)
}.

(* ================================================================== *)
(** ** Array helpers *)

Section ArrayHelpers.
Context {A : Type}.

(** [Array.prototype.sort(cmp)]: stable, and for a consistent comparator
    the result is the one stable arrangement, built here by insertion
    from the right. *)
Fixpoint insert_sorted (cmp : A -> A -> Z) (x : A) (l : list A) : list A :=
  match l with
  | [] => [x]
  | y :: r => if cmp x y <=? 0 then x :: l else y :: insert_sorted cmp x r
  end.

Definition Array_sort (cmp : A -> A -> Z) (l : list A) : list A :=
  fold_right (insert_sorted cmp) [] l.

(** [arr.map((s, i) => f s i)], the index starting at [i]. *)
Fixpoint mapi_from {B : Type} (i : Z) (f : A -> Z -> B) (l : list A)
  : list B :=
  match l with
  | [] => []
  | a :: r => f a i :: mapi_from (i + 1) f r
  end.

(** The elements at indices 0, 3, 6, ... *)
Fixpoint every3rd (l : list A) : list A :=
  match l with
  | a :: _ :: _ :: r => a :: every3rd r
  | a :: _ => [a]
  | [] => []
  end.

Definition indexed (l : list A) : list (nat * A) :=
  combine (seq 0 (List.length l)) l.

Definition len (l : list A) : Z := Z.of_nat (List.length l).
End ArrayHelpers.

(** [s || d] on strings *)
Definition or_default (s d : string) : string :=
  if String.eqb s EmptyString then d else s.

Definition sq_dist (ax ay bx b_y : float) : float :=
  ((ax - bx) * (ax - bx) + (ay - b_y) * (ay - b_y))%float.

(* ================================================================== *)
(** ** The simulation engine ([GameEngine.js]) *)

Module GameEngine.

Record t := mk {
  worldSize : float;
  centerX : float;
  centerY : float;
  boundaryRadius : float;
  snakes : list (PlayerId * Snake.t);   (* Map playerId -> snake *)
  food : list Food;
  powerups : list Powerup;
  events : list Event;
  tick : Z;
  _seed : Z;
  _rng : Z                              (* the generator's captured [s] *)
}.

Definition set_snakes (e : t) (v : list (PlayerId * Snake.t)) : t :=
  mk (worldSize e) (centerX e) (centerY e) (boundaryRadius e) v (food e)
     (powerups e) (events e) (tick e) (_seed e) (_rng e).
Definition set_food (e : t) (v : list Food) : t :=
  mk (worldSize e) (centerX e) (centerY e) (boundaryRadius e) (snakes e) v
     (powerups e) (events e) (tick e) (_seed e) (_rng e).
Definition set_powerups (e : t) (v : list Powerup) : t :=
  mk (worldSize e) (centerX e) (centerY e) (boundaryRadius e) (snakes e)
     (food e) v (events e) (tick e) (_seed e) (_rng e).
Definition set_events (e : t) (v : list Event) : t :=
  mk (worldSize e) (centerX e) (centerY e) (boundaryRadius e) (snakes e)
     (food e) (powerups e) v (tick e) (_seed e) (_rng e).
Definition set_tick (e : t) (v : Z) : t :=
  mk (worldSize e) (centerX e) (centerY e) (boundaryRadius e) (snakes e)
     (food e) (powerups e) (events e) v (_seed e) (_rng e).
Definition set_rng (e : t) (v : Z) : t :=
  mk (worldSize e) (centerX e) (centerY e) (boundaryRadius e) (snakes e)
     (food e) (powerups e) (events e) (tick e) (_seed e) v.

Definition push_event (e : t) (ev : Event) : t :=
  set_events e (events e ++ [ev]).
Definition push_food (e : t) (f : Food) : t :=
  set_food e (food e ++ [f]).

(** *** Seeded generator (Park-Miller) *)

Definition _createRng (seed : Z) : Z :=
  let s := Z.rem seed 2147483647 in
  if s <=? 0 then s + 2147483646 else s.

(** [new GameEngine(worldSize)]; [now] is the value of [Date.now()]. *)
Definition constructor (worldSize : float) (now : Z) : t :=
  mk worldSize (worldSize / 2)%float (worldSize / 2)%float
     (worldSize / 2 - BOUNDARY_KILL_MARGIN)%float
     [] [] [] [] 0 now (_createRng now).

Definition _randFloat (e : t) : float * t :=
  let s := Z.rem (_rng e * 16807) 2147483647 in
  ((JS.of_Z (s - 1) / JS.of_Z 2147483646)%float, set_rng e s).

Definition _randInt (e : t) (min max : Z) : Z * t :=
  let (r, e1) := _randFloat e in
  (JS.floor (r * JS.of_Z (max - min + 1))%float + min, e1).

(** *** removeSnake, queueInput *)

Definition removeSnake (e : t) (playerId : PlayerId) : t :=
  set_snakes e (map_delete playerId (snakes e)).

Definition queueInput (e : t) (playerId : PlayerId) (angle : JsValue)
           (boosting : bool) : t :=
  match map_get playerId (snakes e) with
  | None => e
  | Some snake =>
      if negb (Snake.alive snake) then e
      else
        let snake1 :=
          match angle with
          | JsNumber a =>
              if JS.isFinite a then Snake.set_targetAngle snake a else snake
          | JsNotNumber => snake
          end in
        set_snakes e
          (map_set playerId (Snake.set_boosting snake1 boosting) (snakes e))
  end.

(** *** Collision predicates (the tests inside [_detectCollisions]) *)

(** [distFromCenter > this.boundaryRadius] *)
Definition outside (e : t) (p : Point) : bool :=
  let dx := (pt_x p - centerX e)%float in
  let dy := (pt_y p - centerY e)%float in
  JS.gt (PrimFloat.sqrt (dx * dx + dy * dy)) (boundaryRadius e).

(** The self-collision loop finds a segment at or past [selfGrace]. *)
Definition selfHit (s : Snake.t) : bool :=
  let head := Snake.head s in
  let selfGrace :=
    Z.max 8 (JS.floor (JS.of_Z (len (Snake.segments s)) * 0.15)%float) in
  let threshold := (SNAKE_HEAD_RADIUS + SNAKE_SEGMENT_RADIUS * 0.6)%float in
  existsb
    (fun seg =>
       PrimFloat.ltb
         (sq_dist (pt_x head) (pt_y head) (pt_x seg) (pt_y seg))
         (threshold * threshold)%float)
    (skipn (Z.to_nat selfGrace) (Snake.segments s)).

(** [hhDist < hhThreshold * hhThreshold] *)
Definition headToHead (a b : Snake.t) : bool :=
  let headA := Snake.head a in
  let headB := Snake.head b in
  let hhThreshold := (SNAKE_HEAD_RADIUS * 2)%float in
  PrimFloat.ltb
    (sq_dist (pt_x headA) (pt_y headA) (pt_x headB) (pt_y headB))
    (hhThreshold * hhThreshold)%float.

(** [snake.segments[1] || head] *)
Definition prevHead (s : Snake.t) : Point :=
  match Snake.segments s with
  | _ :: p :: _ => p
  | _ => Snake.head s
  end.

Definition dAtoPrevB (a b : Snake.t) : float :=
  let headA := Snake.head a in
  let prevHeadB := prevHead b in
  sq_dist (pt_x headA) (pt_y headA) (pt_x prevHeadB) (pt_y prevHeadB).

Definition dBtoPrevA (a b : Snake.t) : float :=
  let headB := Snake.head b in
  let prevHeadA := prevHead a in
  sq_dist (pt_x headB) (pt_y headB) (pt_x prevHeadA) (pt_y prevHeadA).

Definition colliderIsA (a b : Snake.t) : bool :=
  PrimFloat.leb (dAtoPrevB a b) (dBtoPrevA a b).

(** The head of [a] is within the collision threshold of a segment of [b]
    past the grace window. *)
Definition bodyHit (a b : Snake.t) : bool :=
  let headA := Snake.head a in
  let collisionThreshold :=
    (SNAKE_HEAD_RADIUS + SNAKE_SEGMENT_RADIUS * 0.7)%float in
  let ct2 := (collisionThreshold * collisionThreshold)%float in
  existsb
    (fun seg =>
       PrimFloat.ltb
         (sq_dist (pt_x headA) (pt_y headA) (pt_x seg) (pt_y seg)) ct2)
    (skipn COLLISION_GRACE_SEGMENTS (Snake.segments b)).

(** [deaths.some((d) => d.id === id)] *)
Definition isDead (deaths : list Death) (id : PlayerId) : bool :=
  existsb (fun d => String.eqb (d_id d) id) deaths.

(** First loop: boundary, then self collision, one entry at a time. *)
Definition soloDeath (e : t) (id : PlayerId) (snake : Snake.t)
  : list Death :=
  if negb (Snake.alive snake) then []
  else if outside e (Snake.head snake) && negb (Snake.has snake ghost)
  then [ {| d_id := id; d_cause := wall; d_killerId := None |} ]
  else if negb (Snake.has snake shield) && selfHit snake
  then [ {| d_id := id; d_cause := self; d_killerId := None |} ]
  else [].

Definition soloDeaths (e : t) (entries : list (PlayerId * Snake.t))
  : list Death :=
  flat_map (fun kv => soloDeath e (fst kv) (snd kv)) entries.

(** Inner loop over [j] for a fixed [i]. *)
Fixpoint crossInner (i : nat) (idA : PlayerId) (snakeA : Snake.t)
         (js : list (nat * (PlayerId * Snake.t))) (deaths : list Death)
  : list Death :=
  match js with
  | [] => deaths
  | (j, (idB, snakeB)) :: rest =>
      if Nat.eqb i j then crossInner i idA snakeA rest deaths
      else if negb (Snake.alive snakeB)
      then crossInner i idA snakeA rest deaths
      else if isDead deaths idA then deaths
      else if Nat.ltb i j && headToHead snakeA snakeB then
        let cA := colliderIsA snakeA snakeB in
        let colliderId := if cA then idA else idB in
        let collider := if cA then snakeA else snakeB in
        let targetId := if cA then idB else idA in
        crossInner i idA snakeA rest
          (if negb (Snake.has collider shield)
           then deaths ++ [ {| d_id := colliderId;
                               d_cause := head_collision;
                               d_killerId := Some targetId |} ]
           else deaths)
      else if negb (Snake.has snakeA ghost) && negb (Snake.has snakeA shield)
              && bodyHit snakeA snakeB
      then crossInner i idA snakeA rest
             (deaths ++ [ {| d_id := idA; d_cause := collision;
                             d_killerId := Some idB |} ])
      else crossInner i idA snakeA rest deaths
  end.

(** Outer loop over [i]. *)
Fixpoint crossOuter (all todo : list (nat * (PlayerId * Snake.t)))
         (deaths : list Death) : list Death :=
  match todo with
  | [] => deaths
  | (i, (idA, snakeA)) :: rest =>
      if negb (Snake.alive snakeA) || isDead deaths idA
      then crossOuter all rest deaths
      else crossOuter all rest (crossInner i idA snakeA all deaths)
  end.

Definition collectDeaths (e : t) : list Death :=
  let entries := snakes e in
  crossOuter (indexed entries) (indexed entries) (soloDeaths e entries).

(** *** _applyDeath *)

(** Food scattered along the corpse, two generator draws per crumb. *)
Fixpoint dropCorpseFood (e : t) (segs : list Point) : t :=
  match segs with
  | [] => e
  | seg :: rest =>
      let fdx := (pt_x seg - centerX e)%float in
      let fdy := (pt_y seg - centerY e)%float in
      if PrimFloat.ltb (fdx * fdx + fdy * fdy)
                       (boundaryRadius e * boundaryRadius e)
      then
        let (rx, e1) := _randFloat e in
        let (ry, e2) := _randFloat e1 in
        dropCorpseFood
          (push_food e2 {| food_x := (pt_x seg + (rx - 0.5) * 8)%float;
                           food_y := (pt_y seg + (ry - 0.5) * 8)%float;
                           food_type := bonus; food_value := 30 |})
          rest
      else dropCorpseFood e rest
  end.

(** [killer.kills++; killer.score += 50] *)
Definition credited (killer : Snake.t) : Snake.t :=
  Snake.set_score (Snake.set_kills killer (Snake.kills killer + 1))
                  (Snake.score killer + 50).

(** [if (killerId) { ... }]: credit a killer that is present and alive. *)
Definition creditKiller (e : t) (playerId : PlayerId) (snake : Snake.t)
           (cause : DeathCause) (killerId : option PlayerId) : t :=
  match killerId with
  | None => e
  | Some k =>
      if String.eqb k EmptyString then e
      else
        match map_get k (snakes e) with
        | None => e
        | Some killer =>
            if Snake.alive killer then
              push_event
                (set_snakes e (map_set k (credited killer) (snakes e)))
                (EvKill k (Snake.username killer) playerId
                        (Snake.username snake) cause)
            else e
        end
  end.

Definition _applyDeath (e : t) (playerId : PlayerId) (cause : DeathCause)
           (killerId : option PlayerId) : t :=
  match map_get playerId (snakes e) with
  | None => e
  | Some snake0 =>
      if negb (Snake.alive snake0) then e
      else
        let snake := Snake.die snake0 (tick e) cause killerId in
        let e1 := set_snakes e (map_set playerId snake (snakes e)) in
        let e2 := dropCorpseFood e1 (every3rd (Snake.segments snake)) in
        let e3 := creditKiller e2 playerId snake cause killerId in
        push_event e3
          (EvDeath playerId (Snake.username snake) (Snake.color snake) cause
                   killerId (Snake.score snake) (Snake.length snake)
                   (tick e))
  end.

(** The deduplicated pass at the end of [_detectCollisions]. *)
Fixpoint applyDeaths (deaths : list Death) (killed : list PlayerId) (e : t)
  : t :=
  match deaths with
  | [] => e
  | death :: rest =>
      if existsb (String.eqb (d_id death)) killed
      then applyDeaths rest killed e
      else applyDeaths rest (d_id death :: killed)
             (_applyDeath e (d_id death) (d_cause death) (d_killerId death))
  end.

Definition _detectCollisions (e : t) : t :=
  applyDeaths (collectDeaths e) [] e.

(** *** Food and power-up pickup (no trigonometry involved) *)

(** The backwards scan of [this.food] for one snake: higher indices are
    visited first, every item within the pickup radius is eaten and
    spliced out. *)
Fixpoint eatLoop (snake : Snake.t) (fs : list Food)
  : list Food * Snake.t * list Event :=
  match fs with
  | [] => ([], snake, [])
  | f :: rest =>
      let '(rest', snake1, evs) := eatLoop snake rest in
      let head := Snake.head snake1 in
      let pickupRadius := (SNAKE_HEAD_RADIUS + FOOD_RADIUS)%float in
      let pr2 := (pickupRadius * pickupRadius)%float in
      if PrimFloat.ltb
           (sq_dist (pt_x head) (pt_y head) (food_x f) (food_y f)) pr2
      then
        let growth :=
          match food_type f with
          | bonus => GROW_PER_FOOD + 2
          | normal => GROW_PER_FOOD
          end in
        let points :=
          if food_value f =? 0 then FOOD_SCORE else food_value f in
        let snake2 :=
          Snake.set_score
            (Snake.set_growPending snake1 (Snake.growPending snake1 + growth))
            (Snake.score snake1 + points) in
        (rest', snake2,
         evs ++ [EvEat (Snake.id snake1) (Snake.username snake1)
                       (food_x f) (food_y f) (food_type f) growth points])
      else (f :: rest', snake1, evs)
  end.

Fixpoint _checkFood_loop (ss : list (PlayerId * Snake.t)) (fs : list Food)
  : list (PlayerId * Snake.t) * list Food * list Event :=
  match ss with
  | [] => ([], fs, [])
  | (id, snake) :: rest =>
      if negb (Snake.alive snake) then
        let '(rest', fs', evs) := _checkFood_loop rest fs in
        ((id, snake) :: rest', fs', evs)
      else
        let '(fs1, snake1, evs1) := eatLoop snake fs in
        let '(rest', fs', evs) := _checkFood_loop rest fs1 in
        ((id, snake1) :: rest', fs', evs1 ++ evs)
  end.

Definition _checkFood (e : t) : t :=
  let '(ss, fs, evs) := _checkFood_loop (snakes e) (food e) in
  set_events (set_food (set_snakes e ss) fs) (events e ++ evs).

(** The backwards scan of [this.powerups] that stops at the first hit:
    the hit with the highest index, and the array without it. *)
Fixpoint pickLast (head : Point) (ps : list Powerup)
  : option (Powerup * list Powerup) :=
  match ps with
  | [] => None
  | pu :: rest =>
      match pickLast head rest with
      | Some (hit, rest') => Some (hit, pu :: rest')
      | None =>
          let pickupRadius := (SNAKE_HEAD_RADIUS + 12)%float in
          let pr2 := (pickupRadius * pickupRadius)%float in
          if PrimFloat.ltb
               (sq_dist (pt_x head) (pt_y head) (pu_x pu) (pu_y pu)) pr2
          then Some (pu, rest)
          else None
      end
  end.

Definition pickup (snake : Snake.t) (pu : Powerup) : Snake.t * Event :=
  let snake1 :=
    match pu_type pu with
    | Some ty =>
        Snake.set_activePowerups snake
          (fx_set ty (powerup_duration ty) (Snake.activePowerups snake))
    | None => snake
    end in
  (Snake.set_score snake1 (Snake.score snake1 + 15),
   EvPowerupPickup (Snake.id snake) (Snake.username snake) (pu_type pu)
     (match pu_type pu with
      | Some ty => Some (powerup_label ty)
      | None => None
      end)).

Fixpoint _checkPowerupPickup_loop (ss : list (PlayerId * Snake.t))
         (ps : list Powerup)
  : list (PlayerId * Snake.t) * list Powerup * list Event :=
  match ss with
  | [] => ([], ps, [])
  | (id, snake) :: rest =>
      if negb (Snake.alive snake) then
        let '(rest', ps', evs) := _checkPowerupPickup_loop rest ps in
        ((id, snake) :: rest', ps', evs)
      else
        match pickLast (Snake.head snake) ps with
        | Some (pu, ps1) =>
            let (snake1, ev) := pickup snake pu in
            let '(rest', ps', evs) := _checkPowerupPickup_loop rest ps1 in
            ((id, snake1) :: rest', ps', ev :: evs)
        | None =>
            let '(rest', ps', evs) := _checkPowerupPickup_loop rest ps in
            ((id, snake) :: rest', ps', evs)
        end
  end.

Definition _checkPowerupPickup (e : t) : t :=
  let '(ss, ps, evs) := _checkPowerupPickup_loop (snakes e) (powerups e) in
  set_events (set_powerups (set_snakes e ss) ps) (events e ++ evs).

(** One snake's effects, each decremented, the expired ones deleted. *)
Fixpoint tickEffects (playerId : PlayerId) (m : Effects)
  : Effects * list Event :=
  match m with
  | [] => ([], [])
  | (ty, v) :: rest =>
      let (rest', evs) := tickEffects playerId rest in
      if v - 1 <=? 0
      then (rest', EvPowerupExpired playerId ty :: evs)
      else ((ty, v - 1) :: rest', evs)
  end.

Fixpoint tickSnakes (ss : list (PlayerId * Snake.t))
  : list (PlayerId * Snake.t) * list Event :=
  match ss with
  | [] => ([], [])
  | (id, snake) :: rest =>
      let (rest', evs) := tickSnakes rest in
      if negb (Snake.alive snake) then ((id, snake) :: rest', evs)
      else
        let (m, evs1) :=
          tickEffects (Snake.id snake) (Snake.activePowerups snake) in
        ((id, Snake.set_activePowerups snake m) :: rest', evs1 ++ evs)
  end.

(** The backwards despawn scan of the field power-ups. *)
Fixpoint despawn (tick : Z) (ps : list Powerup)
  : list Powerup * list Event :=
  match ps with
  | [] => ([], [])
  | pu :: rest =>
      let (rest', evs) := despawn tick rest in
      if tick - pu_spawnTick pu >? POWERUP_DESPAWN_TICKS
      then (rest', evs ++ [EvPowerupDespawn (pu_id pu)])
      else (pu :: rest', evs)
  end.

Definition _tickActivePowerups (e : t) : t :=
  let (ss, evs1) := tickSnakes (snakes e) in
  let (ps, evs2) := despawn (tick e) (powerups e) in
  set_events (set_powerups (set_snakes e ss) ps) (events e ++ evs1 ++ evs2).

(** *** Queries *)

Definition getAliveCount (e : t) : Z :=
  len (filter Snake.alive (map_values (snakes e))).

Definition getAliveIds (e : t) : list PlayerId :=
  map Snake.id (filter Snake.alive (map_values (snakes e))).

Definition _desiredFoodCount (e : t) : Z :=
  FOOD_BASE_COUNT
  + len (filter Snake.alive (map_values (snakes e))) * FOOD_PER_PLAYER.

(** [b.score - a.score || b.length - a.length] *)
Definition cmpAlive (a b : Snake.t) : Z :=
  let d := Snake.score b - Snake.score a in
  if d =? 0 then Snake.length b - Snake.length a else d.

(** [x || 0] on a tick that may be [null] *)
Definition tickOr0 (o : option Z) : Z :=
  match o with Some v => v | None => 0 end.

Definition cmpDead (a b : Snake.t) : Z :=
  tickOr0 (Snake.deathTick b) - tickOr0 (Snake.deathTick a).

Definition cmpStanding (a b : Snake.t) : Z :=
  if negb (Bool.eqb (Snake.alive a) (Snake.alive b))
  then (if Snake.alive a then -1 else 1)
  else if negb (Snake.score b =? Snake.score a)
  then Snake.score b - Snake.score a
  else Snake.length b - Snake.length a.

Definition aliveEntry (s : Snake.t) (i : Z) : LeaderEntry :=
  {| le_rank := i + 1; le_id := Snake.id s;
     le_username := Snake.username s; le_color := Snake.color s;
     le_pattern := Snake.pattern s; le_score := Snake.score s;
     le_length := Snake.length s; le_kills := Snake.kills s;
     le_alive := true; le_deathTick := None; le_deathCause := None;
     le_killedBy := None |}.

Definition deadEntry (aliveCount : Z) (s : Snake.t) (i : Z) : LeaderEntry :=
  {| le_rank := aliveCount + i + 1; le_id := Snake.id s;
     le_username := Snake.username s; le_color := Snake.color s;
     le_pattern := Snake.pattern s; le_score := Snake.score s;
     le_length := Snake.length s; le_kills := Snake.kills s;
     le_alive := false; le_deathTick := Snake.deathTick s;
     le_deathCause := Snake.deathCause s; le_killedBy := Snake.killedBy s |}.

Definition isSome {A : Type} (o : option A) : bool :=
  match o with Some _ => true | None => false end.

Definition getLeaderboard (e : t) : Leaderboard :=
  let all := map_values (snakes e) in
  let alive :=
    mapi_from 0 aliveEntry (Array_sort cmpAlive (filter Snake.alive all)) in
  let dead :=
    mapi_from 0 (deadEntry (len alive))
      (Array_sort cmpDead
         (filter (fun s => negb (Snake.alive s) && isSome (Snake.deathTick s))
                 all)) in
  {| lb_alive := alive; lb_dead := dead; lb_total := len all;
     lb_aliveCount := len alive |}.

Definition standingEntry (tick : Z) (s : Snake.t) (i : Z) : Standing :=
  {| st_rank := i + 1; st_id := Snake.id s;
     st_username := Snake.username s; st_pattern := Snake.pattern s;
     st_color := Snake.color s; st_score := Snake.score s;
     st_length := Snake.length s; st_kills := Snake.kills s;
     st_alive := Snake.alive s; st_deathTick := Snake.deathTick s;
     st_deathCause := Snake.deathCause s;
     st_survivalTicks :=
       if Snake.alive s then tick - Snake.spawnTick s
       else (match Snake.deathTick s with
             | Some 0 | None => tick
             | Some d => d
             end) - Snake.spawnTick s |}.

Definition getStandings (e : t) : list Standing :=
  mapi_from 0 (standingEntry (tick e))
    (Array_sort cmpStanding (map_values (snakes e))).

(** *** getFullState: the quantised snapshot *)

Definition round1 (v : float) : float := (JS.round (v * 10) / 10)%float.

Definition snakeView (s : Snake.t) : SnakeView :=
  {| sv_id := Snake.id s; sv_username := Snake.username s;
     sv_pattern := Snake.pattern s; sv_color := Snake.color s;
     sv_segments :=
       map (fun seg => {| pt_x := round1 (pt_x seg);
                          pt_y := round1 (pt_y seg) |})
           (Snake.segments s);
     sv_angle := (JS.round (Snake.angle s * 1000) / 1000)%float;
     sv_alive := Snake.alive s; sv_score := Snake.score s;
     sv_kills := Snake.kills s; sv_length := Snake.length s;
     sv_boosting := Snake.boosting s;
     sv_activePowerups := Snake.activePowerups s;
     sv_deathTick := Snake.deathTick s;
     sv_deathCause := Snake.deathCause s;
     sv_killedBy := Snake.killedBy s |}.

Definition getFullState (e : t) : FullState :=
  {| fs_tick := tick e; fs_worldSize := worldSize e;
     fs_boundaryRadius := boundaryRadius e;
     fs_centerX := centerX e; fs_centerY := centerY e;
     fs_snakes := map (fun kv => (fst kv, snakeView (snd kv))) (snakes e);
     fs_food :=
       map (fun f => (JS.round (food_x f), JS.round (food_y f), food_type f))
           (food e);
     fs_powerups :=
       map (fun p => (pu_id p, JS.round (pu_x p), JS.round (pu_y p),
                      pu_type p))
           (powerups e) |}.

(** [reset()]; [now] is the value of [Date.now()]. *)
Definition reset (e : t) (now : Z) : t :=
  mk (worldSize e) (centerX e) (centerY e) (boundaryRadius e)
     [] [] [] [] 0 (_seed e) (_createRng now).

(** *** The parts that call [Math.cos], [Math.sin], [Math.atan2] *)

Section WithMath.
Context (M : MathLib).

(** [radiusFraction || 0.85] *)
Definition fractionOr (f : float) : float :=
  if PrimFloat.eqb f 0 || PrimFloat.is_nan f then 0.85%float else f.

(** A point at angle [a] and radius [r] from the centre. *)
Definition polar (e : t) (a r : float) : Point :=
  {| pt_x := (centerX e + Math_cos M a * r)%float;
     pt_y := (centerY e + Math_sin M a * r)%float |}.

Definition _randomWorldPosition (e : t) (radiusFraction : float)
  : Point * t :=
  let maxR := (boundaryRadius e * fractionOr radiusFraction)%float in
  let (ra, e1) := _randFloat e in
  let a := (ra * TWO_PI)%float in
  let (rr, e2) := _randFloat e1 in
  let r := (PrimFloat.sqrt rr * maxR)%float in
  (polar e a r, e2).

(** Some living snake with a body has its head within 150 of (x, y). *)
Definition tooClose (e : t) (p : Point) : bool :=
  existsb
    (fun other =>
       Snake.alive other
       && negb (Nat.eqb (List.length (Snake.segments other)) 0)
       && PrimFloat.ltb
            (let head := Snake.head other in
             let dx := (pt_x head - pt_x p)%float in
             let dy := (pt_y head - pt_y p)%float in
             (dx * dx + dy * dy)%float)
            (150 * 150)%float)
    (map_values (snakes e)).

Fixpoint _findSpawnPosition_loop (attempts : nat) (e : t) : Point * t :=
  let safeRadius := (boundaryRadius e * 0.75)%float in
  match attempts with
  | O =>
      let (ra, e1) := _randFloat e in
      let a := (ra * TWO_PI)%float in
      let (rr, e2) := _randFloat e1 in
      let r := (PrimFloat.sqrt rr * safeRadius * 0.5)%float in
      (polar e a r, e2)
  | S n =>
      let (ra, e1) := _randFloat e in
      let a := (ra * TWO_PI)%float in
      let (rr, e2) := _randFloat e1 in
      let r := (PrimFloat.sqrt rr * safeRadius)%float in
      let p := polar e a r in
      if tooClose e p then _findSpawnPosition_loop n e2 else (p, e2)
  end.

Definition _findSpawnPosition (e : t) : Point * t :=
  _findSpawnPosition_loop 200 e.

Definition spawnSnake (e : t) (playerId : PlayerId)
           (username pattern color : string) : Snake.t * t :=
  let (pos, e1) := _findSpawnPosition e in
  let angle :=
    Math_atan2 M (centerY e - pt_y pos)%float (centerX e - pt_x pos)%float in
  let segments :=
    map (fun i =>
           {| pt_x := (pt_x pos
                       - Math_cos M angle * JS.of_Z (Z.of_nat i)
                         * SNAKE_SPEED)%float;
              pt_y := (pt_y pos
                       - Math_sin M angle * JS.of_Z (Z.of_nat i)
                         * SNAKE_SPEED)%float |})
        (seq 0 (Z.to_nat INITIAL_SNAKE_LENGTH)) in
  let snake :=
    Snake.mk playerId username (or_default pattern "classic")
      (or_default color "#3B82F6") segments angle angle false true 0 0
      INITIAL_SNAKE_LENGTH 0 [] None None None (tick e1) in
  (snake, set_snakes e1 (map_set playerId snake (snakes e1))).

(** [while (angleDiff > Math.PI) angleDiff -= TWO_PI], at most [fuel]
    subtractions; [None] when the loop has not stopped by then. *)
Fixpoint wrapDown (fuel : nat) (d : float) : option float :=
  if JS.gt d JS.PI then
    match fuel with
    | O => None
    | S n => wrapDown n (d - TWO_PI)%float
    end
  else Some d.

(** [while (angleDiff < -Math.PI) angleDiff += TWO_PI] *)
Fixpoint wrapUp (fuel : nat) (d : float) : option float :=
  if PrimFloat.ltb d (- JS.PI)%float then
    match fuel with
    | O => None
    | S n => wrapUp n (d + TWO_PI)%float
    end
  else Some d.

Definition normalizeDiff (fuel : nat) (d : float) : option float :=
  match wrapDown fuel d with
  | Some d1 => wrapUp fuel d1
  | None => None
  end.

(** [arr.length = n] for an [n] below the current length. *)
Definition truncate {A : Type} (l : list A) (n : Z) : list A :=
  firstn (Z.to_nat n) l.

Definition canBoost (snake : Snake.t) : bool :=
  Snake.boosting snake && (INITIAL_SNAKE_LENGTH + 3 <? Snake.length snake).

(** Growth, trimming and the hard cap: the new segment array, [length]
    and [growPending] after the head [newHead] has been unshifted. *)
Definition growTrim (snake : Snake.t) (newHead : Point)
  : list Point * Z * Z :=
  let segs1 := newHead :: Snake.segments snake in
  let targetLen := Snake.length snake + Snake.growPending snake in
  let segs2 := if len segs1 >? targetLen then truncate segs1 targetLen
               else segs1 in
  let '(length1, grow1) :=
    if (Snake.growPending snake >? 0) && (len segs2 >=? targetLen)
    then (Z.min targetLen MAX_SNAKE_SEGMENTS, 0)
    else (Snake.length snake, Snake.growPending snake) in
  if len segs2 >? MAX_SNAKE_SEGMENTS
  then (truncate segs2 MAX_SNAKE_SEGMENTS, MAX_SNAKE_SEGMENTS, grow1)
  else (segs2, length1, grow1).

(** Boost cost: the new [length] and the crumb dropped at the tail. *)
Definition boostCost (tick : Z) (boost : bool) (segs : list Point)
           (length : Z) : Z * list Food :=
  if boost && (Z.rem tick BOOST_COST_INTERVAL =? 0) then
    if length >? INITIAL_SNAKE_LENGTH + 3 then
      (length - 1,
       match last (map Some segs) None with
       | Some tail =>
           [ {| food_x := pt_x tail; food_y := pt_y tail;
                food_type := normal; food_value := FOOD_SCORE |} ]
       | None => []
       end)
    else (length, [])
  else (length, []).

(** Ghost wrap-around of [segments[0]]. *)
Definition ghostWrap (e : t) (ghosted : bool) (segs : list Point)
  : list Point :=
  match segs with
  | gh :: rest =>
      if ghosted then
        let gdx := (pt_x gh - centerX e)%float in
        let gdy := (pt_y gh - centerY e)%float in
        let gDist := PrimFloat.sqrt (gdx * gdx + gdy * gdy) in
        if JS.gt gDist (boundaryRadius e)
        then {| pt_x := (centerX e - gdx * 0.8)%float;
                pt_y := (centerY e - gdy * 0.8)%float |} :: rest
        else segs
      else segs
  | [] => segs
  end.

(** The body of the loop of [_moveSnakes] for one living snake: the moved
    snake and the food it dropped. *)
Definition moveSnake (fuel : nat) (e : t) (snake : Snake.t)
  : option (Snake.t * list Food) :=
  match normalizeDiff fuel (Snake.targetAngle snake - Snake.angle snake) with
  | None => None
  | Some angleDiff =>
      let turnRate := SNAKE_TURN_RATE in
      let angle1 :=
        if PrimFloat.leb (PrimFloat.abs angleDiff) turnRate
        then Snake.targetAngle snake
        else (Snake.angle snake + JS.sign angleDiff * turnRate)%float in
      let angle2 :=
        JS.fmod (JS.fmod angle1 TWO_PI + TWO_PI)%float TWO_PI in
      let boost := canBoost snake in
      let speed0 := if boost then SNAKE_BOOST_SPEED else SNAKE_SPEED in
      let speed := if Snake.has snake speed
                   then (speed0 * 1.4)%float else speed0 in
      let head := Snake.head snake in
      let newHead :=
        {| pt_x := (pt_x head + Math_cos M angle2 * speed)%float;
           pt_y := (pt_y head + Math_sin M angle2 * speed)%float |} in
      let '(segs, length1, grow1) := growTrim snake newHead in
      let (length2, dropped) := boostCost (tick e) boost segs length1 in
      let segs' := ghostWrap e (Snake.has snake ghost) segs in
      Some
        (Snake.set_segments
           (Snake.set_growPending
              (Snake.set_length (Snake.set_angle snake angle2) length2)
              grow1)
           segs',
         dropped)
  end.

Fixpoint _moveSnakes_loop (fuel : nat) (e : t)
         (ss : list (PlayerId * Snake.t))
  : option (list (PlayerId * Snake.t) * list Food) :=
  match ss with
  | [] => Some ([], [])
  | (id, snake) :: rest =>
      if negb (Snake.alive snake) then
        match _moveSnakes_loop fuel e rest with
        | Some (rest', dropped) => Some ((id, snake) :: rest', dropped)
        | None => None
        end
      else
        match moveSnake fuel e snake with
        | None => None
        | Some (snake', dropped1) =>
            match _moveSnakes_loop fuel e rest with
            | Some (rest', dropped) =>
                Some ((id, snake') :: rest', dropped1 ++ dropped)
            | None => None
            end
        end
  end.

Definition _moveSnakes (fuel : nat) (e : t) : option t :=
  match _moveSnakes_loop fuel e (snakes e) with
  | Some (ss, dropped) => Some (set_food (set_snakes e ss) (food e ++ dropped))
  | None => None
  end.

(** The top-up loop; each round adds one item, so it runs
    [desired - food.length] times. *)
Fixpoint _maintainFood_loop (n : nat) (e : t) : t :=
  match n with
  | O => e
  | S k =>
      let (pos, e1) := _randomWorldPosition e 0.9%float in
      let (r, e2) := _randFloat e1 in
      let isBonus := PrimFloat.ltb r BONUS_FOOD_CHANCE in
      _maintainFood_loop k
        (push_food e2
           {| food_x := pt_x pos; food_y := pt_y pos;
              food_type := if isBonus then bonus else normal;
              food_value := if isBonus then 30 else FOOD_SCORE |})
  end.

Definition _maintainFood (e : t) : t :=
  _maintainFood_loop (Z.to_nat (_desiredFoodCount e - len (food e))) e.

Definition _maybeSpawnPowerup (e : t) : t :=
  let aliveCount := len (filter Snake.alive (map_values (snakes e))) in
  if aliveCount <? 1 then e
  else if len (powerups e) >=? POWERUP_MAX then e
  else
    let (r, e1) := _randFloat e in
    if JS.gt r POWERUP_SPAWN_CHANCE then e1
    else
      let (pos, e2) := _randomWorldPosition e1 0.75%float in
      let types := POWERUP_TYPE_KEYS in
      let (ti, e3) := _randInt e2 0 (len types - 1) in
      let type := if ti <? 0 then None else nth_error types (Z.to_nat ti) in
      let (n, e4) := _randInt e3 0 9999 in
      let powerup :=
        {| pu_id := (tick e, n); pu_x := pt_x pos; pu_y := pt_y pos;
           pu_type := type; pu_spawnTick := tick e |} in
      push_event (set_powerups e4 (powerups e4 ++ [powerup]))
                 (EvPowerupSpawn powerup).

(** [update()]: one tick.  [None] only when a turn normalisation loop has
    not stopped within [fuel] rounds. *)
Definition update (fuel : nat) (e : t) : option (t * UpdateResult) :=
  let e0 := set_events (set_tick e (tick e + 1)) [] in
  match _moveSnakes fuel e0 with
  | None => None
  | Some e1 =>
      let e2 := _detectCollisions e1 in
      let e3 := _checkFood e2 in
      let e4 := _checkPowerupPickup e3 in
      let e5 := _tickActivePowerups e4 in
      let e6 := _maintainFood e5 in
      let e7 := _maybeSpawnPowerup e6 in
      Some (e7, {| r_tick := tick e7; r_events := events e7 |})
  end.

End WithMath.

End GameEngine.

(* ================================================================== *)
(** ** A reference Math library

    Truncated Taylor series after range reduction, used to run the engine
    on concrete states.  Where it matters below the argument is one at
    which every conforming implementation returns the same number:
    [cos 0 = 1], [sin 0 = 0], [atan2 0 x = 0] for positive [x]. *)

Module RefMath.

(** Sum of [x^k / k!] terms with alternating sign, from term [t]. *)
Fixpoint series (n : nat) (k : float) (term x2 acc : float) : float :=
  match n with
  | O => acc
  | S m =>
      let term' := (- term * x2 / ((k + 1) * (k + 2)))%float in
      series m (k + 2)%float term' x2 (acc + term')%float
  end.

Definition cos (x : float) : float :=
  let r := JS.fmod x TWO_PI in
  series 16 0%float 1%float (r * r)%float 1%float.

Definition sin (x : float) : float :=
  let r := JS.fmod x TWO_PI in
  series 16 1%float r (r * r)%float r.

(** [atan z] for [|z| <= 1]: two half-angle reductions, then the series
    [z - z^3/3 + z^5/5 - ...]. *)
Fixpoint atan_series (n : nat) (k : float) (pow z2 acc : float) : float :=
  match n with
  | O => acc
  | S m =>
      let pow' := (- pow * z2)%float in
      atan_series m (k + 2)%float pow' z2 (acc + pow' / (k + 2))%float
  end.

Definition halve (z : float) : float :=
  (z / (1 + PrimFloat.sqrt (1 + z * z)))%float.

Definition atan_small (z : float) : float :=
  let h := halve (halve z) in
  (4 * atan_series 12 1%float h (h * h)%float h)%float.

Definition atan2 (y x : float) : float :=
  if PrimFloat.leb (PrimFloat.abs y) (PrimFloat.abs x) then
    if PrimFloat.eqb x 0 then 0%float
    else if PrimFloat.ltb 0 x then atan_small (y / x)%float
    else if PrimFloat.ltb y 0 then (atan_small (y / x) - JS.PI)%float
    else (atan_small (y / x) + JS.PI)%float
  else
    if PrimFloat.ltb 0 y then (JS.PI / 2 - atan_small (x / y))%float
    else (- (JS.PI / 2) - atan_small (x / y))%float.

Definition lib : MathLib :=
  {| Math_cos := cos; Math_sin := sin; Math_atan2 := atan2 |}.

End RefMath.

(* ================================================================== *)
(** ** Players and rooms ([Player.js], [Room.js]) *)

Module Player.
(** The fields the room reads and writes; the socket behind [send] belongs
    to the transport. *)
Record t := mk {
  id : PlayerId;
  username : string;
  pattern : string;
  color : string;
  roomId : option string;
  isRoomCreator : bool;
  alive : bool;
  score : Z;
  kills : Z;
  spectating : bool;
  connected : bool
}.

(** [toPublic()] copies every field but [roomId]. *)
Record Public := {
  pub_id : PlayerId;
  pub_username : string;
  pub_pattern : string;
  pub_color : string;
  pub_score : Z;
  pub_alive : bool;
  pub_kills : Z;
  pub_connected : bool;
  pub_isRoomCreator : bool;
  pub_spectating : bool
}.

Definition toPublic (p : t) : Public :=
  {| pub_id := id p; pub_username := username p; pub_pattern := pattern p;
     pub_color := color p; pub_score := score p; pub_alive := alive p;
     pub_kills := kills p; pub_connected := connected p;
     pub_isRoomCreator := isRoomCreator p; pub_spectating := spectating p |}.
End Player.

Inductive RoomState := WAITING | COUNTDOWN | PLAYING | ENDED.
Inductive GameMode := LAST_STANDING | TIMED | FREE_PLAY.
Inductive EndReason :=
  winner | draw | game_over | all_dead | time_up.

Definition RoomState_eqb (a b : RoomState) : bool :=
  match a, b with
  | WAITING, WAITING | COUNTDOWN, COUNTDOWN
  | PLAYING, PLAYING | ENDED, ENDED => true
  | _, _ => false
  end.

Record RoomPublic := {
  rp_id : string;
  rp_name : string;
  rp_creatorId : option PlayerId;
  rp_creatorName : string;
  rp_state : RoomState;
  rp_worldSize : float;
  rp_maxPlayers : Z;
  rp_mode : GameMode;
  rp_players : list Player.Public;
  rp_playerCount : Z;
  rp_roundNumber : Z;
  rp_createdAt : Z
}.

Record Winner := {
  w_id : PlayerId;
  w_username : string;
  w_score : Z;
  w_color : string
}.

Record GameOverData := {
  go_reason : EndReason;
  go_standings : list Standing;
  go_winner : option Winner;
  go_duration : Z;
  go_round : Z
}.

(** The messages of [addPlayer] and [_endGame]. *)
Inductive Msg :=
| MsgRoomJoined (room : RoomPublic) (playerId : PlayerId)
                (asSpectator : bool)
| MsgGameState (state : FullState) (leaderboard : Leaderboard)
| MsgSpectatorJoined (player : Player.Public)
| MsgPlayerJoined (player : Player.Public) (playerCount : Z)
| MsgGameOver (data : GameOverData).

(** What a method asked of the outside world: [player.send(data)] for the
    player [to], and the [onGameOver] hook. *)
Inductive Effect :=
| Send (to : PlayerId) (data : Msg)
| OnGameOver (data : GameOverData).

(** The value returned by [addPlayer]. *)
Inductive AddResult :=
| AddError (error : string)
| AddSuccess (asSpectator : bool).

Module Room.

Record t := mk {
  id : string;
  name : string;
  creatorId : option PlayerId;
  creatorName : string;
  state : RoomState;
  worldSize : float;
  maxPlayers : Z;
  mode : GameMode;
  timedDuration : Z;
  players : list (PlayerId * Player.t);     (* Map playerId -> Player *)
  engine : option GameEngine.t;
  _tickInterval : bool;                     (* a timer is armed *)
  _timedGameTimeout : bool;
  createdAt : Z;
  startedAt : option Z;
  endedAt : option Z;
  roundNumber : Z;
  recentEvents : list Event;
  onGameOver : bool                         (* a hook is installed *)
}.

Definition set_players (r : t) (v : list (PlayerId * Player.t)) : t :=
  mk (id r) (name r) (creatorId r) (creatorName r) (state r) (worldSize r)
     (maxPlayers r) (mode r) (timedDuration r) v (engine r)
     (_tickInterval r) (_timedGameTimeout r) (createdAt r) (startedAt r)
     (endedAt r) (roundNumber r) (recentEvents r) (onGameOver r).

Definition set_engine (r : t) (v : option GameEngine.t) : t :=
  mk (id r) (name r) (creatorId r) (creatorName r) (state r) (worldSize r)
     (maxPlayers r) (mode r) (timedDuration r) (players r) v
     (_tickInterval r) (_timedGameTimeout r) (createdAt r) (startedAt r)
     (endedAt r) (roundNumber r) (recentEvents r) (onGameOver r).

(** [this.players.size >= this.maxPlayers] *)
Definition isFull (r : t) : bool := map_size (players r) >=? maxPlayers r.

Definition getPlayerCount (r : t) : Z := map_size (players r).

Definition toPublic (r : t) : RoomPublic :=
  {| rp_id := id r; rp_name := name r; rp_creatorId := creatorId r;
     rp_creatorName := creatorName r; rp_state := state r;
     rp_worldSize := worldSize r; rp_maxPlayers := maxPlayers r;
     rp_mode := mode r;
     rp_players := map Player.toPublic (map_values (players r));
     rp_playerCount := map_size (players r);
     rp_roundNumber := roundNumber r; rp_createdAt := createdAt r |}.

(** [broadcast(data, excludeId)]: one [send] per member, in map order. *)
Definition broadcast (r : t) (data : Msg) (excludeId : option PlayerId)
  : list Effect :=
  flat_map
    (fun kv =>
       match excludeId with
       | Some x => if String.eqb (fst kv) x then [] else [Send (fst kv) data]
       | None => [Send (fst kv) data]
       end)
    (players r).

Definition is_creator (r : t) (pid : PlayerId) : bool :=
  match creatorId r with
  | Some c => String.eqb pid c
  | None => false
  end.

Definition addPlayer (r : t) (player : Player.t)
  : t * AddResult * list Effect :=
  if RoomState_eqb (state r) PLAYING || RoomState_eqb (state r) COUNTDOWN
  then
    let player1 :=
      Player.mk (Player.id player) (Player.username player)
        (Player.pattern player) (Player.color player) (Some (id r))
        (Player.isRoomCreator player) (Player.alive player)
        (Player.score player) (Player.kills player) true
        (Player.connected player) in
    let r1 := set_players r (map_set (Player.id player) player1 (players r)) in
    (r1, AddSuccess true,
     [Send (Player.id player)
           (MsgRoomJoined (toPublic r1) (Player.id player) true)]
     ++ match engine r1 with
        | Some e =>
            [Send (Player.id player)
                  (MsgGameState (GameEngine.getFullState e)
                                (GameEngine.getLeaderboard e))]
        | None => []
        end
     ++ broadcast r1 (MsgSpectatorJoined (Player.toPublic player1))
                  (Some (Player.id player)))
  else if isFull r then (r, AddError "Room is full", [])
  else
    let player1 :=
      Player.mk (Player.id player) (Player.username player)
        (Player.pattern player) (Player.color player) (Some (id r))
        (is_creator r (Player.id player)) (Player.alive player)
        (Player.score player) (Player.kills player) false
        (Player.connected player) in
    let r1 := set_players r (map_set (Player.id player) player1 (players r)) in
    (r1, AddSuccess false,
     [Send (Player.id player)
           (MsgRoomJoined (toPublic r1) (Player.id player) false)]
     ++ broadcast r1
          (MsgPlayerJoined (Player.toPublic player1) (map_size (players r1)))
          (Some (Player.id player))).

(** [_endGame(reason)]; [now] is the value of [Date.now()]. *)
Definition gameOverData (r : t) (now : Z) (reason : EndReason)
  : GameOverData :=
  let standings :=
    match engine r with
    | Some e => GameEngine.getStandings e
    | None => []
    end in
  {| go_reason := reason;
     go_standings := standings;
     go_winner :=
       match standings with
       | w :: _ => Some {| w_id := st_id w; w_username := st_username w;
                           w_score := st_score w; w_color := st_color w |}
       | [] => None
       end;
     go_duration :=
       match startedAt r with
       | Some 0 | None => 0
       | Some started => (now - started) / 1000
       end;
     go_round := roundNumber r |}.

Definition _endGame (r : t) (now : Z) (reason : EndReason)
  : t * list Effect :=
  if RoomState_eqb (state r) ENDED then (r, [])
  else
    let data := gameOverData r now reason in
    let effects :=
      broadcast r (MsgGameOver data) None
      ++ (if onGameOver r then [OnGameOver data] else []) in
    let players1 :=
      map (fun kv =>
             let p := snd kv in
             (fst kv,
              Player.mk (Player.id p) (Player.username p) (Player.pattern p)
                (Player.color p) (Player.roomId p) (Player.isRoomCreator p)
                false (Player.score p) (Player.kills p) false
                (Player.connected p)))
          (players r) in
    (mk (id r) (name r) (creatorId r) (creatorName r) ENDED (worldSize r)
        (maxPlayers r) (mode r) (timedDuration r) players1 (engine r)
        false false (createdAt r) (startedAt r) (Some now) (roundNumber r)
        (recentEvents r) (onGameOver r),
     effects).

(** The decision of [_checkGameEnd]: the reason to end with, if any. *)
Definition endDecision (r : t) (e : GameEngine.t) : option EndReason :=
  let alive := GameEngine.getAliveCount e in
  let total := map_size (GameEngine.snakes e) in
  match mode r with
  | LAST_STANDING =>
      if (total >=? 2) && (alive <=? 1)
      then Some (if alive =? 1 then winner else draw)
      else if (total =? 1) && (alive =? 0) then Some game_over
      else None
  | FREE_PLAY =>
      let connAlive :=
        len (filter (fun p => Player.connected p && Player.alive p)
                    (map_values (players r))) in
      if (connAlive =? 0) && (total >? 0) then Some all_dead else None
  | TIMED =>
      if (total >? 0) && (alive <=? 1)
      then Some (if alive =? 1 then winner else all_dead)
      else None
  end.

Definition _checkGameEnd (r : t) (now : Z) : t * list Effect :=
  if negb (RoomState_eqb (state r) PLAYING) then (r, [])
  else
    match engine r with
    | None => (r, [])
    | Some e =>
        match endDecision r e with
        | Some reason => _endGame r now reason
        | None => (r, [])
        end
    end.

(** [handleInput(playerId, angle, boosting)] *)
Definition handleInput (r : t) (playerId : PlayerId) (angle : JsValue)
           (boosting : bool) : t :=
  if negb (RoomState_eqb (state r) PLAYING) then r
  else
    match engine r with
    | None => r
    | Some e =>
        set_engine r (Some (GameEngine.queueInput e playerId angle boosting))
    end.

End Room.

(* ================================================================== *)
(** ** Runs, invariants and reachable states *)

Import GameEngine.


(** Every living snake's turn normalisation stops within [fuel] rounds. *)
Definition turnsTerminate (fuel : nat) (e : GameEngine.t) : Prop :=
  Forall
    (fun kv =>
       Snake.alive (snd kv) = true ->
       normalizeDiff fuel
         (Snake.targetAngle (snd kv) - Snake.angle (snd kv))%float <> None)
    (snakes e).

(** The counters of a snake are in range: nothing pending is negative, the
    target length never drops below the initial one, the body is not empty
    (so [segments[0]] exists), is at most one segment longer than
    [length + growPending], and respects the hard cap. *)
Definition snake_ok (s : Snake.t) : Prop :=
  0 <= Snake.growPending s
  /\ INITIAL_SNAKE_LENGTH <= Snake.length s
  /\ 1 <= len (Snake.segments s)
  /\ len (Snake.segments s) <= Snake.length s + Snake.growPending s + 1
  /\ len (Snake.segments s) <= MAX_SNAKE_SEGMENTS.

(** A dead snake lying outside the boundary without a ghost effect was
    killed by the wall. *)
Definition wall_recorded (e : GameEngine.t) (s : Snake.t) : Prop :=
  Snake.alive s = false ->
  Snake.has s ghost = false ->
  outside e (Snake.head s) = true ->
  Snake.deathCause s = Some wall.

Definition engine_inv (e : GameEngine.t) : Prop :=
  forall id s,
    map_get id (snakes e) = Some s -> snake_ok s /\ wall_recorded e s.

(** The engine states a room can bring about. *)
Inductive reachable (M : MathLib) : GameEngine.t -> Prop :=
| reach_new (worldSize : float) (now : Z) :
    reachable M (constructor worldSize now)
| reach_spawn e playerId username pattern color :
    reachable M e ->
    reachable M (snd (spawnSnake M e playerId username pattern color))
| reach_remove e playerId :
    reachable M e -> reachable M (removeSnake e playerId)
| reach_input e playerId angle boosting :
    reachable M e -> reachable M (queueInput e playerId angle boosting)
| reach_update e fuel e' r :
    reachable M e -> update M fuel e = Some (e', r) -> reachable M e'
| reach_reset e now :
    reachable M e -> reachable M (reset e now).

(** [frame e e']: same world geometry and same tick. *)
Definition frame (e e' : GameEngine.t) : Prop :=
  worldSize e' = worldSize e /\ centerX e' = centerX e
  /\ centerY e' = centerY e /\ boundaryRadius e' = boundaryRadius e
  /\ tick e' = tick e.

(** The phases of [update] after the movement. *)
Definition afterMove (M : MathLib) (e1 : GameEngine.t) : GameEngine.t :=
  _maybeSpawnPowerup M
    (_maintainFood M
       (_tickActivePowerups
          (_checkPowerupPickup (_checkFood (_detectCollisions e1))))).

(** [s'] is [s] with other values of [kills] and [score] at most. *)
Definition credit_only (s s' : Snake.t) : Prop :=
  exists k sc, s' = Snake.set_score (Snake.set_kills s k) sc.

(** What the death pass of tick [t] can do to a snake: nothing; credit it
    for kills while it lives; or, after such credits, mark it dead. *)
Definition evolves (t : Z) (s s' : Snake.t) : Prop :=
  s' = s
  \/ (Snake.alive s = true /\ credit_only s s')
  \/ (Snake.alive s = true
      /\ exists s1 c k, credit_only s s1 /\ s' = Snake.die s1 t c k).

(** Two snake maps with the same keys in the same order whose snakes are
    related by [R]. *)
Definition keyrel (R : Snake.t -> Snake.t -> Prop)
           (m m' : list (PlayerId * Snake.t)) : Prop :=
  Forall2 (fun kv kv' => fst kv' = fst kv /\ R (snd kv) (snd kv')) m m'.

(** What the movement phase does to a snake: nothing when it is dead, the
    loop body [moveSnake] when it is alive. *)
Definition moved (M : MathLib) (fuel : nat) (e : GameEngine.t)
           (s s' : Snake.t) : Prop :=
  (Snake.alive s = false /\ s' = s)
  \/ (Snake.alive s = true
      /\ exists dropped, moveSnake M fuel e s = Some (s', dropped)).

(** What the phases after the death pass do to a snake: nothing when it
    is dead; when it is alive they can raise [growPending] and change
    [score] and [activePowerups]. *)
Definition settled (s s' : Snake.t) : Prop :=
  (Snake.alive s = false /\ s' = s)
  \/ (Snake.alive s = true
      /\ exists g sc fx,
           Snake.growPending s <= g
           /\ s' = Snake.set_activePowerups
                     (Snake.set_score (Snake.set_growPending s g) sc) fx).

(** The killer that [_applyDeath] credits: named by a non-empty id,
    present in the map and alive. *)
Definition killerOf (k : option PlayerId) (m : list (PlayerId * Snake.t))
  : option (PlayerId * Snake.t) :=
  match k with
  | None => None
  | Some k' =>
      if String.eqb k' EmptyString then None
      else match map_get k' m with
           | Some killer =>
               if Snake.alive killer then Some (k', killer) else None
           | None => None
           end
  end.




(** Components of the triple returned by [addPlayer]. *)
Definition added_room (x : Room.t * AddResult * list Effect) : Room.t :=
  fst (fst x).
Definition added_result (x : Room.t * AddResult * list Effect) : AddResult :=
  snd (fst x).

(* ================================================================== *)
(** ** Concrete states used by the examples *)

Local Open Scope string_scope.
Local Open Scope list_scope.
Local Open Scope Z_scope.

Definition pt (x y : float) : Point := {| pt_x := x; pt_y := y |}.

(** A living snake with the given body, heading right, no effects. *)
Definition mkSnake (id : PlayerId) (segments : list Point) : Snake.t :=
  Snake.mk id id "classic" "#3B82F6" segments 0%float 0%float false true
           0 0 INITIAL_SNAKE_LENGTH 0 [] None None None 0.

(** A 2000-wide world (centre 1000, boundary radius 950) at tick 4. *)
Definition world (ss : list (PlayerId * Snake.t)) : GameEngine.t :=
  GameEngine.mk 2000%float 1000%float 1000%float 950%float ss [] [] [] 4
                1 1.

(** A body of [n] segments trailing to the left of the head (x, y). *)
Definition body (x y : float) (n : nat) : list Point :=
  map (fun i => pt (x - 3 * JS.of_Z (Z.of_nat i))%float y) (seq 0 n).

(** The same snake once dead. *)
Definition corpse (id : PlayerId) (segments : list Point) (tick : Z)
           (cause : DeathCause) : Snake.t :=
  Snake.die (mkSnake id segments) tick cause None.

(** Two living snakes far apart. *)
Definition duo : GameEngine.t :=
  world [("ann", mkSnake "ann" (body 1000 1000 10));
         ("bob", mkSnake "bob" (body 1000 1200 10))].

(** Three snakes, two of them dead. *)
Definition trio : GameEngine.t :=
  world [("ann", corpse "ann" (body 1000 1000 10) 3 self);
         ("bob", mkSnake "bob" (body 1000 1200 10));
         ("cat", corpse "cat" (body 1000 800 10) 4 collision)].

Definition mkPlayer (id : PlayerId) : Player.t :=
  Player.mk id id "classic" "#3A4DFF" (Some "R1") false true 0 0 false true.

(** A last-standing room for two, created by ann. *)
Definition arena (st : RoomState) (e : option GameEngine.t)
           (ps : list (PlayerId * Player.t)) : Room.t :=
  Room.mk "R1" "Room-R1" (Some "ann") "ann" st 2000%float 2 LAST_STANDING
          180 ps e true false 0 (Some 1000) None 1 [] false.


(** Ann has just crossed the boundary (her head is 951 from the centre);
    Bob's head touches her body eighteen units behind her head. *)
Definition wallCrash : GameEngine.t :=
  world [("ann", mkSnake "ann" (body 1951 1000 10));
         ("bob", mkSnake "bob" [pt 1930 1010; pt 1927 1010])].

(** Head on: Ann moves right at speed 3, Bob moves left at speed 5.5;
    their heads are 10 apart.  Bob's head is 13 from Ann's previous head,
    Ann's head is 15.5 from Bob's. *)
Definition annRight : Snake.t := mkSnake "ann" [pt 1000 1000; pt 997 1000].
Definition bobLeft : Snake.t :=
  mkSnake "bob" [pt 1010 1000; pt 1015.5 1000].

(** The same meeting with Bob shielded. *)
Definition bobShielded : Snake.t :=
  Snake.set_activePowerups bobLeft [(shield, 10)].
Definition shieldedClash : GameEngine.t :=
  world [("ann", annRight); ("bob", bobShielded)].

(** A long snake that is boosting, at tick 4: the boost cost falls due on
    the next tick. *)
Definition booster : Snake.t :=
  Snake.set_boosting
    (Snake.set_length (mkSnake "ann" (body 1000 1000 20)) 20) true.
Definition boostWorld : GameEngine.t := world [("ann", booster)].

(** A fresh engine with one spawned snake. *)
Definition spawned : GameEngine.t :=
  snd (spawnSnake RefMath.lib (constructor 2000%float 1700000000000)
                  "ann" "Ann" EmptyString EmptyString).

(** The engine after one more [update()] (itself if that does not
    return), and what the call returned. *)
Definition next (e : GameEngine.t) : GameEngine.t :=
  match update RefMath.lib 1 e with
  | Some (e', _) => e'
  | None => e
  end.
Definition returned (e : GameEngine.t) : UpdateResult :=
  {| r_tick := tick (next e); r_events := events (next e) |}.

(** Length of the body, target length and pending growth of a snake. *)
Definition sizes (e : GameEngine.t) (id : PlayerId)
  : option (Z * Z * Z) :=
  option_map
    (fun s => (len (Snake.segments s), Snake.length s, Snake.growPending s))
    (map_get id (snakes e)).

(** A world so small (boundary radius 5) that a spawned snake leaves it on
    its third tick. *)
Definition tiny : GameEngine.t :=
  snd (spawnSnake RefMath.lib (constructor 110%float 1700000000000)
                  "ann" "Ann" EmptyString EmptyString).

(** The range of the Park-Miller state: 1 .. 2^31 - 2. *)
Definition rngOk (s : Z) : Prop := 1 <= s <= 2147483646.

Definition Zsum (l : list Z) : Z := fold_right Z.add 0 l.

(** The points and the growth an [eat] event reports (0 for any other
    event). *)
Definition eatPoints (ev : Event) : Z :=
  match ev with
  | EvEat _ _ _ _ _ _ points => points
  | _ => 0
  end.
Definition eatGrowth (ev : Event) : Z :=
  match ev with
  | EvEat _ _ _ _ _ growth _ => growth
  | _ => 0
  end.
Definition isEat (ev : Event) : bool :=
  match ev with
  | EvEat _ _ _ _ _ _ _ => true
  | _ => false
  end.

(** The pickup test of [_checkFood]: the item is within
    [SNAKE_HEAD_RADIUS + FOOD_RADIUS] of the point. *)
Definition inPickupRange (head : Point) (f : Food) : bool :=
  let pickupRadius := (SNAKE_HEAD_RADIUS + FOOD_RADIUS)%float in
  PrimFloat.ltb (sq_dist (pt_x head) (pt_y head) (food_x f) (food_y f))
                (pickupRadius * pickupRadius)%float.

Definition totalScore (ss : list (PlayerId * Snake.t)) : Z :=
  Zsum (map (fun kv => Snake.score (snd kv)) ss).
Definition totalPending (ss : list (PlayerId * Snake.t)) : Z :=
  Zsum (map (fun kv => Snake.growPending (snd kv)) ss).

Definition isPickup (ev : Event) : bool :=
  match ev with
  | EvPowerupPickup _ _ _ _ => true
  | _ => false
  end.

(** [n] countdowns of one snake's effects. *)
Fixpoint countdown (n : nat) (playerId : PlayerId) (m : Effects) : Effects :=
  match n with
  | O => m
  | S k => countdown k playerId (fst (tickEffects playerId m))
  end.

(** What [_tickActivePowerups] does to a snake. *)
Definition ticked (s s' : Snake.t) : Prop :=
  (Snake.alive s = false /\ s' = s)
  \/ (Snake.alive s = true
      /\ s' = Snake.set_activePowerups s
                (fst (tickEffects (Snake.id s) (Snake.activePowerups s)))).

(** The two kinds of food the top-up makes. *)
Definition freshFood (f : Food) : Prop :=
  (food_type f = bonus /\ food_value f = 30)
  \/ (food_type f = normal /\ food_value f = FOOD_SCORE).

(** The candidate positions that [attempts] rounds of the rejection loop of
    [_findSpawnPosition] draw, in order. *)
Fixpoint spawnCandidates (M : MathLib) (attempts : nat) (e : GameEngine.t)
  : list Point :=
  match attempts with
  | O => []
  | S n =>
      let safeRadius := (boundaryRadius e * 0.75)%float in
      let (ra, e1) := _randFloat e in
      let a := (ra * TWO_PI)%float in
      let (rr, e2) := _randFloat e1 in
      let r := (PrimFloat.sqrt rr * safeRadius)%float in
      polar M e a r :: spawnCandidates M n e2
  end.

(** A death record that, if it names [id], is a wall death of [s]. *)
Definition wallOnly (e : GameEngine.t) (id : PlayerId) (s : Snake.t)
           (d : Death) : Prop :=
  d_id d = id ->
  d_cause d = wall
  /\ outside e (Snake.head s) = true /\ Snake.has s ghost = false.

(** A snake that, if dead, died at the wall. *)
Definition wallVictim (e : GameEngine.t) (s0 s : Snake.t) : Prop :=
  Snake.alive s = false ->
  Snake.deathCause s = Some wall
  /\ outside e (Snake.head s0) = true /\ Snake.has s0 ghost = false.

(** The [winner] object that [_endGame] builds from a snake. *)
Definition winnerOf (s : Snake.t) : Winner :=
  {| w_id := Snake.id s; w_username := Snake.username s;
     w_score := Snake.score s; w_color := Snake.color s |}.

(** A last-standing round under way in which one snake of three is left
    alive. *)
Definition lastRound : Room.t :=
  arena PLAYING (Some trio)
        [("ann", mkPlayer "ann"); ("bob", mkPlayer "bob")].

(* ------------------------------------------------------------------ *)
(** *** The life of a round ([Room.js]) *)

(** The messages of [_beginGame], of the tick loop and of
    [removePlayer]. *)
Inductive Notice :=
| game_started (state : FullState) (leaderboard : Leaderboard)
               (gameMode : GameMode) (worldSize gridSize : float)
               (round : Z)
| game_tick (tick : Z) (state : FullState) (leaderboard : Leaderboard)
            (events : list Event) (isKeyframe : bool)
| room_creator_changed (newCreatorId : PlayerId) (newCreatorName : string)
| player_left (playerId : PlayerId) (playerCount : Z).

(** What these methods ask of the outside world: [player.send(notice)]
    for the member [to], or an effect of the [_checkGameEnd] they call. *)
Inductive Outcome :=
| Told (to : PlayerId) (notice : Notice)
| Did (effect : Effect).

(** [broadcast(notice)] to the members [players], in map order. *)
Definition announce (players : list (PlayerId * Player.t))
           (notice : Notice) : list Outcome :=
  map (fun kv => Told (fst kv) notice) players.

(** The kill-feed loop of the tick callback: push each event, and shift
    the oldest one out when the buffer holds more than 50. *)
Definition bufferEvents (recent events : list Event) : list Event :=
  fold_left
    (fun acc evt =>
       let acc1 := acc ++ [evt] in
       if len acc1 >? 50 then tl acc1 else acc1)
    events recent.

(** The body of the loop that copies a snake's state to its player. *)
Definition syncPlayer (e : GameEngine.t) (id : PlayerId)
           (player : Player.t) : Player.t :=
  match map_get id (snakes e) with
  | Some snake =>
      Player.mk (Player.id player) (Player.username player)
        (Player.pattern player) (Player.color player)
        (Player.roomId player) (Player.isRoomCreator player)
        (Snake.alive snake) (Snake.score snake) (Snake.kills snake)
        (if negb (Snake.alive snake) && negb (Player.spectating player)
         then true else Player.spectating player)
        (Player.connected player)
  | None => player
  end.

(** The callback that [_startTickLoop] hands to [setInterval]; [now] is
    the value of [Date.now()] should the round end.  [None] when
    [update()] does not return. *)
Definition tickCallback (M : MathLib) (fuel : nat) (r : Room.t) (now : Z)
  : option (Room.t * list Outcome) :=
  if negb (RoomState_eqb (Room.state r) PLAYING) then Some (r, [])
  else
    match Room.engine r with
    | None => Some (r, [])
    | Some e =>
        match update M fuel e with
        | None => None
        | Some (e1, result) =>
            let recent := bufferEvents (Room.recentEvents r)
                                       (r_events result) in
            let players1 :=
              map (fun kv => (fst kv, syncPlayer e1 (fst kv) (snd kv)))
                  (Room.players r) in
            let isKeyframe := Z.rem (tick e1) SYNC_FULL_EVERY =? 0 in
            let msg :=
              game_tick (tick e1) (getFullState e1) (getLeaderboard e1)
                        (r_events result) isKeyframe in
            let r1 :=
              Room.mk (Room.id r) (Room.name r) (Room.creatorId r)
                (Room.creatorName r) (Room.state r) (Room.worldSize r)
                (Room.maxPlayers r) (Room.mode r) (Room.timedDuration r)
                players1 (Some e1) (Room._tickInterval r)
                (Room._timedGameTimeout r) (Room.createdAt r)
                (Room.startedAt r) (Room.endedAt r) (Room.roundNumber r)
                recent (Room.onGameOver r) in
            let (r2, effects) := Room._checkGameEnd r1 now in
            Some (r2, announce players1 msg ++ map Did effects)
        end
    end.

(** A round of two under way. *)
Definition liveRound : Room.t :=
  arena PLAYING (Some duo)
        [("ann", mkPlayer "ann"); ("bob", mkPlayer "bob")].




(** What [removePlayer] returns, with the room and the player it leaves
    behind and what it sent. *)
Inductive RemoveResult := not_found | empty | ok.

Record Removed := {
  rm_room : Room.t;
  rm_result : RemoveResult;
  rm_player : option Player.t;
  rm_out : list Outcome
}.

(** [destroy()]: the room's timers are disarmed and the engine dropped. *)
Definition destroy (r : Room.t) : Room.t :=
  Room.mk (Room.id r) (Room.name r) (Room.creatorId r)
          (Room.creatorName r) (Room.state r) (Room.worldSize r)
          (Room.maxPlayers r) (Room.mode r) (Room.timedDuration r)
          (Room.players r) None false false (Room.createdAt r)
          (Room.startedAt r) (Room.endedAt r) (Room.roundNumber r)
          (Room.recentEvents r) (Room.onGameOver r).

(** The player object once [removePlayer] has cleaned it up. *)
Definition leave (p : Player.t) : Player.t :=
  Player.mk (Player.id p) (Player.username p) (Player.pattern p)
            (Player.color p) None false false 0 0 false (Player.connected p).

(** The "transfer creator" block: the first remaining member takes over. *)
Definition transferCreator (r : Room.t) (wasCreator : bool)
  : Room.t * list Outcome :=
  match Room.players r with
  | (k, next) :: rest =>
      if wasCreator then
        let next1 :=
          Player.mk (Player.id next) (Player.username next)
                    (Player.pattern next) (Player.color next)
                    (Player.roomId next) true (Player.alive next)
                    (Player.score next) (Player.kills next)
                    (Player.spectating next) (Player.connected next) in
        let r1 :=
          Room.mk (Room.id r) (Room.name r) (Some (Player.id next))
                  (Player.username next) (Room.state r) (Room.worldSize r)
                  (Room.maxPlayers r) (Room.mode r) (Room.timedDuration r)
                  ((k, next1) :: rest) (Room.engine r)
                  (Room._tickInterval r) (Room._timedGameTimeout r)
                  (Room.createdAt r) (Room.startedAt r) (Room.endedAt r)
                  (Room.roundNumber r) (Room.recentEvents r)
                  (Room.onGameOver r) in
        (r1, announce (Room.players r1)
                      (room_creator_changed (Player.id next)
                                            (Player.username next)))
      else (r, [])
  | [] => (r, [])
  end.

(** [removePlayer(playerId)]; [now] is the value of [Date.now()] should
    the round end. *)
Definition removePlayer (r : Room.t) (playerId : PlayerId) (now : Z)
  : Removed :=
  match map_get playerId (Room.players r) with
  | None =>
      {| rm_room := r; rm_result := not_found; rm_player := None;
         rm_out := [] |}
  | Some player =>
      let wasCreator := Room.is_creator r (Player.id player) in
      let r1 :=
        Room.set_engine
          (Room.set_players r (map_delete playerId (Room.players r)))
          (option_map (fun e => removeSnake e playerId) (Room.engine r)) in
      let (r2, out1) := transferCreator r1 wasCreator in
      let out2 :=
        announce (Room.players r2)
                 (player_left playerId (map_size (Room.players r2))) in
      let (r3, effects) :=
        if RoomState_eqb (Room.state r2) PLAYING
        then Room._checkGameEnd r2 now else (r2, []) in
      let out := out1 ++ out2 ++ map Did effects in
      if map_size (Room.players r3) =? 0
      then {| rm_room := destroy r3; rm_result := empty;
              rm_player := Some (leave player); rm_out := out |}
      else {| rm_room := r3; rm_result := ok;
              rm_player := Some (leave player); rm_out := out |}
  end.

(** A lobby in which a spectator of the last round and a member who has
    lost the connection wait with the creator. *)
Definition lobby : Room.t :=
  arena ENDED None
        [("ann", mkPlayer "ann");
         ("bob", Player.mk "bob" "bob" "classic" "#3A4DFF" (Some "R1") false
                           false 0 0 true true);
         ("cat", Player.mk "cat" "cat" "classic" "#3A4DFF" (Some "R1") false
                           false 0 0 false false)].

(** The boost cost falls due for [snake] on the tick of [e]:
    [canBoost && this.tick % BOOST_COST_INTERVAL === 0]. *)
Definition boostDue (e : GameEngine.t) (snake : Snake.t) : bool :=
  canBoost snake && (Z.rem (tick e) BOOST_COST_INTERVAL =? 0).

(** The distance a snake covers in one tick: the base or the boost speed,
    times 1.4 under a speed effect. *)
Definition stepOf (snake : Snake.t) : float :=
  let speed0 := if canBoost snake then SNAKE_BOOST_SPEED else SNAKE_SPEED in
  if Snake.has snake speed then (speed0 * 1.4)%float else speed0.


(* ================================================================== *)
(** ** Facts about maps and lists *)

Section MapFacts.
Context {V : Type}.
Implicit Types (m : list (string * V)) (k : string) (v : V).

Lemma map_get_set_same k v m : map_get k (map_set k v m) = Some v.
Proof.
  induction m as [|[k' v'] m IH]; simpl.
  - now rewrite String.eqb_refl.
  - destruct (String.eqb k k') eqn:E; simpl.
    + now rewrite String.eqb_refl.
    + now rewrite E.
Qed.

Lemma map_get_set_other k k' v m :
  k <> k' -> map_get k' (map_set k v m) = map_get k' m.
Proof.
  intros Hne. induction m as [|[k0 v0] m IH]; simpl.
  - destruct (String.eqb k' k) eqn:E; [|reflexivity].
    apply String.eqb_eq in E. congruence.
  - destruct (String.eqb k k0) eqn:E; simpl.
    + apply String.eqb_eq in E. subst k0.
      destruct (String.eqb k' k) eqn:E'; [|reflexivity].
      apply String.eqb_eq in E'. congruence.
    + now rewrite IH.
Qed.

Lemma map_keys_set_present k v v0 m :
  map_get k m = Some v0 -> map_keys (map_set k v m) = map_keys m.
Proof.
  induction m as [|[k' v'] m IH]; simpl; [discriminate|].
  destruct (String.eqb k k') eqn:E; simpl.
  - apply String.eqb_eq in E. now subst.
  - intros H. unfold map_keys in *. simpl. f_equal. now apply IH.
Qed.

Lemma map_set_fresh k v m :
  map_get k m = None -> map_set k v m = m ++ [(k, v)].
Proof.
  induction m as [|[k' v'] m IH]; simpl; [reflexivity|].
  destruct (String.eqb k k'); [discriminate|].
  intros H. now rewrite IH.
Qed.

Lemma map_get_In k v m : map_get k m = Some v -> In (k, v) m.
Proof.
  induction m as [|[k' v'] m IH]; simpl; [discriminate|].
  destruct (String.eqb k k') eqn:E.
  - apply String.eqb_eq in E. intros [= ->]. now left; subst.
  - intros H. right. auto.
Qed.

Lemma map_get_None_notin k m :
  map_get k m = None -> ~ In k (map_keys m).
Proof.
  induction m as [|[k' v'] m IH]; simpl; [tauto|].
  destruct (String.eqb k k') eqn:E; [discriminate|].
  apply String.eqb_neq in E. intros H [Hk|Hin]; [congruence|now apply IH].
Qed.

Lemma In_map_get k v m :
  NoDup (map_keys m) -> In (k, v) m -> map_get k m = Some v.
Proof.
  induction m as [|[k' v'] m IH]; simpl; [tauto|].
  intros Hnd [Heq|Hin].
  - injection Heq as -> ->. now rewrite String.eqb_refl.
  - inversion Hnd as [|? ? Hnot Hnd']; subst.
    destruct (String.eqb k k') eqn:E.
    + apply String.eqb_eq in E. subst k'. exfalso. apply Hnot.
      change (In (fst (k, v)) (map fst m)). now apply in_map.
    + auto.
Qed.

Lemma map_delete_absent k m : map_get k m = None -> map_delete k m = m.
Proof.
  induction m as [|[k' v'] m IH]; simpl; [reflexivity|].
  destruct (String.eqb k k') eqn:E; [discriminate|].
  intros H. simpl. f_equal. now apply IH.
Qed.

Lemma map_get_delete_same k m : map_get k (map_delete k m) = None.
Proof.
  induction m as [|[k' v'] m IH]; simpl; [reflexivity|].
  destruct (String.eqb k k') eqn:E; simpl; [exact IH|].
  now rewrite E.
Qed.

Lemma map_delete_twice k m : map_delete k (map_delete k m) = map_delete k m.
Proof. apply map_delete_absent, map_get_delete_same. Qed.

Lemma map_keys_delete_NoDup k m :
  NoDup (map_keys m) -> NoDup (map_keys (map_delete k m)).
Proof.
  induction m as [|[k' v'] m IH]; simpl; [auto|].
  intros Hnd. inversion Hnd as [|? ? Hnot Hnd']; subst.
  destruct (String.eqb k k'); simpl; [auto|].
  constructor; [|auto].
  intros Hin. apply Hnot. unfold map_keys, map_delete in *.
  apply in_map_iff in Hin as [[k0 v0] [Hk Hin]].
  apply filter_In in Hin as [Hin _]. simpl in Hk. subst.
  change (In (fst (k', v0)) (map fst m)). now apply in_map.
Qed.

Lemma map_keys_set_NoDup k v m :
  NoDup (map_keys m) -> NoDup (map_keys (map_set k v m)).
Proof.
  intros Hnd. destruct (map_get k m) as [v0|] eqn:E.
  - now rewrite (map_keys_set_present k v v0 m E).
  - rewrite map_set_fresh by exact E. unfold map_keys in *.
    rewrite map_app. simpl.
    apply NoDup_rev in Hnd. rewrite <- (rev_involutive (map fst m ++ [k])).
    apply NoDup_rev. rewrite rev_app_distr. simpl. constructor; [|exact Hnd].
    rewrite <- in_rev. now apply map_get_None_notin.
Qed.

Lemma map_size_set_fresh k v m :
  map_get k m = None -> map_size (map_set k v m) = map_size m + 1.
Proof.
  intros H. rewrite map_set_fresh by exact H. unfold map_size.
  rewrite length_app. simpl. lia.
Qed.

End MapFacts.

(* ================================================================== *)
(** ** The world parameters and the tick are touched by [update] only *)

Lemma frame_refl e : frame e e.
Proof. repeat split. Qed.

Lemma frame_trans e1 e2 e3 : frame e1 e2 -> frame e2 e3 -> frame e1 e3.
Proof. unfold frame. intuition congruence. Qed.

Lemma frame_outside e e' p : frame e e' -> outside e' p = outside e p.
Proof.
  intros (_ & Hx & Hy & Hr & _). unfold outside. now rewrite Hx, Hy, Hr.
Qed.

Lemma frame_dropCorpseFood segs e : frame e (dropCorpseFood e segs).
Proof.
  revert e. induction segs as [|seg segs IH]; intros e; simpl.
  - apply frame_refl.
  - destruct (PrimFloat.ltb _ _); [|apply IH].
    eapply frame_trans; [|apply IH]. repeat split.
Qed.

Lemma frame_creditKiller e pid s c k : frame e (creditKiller e pid s c k).
Proof.
  unfold creditKiller. destruct k as [k|]; [|apply frame_refl].
  destruct (String.eqb k EmptyString); [apply frame_refl|].
  destruct (map_get k (snakes e)) as [killer|]; [|apply frame_refl].
  destruct (Snake.alive killer); [repeat split|apply frame_refl].
Qed.

Lemma frame_applyDeath e pid c k : frame e (_applyDeath e pid c k).
Proof.
  unfold _applyDeath.
  destruct (map_get pid (snakes e)) as [s|]; [|apply frame_refl].
  destruct (negb (Snake.alive s)); [apply frame_refl|].
  eapply frame_trans; [|eapply frame_trans].
  2: apply frame_creditKiller.
  2: repeat split.
  eapply frame_trans; [|apply frame_dropCorpseFood]. repeat split.
Qed.

Lemma frame_applyDeaths ds killed e : frame e (applyDeaths ds killed e).
Proof.
  revert killed e. induction ds as [|d ds IH]; intros killed e; simpl.
  - apply frame_refl.
  - destruct (existsb (String.eqb (d_id d)) killed); [apply IH|].
    eapply frame_trans; [apply frame_applyDeath|apply IH].
Qed.

Lemma frame_detectCollisions e : frame e (_detectCollisions e).
Proof. apply frame_applyDeaths. Qed.

Lemma frame_checkFood e : frame e (_checkFood e).
Proof.
  unfold _checkFood.
  destruct (_checkFood_loop (snakes e) (food e)) as [[ss fs] evs].
  repeat split.
Qed.

Lemma frame_checkPowerupPickup e : frame e (_checkPowerupPickup e).
Proof.
  unfold _checkPowerupPickup.
  destruct (_checkPowerupPickup_loop (snakes e) (powerups e))
    as [[ss ps] evs].
  repeat split.
Qed.

Lemma frame_tickActivePowerups e : frame e (_tickActivePowerups e).
Proof.
  unfold _tickActivePowerups.
  destruct (tickSnakes (snakes e)) as [ss evs1].
  destruct (despawn (tick e) (powerups e)) as [ps evs2].
  repeat split.
Qed.

Lemma frame_maintainFood_loop M n e : frame e (_maintainFood_loop M n e).
Proof.
  revert e. induction n as [|n IH]; intros e; simpl.
  - apply frame_refl.
  - eapply frame_trans; [|apply IH]. repeat split.
Qed.

Lemma frame_randFloat e : frame e (snd (_randFloat e)).
Proof. repeat split. Qed.

Lemma frame_randInt e lo hi : frame e (snd (_randInt e lo hi)).
Proof. repeat split. Qed.

Lemma frame_randomWorldPosition M e f :
  frame e (snd (_randomWorldPosition M e f)).
Proof. repeat split. Qed.

Lemma frame_maybeSpawnPowerup M e : frame e (_maybeSpawnPowerup M e).
Proof.
  unfold _maybeSpawnPowerup.
  destruct (_ <? 1); [apply frame_refl|].
  destruct (_ >=? POWERUP_MAX); [apply frame_refl|].
  pose proof (frame_randFloat e) as F1.
  destruct (_randFloat e) as [r e1]. cbn [snd] in F1.
  destruct (JS.gt r POWERUP_SPAWN_CHANCE); [exact F1|].
  pose proof (frame_randomWorldPosition M e1 0.75%float) as F2.
  destruct (_randomWorldPosition M e1 0.75%float) as [pos e2].
  cbn [snd] in F2.
  pose proof (frame_randInt e2 0 (len POWERUP_TYPE_KEYS - 1)) as F3.
  destruct (_randInt e2 0 (len POWERUP_TYPE_KEYS - 1)) as [ti e3].
  cbn [snd] in F3.
  pose proof (frame_randInt e3 0 9999) as F4.
  destruct (_randInt e3 0 9999) as [n e4]. cbn [snd] in F4.
  eapply frame_trans; [exact F1|]. eapply frame_trans; [exact F2|].
  eapply frame_trans; [exact F3|]. eapply frame_trans; [exact F4|].
  repeat split.
Qed.

Lemma frame_moveSnakes M fuel e e' :
  _moveSnakes M fuel e = Some e' -> frame e e'.
Proof.
  unfold _moveSnakes.
  destruct (_moveSnakes_loop M fuel e (snakes e)) as [[ss dropped]|];
    [|discriminate].
  intros [= <-]. repeat split.
Qed.

Lemma update_unfold M fuel e :
  update M fuel e
  = match _moveSnakes M fuel (set_events (set_tick e (tick e + 1)) []) with
    | Some e1 =>
        Some (afterMove M e1,
              {| r_tick := tick (afterMove M e1);
                 r_events := events (afterMove M e1) |})
    | None => None
    end.
Proof. reflexivity. Qed.

Lemma update_phases M fuel e e' r :
  update M fuel e = Some (e', r) ->
  exists e1,
    _moveSnakes M fuel (set_events (set_tick e (tick e + 1)) []) = Some e1
    /\ e' = afterMove M e1
    /\ r = {| r_tick := tick e'; r_events := events e' |}.
Proof.
  rewrite update_unfold.
  destruct (_moveSnakes M fuel _) as [e1|] eqn:Hm; [|discriminate].
  remember (afterMove M e1) as e7 eqn:He7. intros H.
  injection H as <- <-. exists e1. repeat split. exact He7.
Qed.

Lemma frame_afterMove M e : frame e (afterMove M e).
Proof.
  unfold afterMove.
  eapply frame_trans; [apply frame_detectCollisions|].
  eapply frame_trans; [apply frame_checkFood|].
  eapply frame_trans; [apply frame_checkPowerupPickup|].
  eapply frame_trans; [apply frame_tickActivePowerups|].
  eapply frame_trans; [apply frame_maintainFood_loop|].
  apply frame_maybeSpawnPowerup.
Qed.

Lemma update_frame M fuel e e' r :
  update M fuel e = Some (e', r) ->
  frame (set_tick e (tick e + 1)) e'.
Proof.
  intros H. apply update_phases in H as (e1 & Hm & -> & _).
  eapply frame_trans; [|apply frame_afterMove].
  apply frame_moveSnakes in Hm.
  eapply frame_trans; [|exact Hm]. repeat split.
Qed.

(** The movement phase stops exactly when every turn normalisation does. *)
Lemma moveSnakes_loop_total M fuel e ss :
  Forall
    (fun kv =>
       Snake.alive (snd kv) = true ->
       normalizeDiff fuel
         (Snake.targetAngle (snd kv) - Snake.angle (snd kv))%float <> None)
    ss ->
  _moveSnakes_loop M fuel e ss <> None.
Proof.
  induction 1 as [|[id s] ss Hs _ IH]; simpl; [discriminate|].
  simpl in Hs. destruct (Snake.alive s) eqn:Ha; simpl.
  - unfold moveSnake. specialize (Hs eq_refl).
    destruct (normalizeDiff fuel _) as [d|]; [|congruence].
    destruct (growTrim s _) as [[segs l1] g1].
    destruct (boostCost _ _ _ _) as [l2 dropped].
    destruct (_moveSnakes_loop M fuel e ss) as [[ss' dr]|];
      [discriminate|congruence].
  - destruct (_moveSnakes_loop M fuel e ss) as [[ss' dr]|];
      [discriminate|congruence].
Qed.

Lemma update_total M fuel e :
  turnsTerminate fuel e -> exists e' r, update M fuel e = Some (e', r).
Proof.
  intros H. rewrite update_unfold. unfold _moveSnakes.
  change (snakes (set_events (set_tick e (tick e + 1)) [])) with (snakes e).
  pose proof (moveSnakes_loop_total M fuel
                (set_events (set_tick e (tick e + 1)) []) (snakes e) H) as Hm.
  destruct (_moveSnakes_loop M fuel _ (snakes e)) as [[ss dropped]|];
    [|congruence].
  eauto.
Qed.

(** Beyond the range in which subtracting 2 pi changes a number, the first
    normalisation loop never stops: no amount of fuel is enough. *)
Lemma wrapDown_huge fuel : wrapDown fuel 1e300%float = None.
Proof.
  induction fuel as [|n IH]; simpl.
  - reflexivity.
  - replace (JS.gt 1e300 JS.PI) with true by reflexivity.
    replace (1e300 - TWO_PI)%float with 1e300%float by reflexivity.
    exact IH.
Qed.

(* ================================================================== *)
(** ** The tick counter *)




(* ================================================================== *)
(** ** removeSnake and queueInput *)

Lemma set_snakes_same e : set_snakes e (snakes e) = e.
Proof. now destruct e. Qed.

(** C9.  A second [removeSnake] of the same id changes nothing, and for an
    id that maps to no snake neither [removeSnake] nor [queueInput] changes
    the engine; both are total functions, so nothing is thrown. *)
Theorem removeSnake_queueInput_idempotent
        (e : GameEngine.t) (id : PlayerId) (angle : JsValue)
        (boosting : bool) :
  removeSnake (removeSnake e id) id = removeSnake e id
  /\ (map_get id (snakes e) = None ->
      removeSnake e id = e /\ queueInput e id angle boosting = e).
Proof.
  split.
  - unfold removeSnake. simpl. now rewrite map_delete_twice.
  - intros H. unfold removeSnake, queueInput. rewrite H.
    rewrite map_delete_absent by exact H. split; [apply set_snakes_same|auto].
Qed.

Lemma removeSnake_queueInput_idempotent_witness :
  removeSnake duo "zed" = duo
  /\ queueInput duo "zed" (JsNumber 1%float) true = duo.
Proof.
  apply (removeSnake_queueInput_idempotent duo "zed" (JsNumber 1%float) true).
  reflexivity.
Defined.

(** C8 as stated fails: a NaN angle arrives with [boosting = true] and the
    living snake's [boosting] flag is switched on. *)
Lemma queueInput_nan_sets_boosting :
  JS.isFinite PrimFloat.nan = false
  /\ option_map Snake.boosting (map_get "ann" (snakes duo)) = Some false
  /\ option_map Snake.boosting
       (map_get "ann"
          (snakes (queueInput duo "ann" (JsNumber PrimFloat.nan) true)))
     = Some true.
Proof. repeat split. Qed.

(** C8, amended.  With a non-finite angle [queueInput] leaves [targetAngle]
    and everything else alone except the [boosting] flag of the addressed
    snake, which it sets when that snake is alive. *)
Theorem queueInput_nonfinite_angle
        (e : GameEngine.t) (id : PlayerId) (a : float) (b : bool) :
  JS.isFinite a = false ->
  set_snakes (queueInput e id (JsNumber a) b) (snakes e) = e
  /\ map_keys (snakes (queueInput e id (JsNumber a) b)) = map_keys (snakes e)
  /\ forall id' s,
       map_get id' (snakes e) = Some s ->
       map_get id' (snakes (queueInput e id (JsNumber a) b))
       = Some (if String.eqb id' id && Snake.alive s
               then Snake.set_boosting s b else s).
Proof.
  intros Hfin. unfold queueInput. rewrite Hfin.
  destruct (map_get id (snakes e)) as [s0|] eqn:Hget.
  - destruct (Snake.alive s0) eqn:Ha; simpl.
    + split; [now destruct e|]. split.
      * eapply map_keys_set_present; eauto.
      * intros id' s Hs. destruct (String.eqb id' id) eqn:E; simpl.
        -- apply String.eqb_eq in E. subst id'.
           rewrite Hget in Hs. injection Hs as <-.
           now rewrite Ha, map_get_set_same.
        -- apply String.eqb_neq in E.
           rewrite map_get_set_other by congruence. exact Hs.
    + split; [apply set_snakes_same|]. split; [reflexivity|].
      intros id' s Hs. destruct (String.eqb id' id) eqn:E; simpl; [|exact Hs].
      apply String.eqb_eq in E. subst id'.
      rewrite Hget in Hs. injection Hs as <-. now rewrite Ha.
  - split; [apply set_snakes_same|]. split; [reflexivity|].
    intros id' s Hs. destruct (String.eqb id' id) eqn:E; simpl; [|exact Hs].
    apply String.eqb_eq in E. subst id'. congruence.
Qed.

Lemma queueInput_nonfinite_angle_witness :
  map_get "ann"
    (snakes (queueInput duo "ann" (JsNumber PrimFloat.infinity) true))
  = Some (Snake.set_boosting (mkSnake "ann" (body 1000 1000 10)) true).
Proof.
  destruct (queueInput_nonfinite_angle duo "ann" PrimFloat.infinity true
              eq_refl) as (_ & _ & H).
  exact (H "ann" (mkSnake "ann" (body 1000 1000 10)) eq_refl).
Defined.

(* ================================================================== *)
(** ** Room membership and the end of a round *)

Import Room.

Lemma RoomState_eqb_eq a b : RoomState_eqb a b = true <-> a = b.
Proof. destruct a, b; simpl; split; congruence. Qed.

(** C10.  While the room is PLAYING or COUNTDOWN, [addPlayer] always
    answers [{success: true, asSpectator: true}] and stores the player as a
    spectator, whatever the member count; a new id makes the room one
    larger, so a full room ends up above [maxPlayers].  The answer
    "Room is full" is given only in WAITING or ENDED, by a full room. *)
Theorem addPlayer_spectator_bypasses_capacity (r : Room.t) (p : Player.t) :
  (Room.state r = PLAYING \/ Room.state r = COUNTDOWN ->
   added_result (addPlayer r p) = AddSuccess true
   /\ (exists p',
         map_get (Player.id p) (players (added_room (addPlayer r p)))
         = Some p'
         /\ Player.spectating p' = true)
   /\ (map_get (Player.id p) (players r) = None ->
       getPlayerCount (added_room (addPlayer r p)) = getPlayerCount r + 1)
   /\ (map_get (Player.id p) (players r) = None ->
       isFull r = true ->
       getPlayerCount (added_room (addPlayer r p)) > maxPlayers r))
  /\ (added_result (addPlayer r p) = AddError "Room is full" ->
      (Room.state r = WAITING \/ Room.state r = ENDED) /\ isFull r = true).
Proof.
  split.
  - intros Hst. unfold addPlayer.
    replace (RoomState_eqb (Room.state r) PLAYING
             || RoomState_eqb (Room.state r) COUNTDOWN) with true
      by (destruct Hst as [-> | ->]; reflexivity).
    unfold added_result, added_room, getPlayerCount. simpl.
    split; [reflexivity|]. split.
    + eexists. split; [apply map_get_set_same|reflexivity].
    + split.
      * intros Hnew. now apply map_size_set_fresh.
      * intros Hnew Hfull. rewrite map_size_set_fresh by exact Hnew.
        unfold isFull in Hfull. lia.
  - unfold addPlayer, added_result.
    destruct (Room.state r) eqn:Hst; simpl;
      try discriminate; destruct (isFull r); simpl; try discriminate;
      auto.
Qed.

Lemma addPlayer_spectator_bypasses_capacity_witness :
  getPlayerCount
    (added_room
       (addPlayer
          (arena PLAYING (Some duo)
                 [("ann", mkPlayer "ann"); ("bob", mkPlayer "bob")])
          (mkPlayer "cat")))
  > 2.
Proof.
  apply (addPlayer_spectator_bypasses_capacity
           (arena PLAYING (Some duo)
                  [("ann", mkPlayer "ann"); ("bob", mkPlayer "bob")])
           (mkPlayer "cat")).
  - left. reflexivity.
  - reflexivity.
  - reflexivity.
Defined.





(* ================================================================== *)
(** ** Sorting with a comparator *)

Section SortFacts.
Context {A : Type} (cmp : A -> A -> Z).
Hypothesis cmp_total : forall a b, ~ cmp a b <= 0 -> cmp b a <= 0.
Hypothesis cmp_trans :
  forall a b c, cmp a b <= 0 -> cmp b c <= 0 -> cmp a c <= 0.

Let R (a b : A) : Prop := cmp a b <= 0.

Lemma insert_sorted_Forall (P : A -> Prop) x l :
  P x -> Forall P l -> Forall P (insert_sorted cmp x l).
Proof.
  intros Hx Hl. induction Hl as [|y r Hy Hr IH]; cbn [insert_sorted].
  - auto.
  - destruct (cmp x y <=? 0); auto.
Qed.

Lemma insert_sorted_perm x l : Permutation (x :: l) (insert_sorted cmp x l).
Proof.
  induction l as [|y r IH]; cbn [insert_sorted].
  - apply Permutation_refl.
  - destruct (cmp x y <=? 0).
    + apply Permutation_refl.
    + eapply Permutation_trans; [apply perm_swap|]. now apply perm_skip.
Qed.

Lemma insert_sorted_sorted x l :
  StronglySorted R l -> StronglySorted R (insert_sorted cmp x l).
Proof.
  induction 1 as [|y r Hs IH Hy]; cbn [insert_sorted].
  - constructor; constructor.
  - destruct (cmp x y <=? 0) eqn:E.
    + apply Z.leb_le in E. constructor; [now constructor|].
      constructor; [exact E|].
      eapply Forall_impl; [|exact Hy]. intros z Hz.
      unfold R in *. eauto.
    + apply Z.leb_gt in E. constructor; [exact IH|].
      apply insert_sorted_Forall; [|exact Hy].
      apply cmp_total. lia.
Qed.

Lemma Array_sort_sorted l : StronglySorted R (Array_sort cmp l).
Proof.
  induction l as [|x l IH]; cbn [Array_sort fold_right].
  - constructor.
  - now apply insert_sorted_sorted.
Qed.

Lemma Array_sort_perm l : Permutation l (Array_sort cmp l).
Proof.
  induction l as [|x l IH]; cbn [Array_sort fold_right].
  - apply Permutation_refl.
  - eapply Permutation_trans; [|apply insert_sorted_perm].
    now apply perm_skip.
Qed.

End SortFacts.



Lemma mapi_from_map {A B C : Type} (f : A -> Z -> B) (g : B -> C)
      (h : A -> C) :
  (forall a i, g (f a i) = h a) ->
  forall l i, map g (mapi_from i f l) = map h l.
Proof.
  intros H l. induction l as [|a l IH]; intros i; cbn [mapi_from map].
  - reflexivity.
  - now rewrite H, IH.
Qed.


(** *** The three comparators *)





Lemma cmpStanding_total a b :
  ~ cmpStanding a b <= 0 -> cmpStanding b a <= 0.
Proof.
  unfold cmpStanding.
  destruct (Snake.alive a), (Snake.alive b); cbn [Bool.eqb negb]; try lia;
    destruct (Snake.score b =? Snake.score a) eqn:E1;
    destruct (Snake.score a =? Snake.score b) eqn:E2; cbn [negb]; lia.
Qed.

Lemma cmpStanding_trans a b c :
  cmpStanding a b <= 0 -> cmpStanding b c <= 0 -> cmpStanding a c <= 0.
Proof.
  unfold cmpStanding.
  destruct (Snake.alive a), (Snake.alive b), (Snake.alive c);
    cbn [Bool.eqb negb]; try lia;
    destruct (Snake.score b =? Snake.score a) eqn:E1;
    destruct (Snake.score c =? Snake.score b) eqn:E2;
    destruct (Snake.score c =? Snake.score a) eqn:E3; cbn [negb]; lia.
Qed.





(* ================================================================== *)
(** ** Related snake maps *)

Section KeyRel.
Context (R : Snake.t -> Snake.t -> Prop).
Implicit Types m : list (PlayerId * Snake.t).

Lemma keyrel_refl m : (forall s, R s s) -> keyrel R m m.
Proof.
  intros HR. induction m as [|kv m IH]; constructor; auto.
Qed.

Lemma keyrel_keys m m' : keyrel R m m' -> map_keys m' = map_keys m.
Proof.
  induction 1 as [|kv kv' m m' [Hk _] _ IH]; unfold map_keys in *;
    cbn [map].
  - reflexivity.
  - f_equal; [exact Hk|exact IH].
Qed.

Lemma keyrel_get m m' id s' :
  keyrel R m m' -> map_get id m' = Some s' ->
  exists s, map_get id m = Some s /\ R s s'.
Proof.
  induction 1 as [|[k v] [k' v'] m m' [Hk Hr] _ IH]; cbn [map_get].
  - discriminate.
  - cbn [fst snd] in Hk, Hr. subst k'.
    destruct (String.eqb id k); [|exact IH].
    intros [= <-]. eauto.
Qed.

Lemma keyrel_get_fwd m m' id s :
  keyrel R m m' -> map_get id m = Some s ->
  exists s', map_get id m' = Some s' /\ R s s'.
Proof.
  induction 1 as [|[k v] [k' v'] m m' [Hk Hr] _ IH]; cbn [map_get].
  - discriminate.
  - cbn [fst snd] in Hk, Hr. subst k'.
    destruct (String.eqb id k); [|exact IH].
    intros [= <-]. eauto.
Qed.

Lemma keyrel_Forall (P Q : Snake.t -> Prop) m m' :
  (forall s s', P s -> R s s' -> Q s') ->
  keyrel R m m' ->
  Forall (fun kv => P (snd kv)) m -> Forall (fun kv => Q (snd kv)) m'.
Proof.
  intros HPQ. induction 1 as [|kv kv' m m' [_ Hr] _ IH]; intros HP.
  - constructor.
  - inversion HP; subst. constructor; eauto.
Qed.

Lemma map_set_keyrel m k v0 v :
  (forall s, R s s) -> R v0 v -> map_get k m = Some v0 ->
  keyrel R m (map_set k v m).
Proof.
  intros Hrefl Hv. induction m as [|[k' v'] m IH]; cbn [map_get map_set].
  - discriminate.
  - destruct (String.eqb k k') eqn:E.
    + apply String.eqb_eq in E. subst k'. intros [= ->].
      constructor; [split; [reflexivity|exact Hv]|now apply keyrel_refl].
    + intros H. constructor; [split; [reflexivity|apply Hrefl]|].
      exact (IH H).
Qed.

End KeyRel.

Lemma keyrel_trans (R1 R2 R3 : Snake.t -> Snake.t -> Prop) m1 m2 m3 :
  (forall a b c, R1 a b -> R2 b c -> R3 a c) ->
  keyrel R1 m1 m2 -> keyrel R2 m2 m3 -> keyrel R3 m1 m3.
Proof.
  intros Ht H12. revert m3.
  induction H12 as [|kv1 kv2 m1 m2 [Hk Hr] _ IH]; intros m3 H23;
    inversion H23 as [|? kv3 ? m3' [Hk' Hr'] H23']; subst; constructor.
  - split; [congruence|eauto].
  - exact (IH _ H23').
Qed.

Lemma keyrel_impl (R1 R2 : Snake.t -> Snake.t -> Prop) m m' :
  (forall a b, R1 a b -> R2 a b) -> keyrel R1 m m' -> keyrel R2 m m'.
Proof.
  intros Hi H. eapply Forall2_impl; [|exact H].
  intros a b [Hk Hr]. auto.
Qed.

(** *** Credits and deaths *)

Lemma credit_only_refl s : credit_only s s.
Proof. exists (Snake.kills s), (Snake.score s). now destruct s. Qed.

Lemma credit_only_trans a b c :
  credit_only a b -> credit_only b c -> credit_only a c.
Proof.
  intros (k1 & s1 & ->) (k2 & s2 & ->). exists k2, s2. now destruct a.
Qed.

Lemma credit_only_credited s : credit_only s (credited s).
Proof. eexists _, _. reflexivity. Qed.

Lemma credit_only_alive a b :
  credit_only a b -> Snake.alive b = Snake.alive a.
Proof. intros (k & sc & ->). reflexivity. Qed.

Lemma evolves_refl t s : evolves t s s.
Proof. now left. Qed.

Lemma evolves_dead t s s' :
  Snake.alive s = false -> evolves t s s' -> s' = s.
Proof. intros Hd [H|[[Ha _]|[Ha _]]]; congruence. Qed.

Lemma evolves_trans t a b c : evolves t a b -> evolves t b c -> evolves t a c.
Proof.
  intros [->|[[Ha Hab]|[Ha (a1 & ca & ka & Hab & ->)]]] Hbc; [exact Hbc| |].
  - destruct Hbc as [->|[[Hb Hbc]|[Hb (b1 & cb & kb & Hbc & ->)]]].
    + right; left. auto.
    + right; left. split; [exact Ha|]. eapply credit_only_trans; eauto.
    + right; right. split; [exact Ha|]. exists b1, cb, kb.
      split; [eapply credit_only_trans; eauto|reflexivity].
  - apply evolves_dead in Hbc; [|reflexivity]. subst c.
    right; right. split; [exact Ha|]. exists a1, ca, ka. auto.
Qed.

(* ================================================================== *)
(** ** What [_applyDeath] does *)

Lemma snakes_dropCorpseFood segs e : snakes (dropCorpseFood e segs) = snakes e.
Proof.
  revert e. induction segs as [|seg segs IH]; intros e; cbn [dropCorpseFood].
  - reflexivity.
  - destruct (PrimFloat.ltb _ _); [|apply IH].
    unfold _randFloat. cbv zeta. now rewrite IH.
Qed.

Lemma events_dropCorpseFood segs e : events (dropCorpseFood e segs) = events e.
Proof.
  revert e. induction segs as [|seg segs IH]; intros e; cbn [dropCorpseFood].
  - reflexivity.
  - destruct (PrimFloat.ltb _ _); [|apply IH].
    unfold _randFloat. cbv zeta. now rewrite IH.
Qed.

Lemma killerOf_Some k m k' killer :
  killerOf k m = Some (k', killer) ->
  k = Some k' /\ k' <> EmptyString
  /\ map_get k' m = Some killer /\ Snake.alive killer = true.
Proof.
  unfold killerOf. destruct k as [k0|]; [|discriminate].
  destruct (String.eqb k0 EmptyString) eqn:E; [discriminate|].
  apply String.eqb_neq in E.
  destruct (map_get k0 m) as [s|] eqn:Hg; [|discriminate].
  destruct (Snake.alive s) eqn:Ha; [|discriminate].
  intros [= <- <-]. auto.
Qed.

Lemma killerOf_living k m killer :
  k <> EmptyString -> map_get k m = Some killer ->
  Snake.alive killer = true ->
  killerOf (Some k) m = Some (k, killer).
Proof.
  intros Hne Hg Ha. unfold killerOf.
  apply String.eqb_neq in Hne. now rewrite Hne, Hg, Ha.
Qed.

Lemma creditKiller_spec e pid s c k :
  creditKiller e pid s c k
  = match killerOf k (snakes e) with
    | Some (k', killer) =>
        push_event
          (set_snakes e (map_set k' (credited killer) (snakes e)))
          (EvKill k' (Snake.username killer) pid (Snake.username s) c)
    | None => e
    end.
Proof.
  unfold creditKiller, killerOf. destruct k as [k0|]; [|reflexivity].
  destruct (String.eqb k0 EmptyString); [reflexivity|].
  destruct (map_get k0 (snakes e)) as [killer|]; [|reflexivity].
  destruct (Snake.alive killer); reflexivity.
Qed.

Lemma applyDeath_noop e pid c k :
  (forall s, map_get pid (snakes e) = Some s -> Snake.alive s = false) ->
  _applyDeath e pid c k = e.
Proof.
  intros H. unfold _applyDeath.
  destruct (map_get pid (snakes e)) as [s|]; [|reflexivity].
  now rewrite (H s eq_refl).
Qed.

Lemma applyDeath_spec e pid c k v :
  map_get pid (snakes e) = Some v ->
  Snake.alive v = true ->
  snakes (_applyDeath e pid c k)
  = match killerOf k (map_set pid (Snake.die v (tick e) c k) (snakes e)) with
    | Some (k', killer) =>
        map_set k' (credited killer)
                (map_set pid (Snake.die v (tick e) c k) (snakes e))
    | None => map_set pid (Snake.die v (tick e) c k) (snakes e)
    end
  /\ events (_applyDeath e pid c k)
     = events e
       ++ match killerOf k
                  (map_set pid (Snake.die v (tick e) c k) (snakes e)) with
          | Some (k', killer) =>
              [EvKill k' (Snake.username killer) pid (Snake.username v) c]
          | None => []
          end
       ++ [EvDeath pid (Snake.username v) (Snake.color v) c k
                   (Snake.score v) (Snake.length v) (tick e)].
Proof.
  intros Hg Ha. unfold _applyDeath. rewrite Hg, Ha. cbn [negb].
  rewrite creditKiller_spec.
  set (dead := Snake.die v (tick e) c k).
  set (e2 := dropCorpseFood _ _).
  assert (Hs2 : snakes e2 = map_set pid dead (snakes e))
    by (unfold e2; now rewrite snakes_dropCorpseFood).
  assert (He2 : events e2 = events e)
    by (unfold e2; now rewrite events_dropCorpseFood).
  rewrite Hs2.
  destruct (killerOf k (map_set pid dead (snakes e))) as [[k' killer]|];
    cbn [snakes events push_event set_events set_snakes];
    rewrite ?Hs2, ?He2; split; try reflexivity.
  now rewrite <- app_assoc.
Qed.

Lemma applyDeath_keyrel e pid c k :
  keyrel (evolves (tick e)) (snakes e) (snakes (_applyDeath e pid c k)).
Proof.
  destruct (map_get pid (snakes e)) as [v|] eqn:Hg.
  - destruct (Snake.alive v) eqn:Ha.
    + rewrite (proj1 (applyDeath_spec e pid c k v Hg Ha)).
      set (m1 := map_set pid _ (snakes e)).
      assert (H1 : keyrel (evolves (tick e)) (snakes e) m1).
      { eapply map_set_keyrel; [apply evolves_refl| |exact Hg].
        right; right. split; [exact Ha|]. exists v, c, k.
        split; [apply credit_only_refl|reflexivity]. }
      destruct (killerOf k m1) as [[k' killer]|] eqn:Hk; [|exact H1].
      apply killerOf_Some in Hk as (_ & _ & Hgk & Hak).
      eapply keyrel_trans; [apply evolves_trans|exact H1|].
      eapply map_set_keyrel; [apply evolves_refl| |exact Hgk].
      right; left. split; [exact Hak|apply credit_only_credited].
    + rewrite applyDeath_noop; [apply keyrel_refl, evolves_refl|].
      intros s Hs. congruence.
  - rewrite applyDeath_noop; [apply keyrel_refl, evolves_refl|].
    intros s Hs. congruence.
Qed.

Lemma applyDeath_get e pid c k id s :
  map_get id (snakes e) = Some s ->
  exists s',
    map_get id (snakes (_applyDeath e pid c k)) = Some s'
    /\ if Snake.alive s
       then (if String.eqb id pid then s' = Snake.die s (tick e) c k
             else credit_only s s')
       else s' = s.
Proof.
  intros Hs.
  destruct (keyrel_get_fwd _ _ _ _ _ (applyDeath_keyrel e pid c k) Hs)
    as (s' & Hs' & Hev).
  exists s'. split; [exact Hs'|].
  destruct (Snake.alive s) eqn:Ha; [|now apply evolves_dead in Hev].
  destruct (String.eqb id pid) eqn:E.
  - apply String.eqb_eq in E. subst id.
    rewrite (proj1 (applyDeath_spec e pid c k s Hs Ha)) in Hs'.
    set (m1 := map_set pid _ (snakes e)) in *.
    assert (Hd : map_get pid m1 = Some (Snake.die s (tick e) c k))
      by apply map_get_set_same.
    destruct (killerOf k m1) as [[k' killer]|] eqn:Hk; [|congruence].
    apply killerOf_Some in Hk as (_ & _ & Hgk & Hak).
    assert (k' <> pid).
    { intros ->. rewrite Hd in Hgk. injection Hgk as <-. discriminate. }
    rewrite map_get_set_other in Hs' by assumption. congruence.
  - apply String.eqb_neq in E.
    destruct (map_get pid (snakes e)) as [v|] eqn:Hg.
    + destruct (Snake.alive v) eqn:Hav.
      * rewrite (proj1 (applyDeath_spec e pid c k v Hg Hav)) in Hs'.
        set (m1 := map_set pid _ (snakes e)) in *.
        assert (H1 : map_get id m1 = Some s).
        { unfold m1. rewrite map_get_set_other by congruence. exact Hs. }
        destruct (killerOf k m1) as [[k' killer]|] eqn:Hk.
        -- apply killerOf_Some in Hk as (_ & _ & Hgk & Hak).
           destruct (String.eqb k' id) eqn:E'.
           ++ apply String.eqb_eq in E'. subst k'.
              rewrite map_get_set_same in Hs'. injection Hs' as <-.
              rewrite H1 in Hgk. injection Hgk as <-.
              apply credit_only_credited.
           ++ apply String.eqb_neq in E'.
              rewrite map_get_set_other in Hs' by assumption.
              rewrite H1 in Hs'. injection Hs' as <-.
              apply credit_only_refl.
        -- rewrite H1 in Hs'. injection Hs' as <-. apply credit_only_refl.
      * rewrite applyDeath_noop in Hs' by (intros ? ?; congruence).
        rewrite Hs in Hs'. injection Hs' as <-. apply credit_only_refl.
    + rewrite applyDeath_noop in Hs' by (intros ? ?; congruence).
      rewrite Hs in Hs'. injection Hs' as <-. apply credit_only_refl.
Qed.

(** C7 as stated fails: Ann dies at the wall and Bob dies on her body in
    the same tick.  Bob's death is applied with [killerId = "ann"], but Ann
    is already dead by then: she gets no kill and no score, and no [kill]
    event is emitted, only the two [death] events. *)
Lemma dead_killer_gets_no_credit :
  collectDeaths wallCrash
  = [ {| d_id := "ann"; d_cause := wall; d_killerId := None |};
      {| d_id := "bob"; d_cause := collision; d_killerId := Some "ann" |} ]
  /\ option_map (fun s => (Snake.alive s, Snake.kills s, Snake.score s))
       (map_get "ann" (snakes (_detectCollisions wallCrash)))
     = Some (false, 0, 0)
  /\ events (_detectCollisions wallCrash)
     = [ EvDeath "ann" "ann" "#3B82F6" wall None 0 10 4;
         EvDeath "bob" "bob" "#3B82F6" collision (Some "ann") 0 10 4 ].
Proof. repeat split; vm_compute; reflexivity. Qed.

(** C7, amended.  Applying the death of a living snake always emits, last,
    a [death] event with the victim's score and length; when the killer id
    names another snake that is alive at that moment, that snake gets +1
    kill and +50 score and exactly one [kill] event precedes the [death]
    event. *)
Theorem applyDeath_credit_and_events
        (e : GameEngine.t) (pid : PlayerId) (cause : DeathCause)
        (killerId : option PlayerId) (v : Snake.t) :
  map_get pid (snakes e) = Some v ->
  Snake.alive v = true ->
  (exists evs,
     events (_applyDeath e pid cause killerId)
     = events e ++ evs
       ++ [EvDeath pid (Snake.username v) (Snake.color v) cause killerId
                   (Snake.score v) (Snake.length v) (tick e)])
  /\ (forall k ks,
        killerId = Some k -> k <> EmptyString -> k <> pid ->
        map_get k (snakes e) = Some ks -> Snake.alive ks = true ->
        map_get k (snakes (_applyDeath e pid cause killerId))
        = Some (credited ks)
        /\ events (_applyDeath e pid cause killerId)
           = events e
             ++ [EvKill k (Snake.username ks) pid (Snake.username v) cause;
                 EvDeath pid (Snake.username v) (Snake.color v) cause
                         killerId (Snake.score v) (Snake.length v)
                         (tick e)]).
Proof.
  intros Hg Ha.
  destruct (applyDeath_spec e pid cause killerId v Hg Ha) as [Hs He].
  split.
  - eexists. exact He.
  - intros k ks -> Hne Hkp Hk Hka.
    assert (Hko : killerOf (Some k)
                    (map_set pid (Snake.die v (tick e) cause (Some k))
                             (snakes e))
                  = Some (k, ks)).
    { apply killerOf_living; auto.
      rewrite map_get_set_other by congruence. exact Hk. }
    rewrite Hko in Hs, He. split.
    + rewrite Hs. apply map_get_set_same.
    + exact He.
Qed.

Lemma applyDeath_credit_and_events_witness :
  option_map (fun s => (Snake.kills s, Snake.score s))
    (map_get "ann" (snakes (_applyDeath duo "bob" collision (Some "ann"))))
  = Some (1, 50).
Proof.
  destruct (applyDeath_credit_and_events duo "bob" collision (Some "ann")
              (mkSnake "bob" (body 1000 1200 10)) eq_refl eq_refl)
    as [_ H].
  destruct (H "ann" (mkSnake "ann" (body 1000 1000 10)) eq_refl)
    as [Hk _].
  - discriminate.
  - discriminate.
  - reflexivity.
  - reflexivity.
  - rewrite Hk. reflexivity.
Defined.

(* ================================================================== *)
(** ** Head-to-head collisions of two snakes *)





(* ================================================================== *)
(** ** The phases of a tick, snake by snake *)

Lemma moveSnakes_loop_keyrel M fuel e ss ss' dropped :
  _moveSnakes_loop M fuel e ss = Some (ss', dropped) ->
  keyrel (moved M fuel e) ss ss'.
Proof.
  revert ss' dropped.
  induction ss as [|[id s] ss IH]; intros ss' dropped; cbn [_moveSnakes_loop].
  - intros [= <- _]. constructor.
  - destruct (Snake.alive s) eqn:Ha; cbn [negb].
    + destruct (moveSnake M fuel e s) as [[s1 d1]|] eqn:Hm; [|discriminate].
      destruct (_moveSnakes_loop M fuel e ss) as [[r d]|]; [|discriminate].
      intros [= <- _]. constructor; [|now eapply IH].
      split; [reflexivity|]. right. split; [exact Ha|]. now exists d1.
    + destruct (_moveSnakes_loop M fuel e ss) as [[r d]|]; [|discriminate].
      intros [= <- _]. constructor; [|now eapply IH].
      split; [reflexivity|]. left. auto.
Qed.

Lemma moveSnakes_keyrel M fuel e e' :
  _moveSnakes M fuel e = Some e' ->
  keyrel (moved M fuel e) (snakes e) (snakes e').
Proof.
  unfold _moveSnakes.
  destruct (_moveSnakes_loop M fuel e (snakes e)) as [[ss dropped]|] eqn:H;
    [|discriminate].
  intros [= <-]. cbn [snakes set_food set_snakes].
  eapply moveSnakes_loop_keyrel; eauto.
Qed.

Lemma applyDeaths_keyrel ds killed e :
  keyrel (evolves (tick e)) (snakes e) (snakes (applyDeaths ds killed e)).
Proof.
  revert killed e. induction ds as [|d ds IH]; intros killed e;
    cbn [applyDeaths].
  - apply keyrel_refl, evolves_refl.
  - destruct (existsb (String.eqb (d_id d)) killed); [apply IH|].
    eapply keyrel_trans; [apply evolves_trans|apply applyDeath_keyrel|].
    pose proof (frame_applyDeath e (d_id d) (d_cause d) (d_killerId d))
      as (_ & _ & _ & _ & Ht).
    rewrite <- Ht. apply IH.
Qed.

Lemma detectCollisions_keyrel e :
  keyrel (evolves (tick e)) (snakes e) (snakes (_detectCollisions e)).
Proof. apply applyDeaths_keyrel. Qed.

(** The first death listed for a living snake is the one applied. *)
Lemma applyDeaths_first ds1 :
  forall killed e id s d ds2,
    map_get id (snakes e) = Some s ->
    Snake.alive s = true ->
    ~ In id killed ->
    Forall (fun d' => d_id d' <> id) ds1 ->
    d_id d = id ->
    exists s1,
      credit_only s s1
      /\ map_get id (snakes (applyDeaths (ds1 ++ d :: ds2) killed e))
         = Some (Snake.die s1 (tick e) (d_cause d) (d_killerId d)).
Proof.
  induction ds1 as [|d' ds1 IH]; intros killed e id s d ds2 Hg Ha Hk Hf Hd;
    subst id.
  - cbn [app applyDeaths].
    replace (existsb (String.eqb (d_id d)) killed) with false.
    2:{ symmetry. apply not_true_is_false. intros H.
        apply existsb_exists in H as (x & Hx & E).
        apply String.eqb_eq in E. congruence. }
    destruct (applyDeath_get e (d_id d) (d_cause d) (d_killerId d) (d_id d)
                s Hg) as (s' & Hs' & Hf').
    rewrite Ha, String.eqb_refl in Hf'. subst s'.
    exists s. split; [apply credit_only_refl|].
    destruct (keyrel_get_fwd _ _ _ _ _
                (applyDeaths_keyrel ds2 (d_id d :: killed)
                   (_applyDeath e (d_id d) (d_cause d) (d_killerId d)))
                Hs') as (s'' & Hs'' & Hev).
    apply evolves_dead in Hev; [|reflexivity]. subst s''.
    exact Hs''.
  - inversion Hf as [|? ? Hd' Hf']; subst. cbn [app applyDeaths].
    destruct (existsb (String.eqb (d_id d')) killed).
    + now apply IH.
    + destruct (applyDeath_get e (d_id d') (d_cause d') (d_killerId d')
                  (d_id d) s Hg) as (s' & Hs' & Hc).
      rewrite Ha in Hc.
      replace (String.eqb (d_id d) (d_id d')) with false in Hc
        by (symmetry; apply String.eqb_neq; congruence).
      destruct (IH (d_id d' :: killed)
                   (_applyDeath e (d_id d') (d_cause d') (d_killerId d'))
                   (d_id d) s' d ds2 Hs') as (s1 & Hc1 & Hres).
      * now rewrite (credit_only_alive _ _ Hc).
      * intros [H|H]; [congruence|contradiction].
      * exact Hf'.
      * reflexivity.
      * exists s1. split; [eapply credit_only_trans; eauto|].
        pose proof (frame_applyDeath e (d_id d') (d_cause d') (d_killerId d'))
          as (_ & _ & _ & _ & Ht).
        rewrite Ht in Hres. exact Hres.
Qed.

(** *** The shape of the death list *)

Lemma crossInner_appends i idA a js deaths :
  exists extra, crossInner i idA a js deaths = deaths ++ extra.
Proof.
  revert deaths. induction js as [|[j [idB b]] js IH]; intros deaths;
    cbn [crossInner].
  - exists []. now rewrite app_nil_r.
  - destruct (Nat.eqb i j); [apply IH|].
    destruct (negb (Snake.alive b)); [apply IH|].
    destruct (isDead deaths idA); [exists []; now rewrite app_nil_r|].
    destruct (Nat.ltb i j && headToHead a b).
    + destruct (negb (Snake.has _ shield)); [|apply IH].
      destruct (IH (deaths ++ [ {| d_id := if colliderIsA a b then idA else idB;
                                   d_cause := head_collision;
                                   d_killerId :=
                                     Some (if colliderIsA a b then idB else idA) |} ]))
        as (extra & ->).
      eexists. now rewrite <- app_assoc.
    + destruct (negb (Snake.has a ghost) && negb (Snake.has a shield)
                && bodyHit a b); [|apply IH].
      destruct (IH (deaths ++ [ {| d_id := idA; d_cause := collision;
                                   d_killerId := Some idB |} ]))
        as (extra & ->).
      eexists. now rewrite <- app_assoc.
Qed.

Lemma crossOuter_appends all todo deaths :
  exists extra, crossOuter all todo deaths = deaths ++ extra.
Proof.
  revert deaths. induction todo as [|[i [idA a]] todo IH]; intros deaths;
    cbn [crossOuter].
  - exists []. now rewrite app_nil_r.
  - destruct (negb (Snake.alive a) || isDead deaths idA); [apply IH|].
    destruct (crossInner_appends i idA a all deaths) as (x1 & ->).
    destruct (IH (deaths ++ x1)) as (x2 & ->).
    eexists. now rewrite <- app_assoc.
Qed.

Lemma soloDeath_ids e id s :
  Forall (fun d => d_id d = id) (soloDeath e id s).
Proof.
  unfold soloDeath. destruct (negb (Snake.alive s)); [constructor|].
  destruct (outside e (Snake.head s) && negb (Snake.has s ghost));
    [repeat constructor|].
  destruct (negb (Snake.has s shield) && selfHit s); repeat constructor.
Qed.

Lemma soloDeaths_ids e ss id :
  ~ In id (map_keys ss) ->
  Forall (fun d => d_id d <> id) (soloDeaths e ss).
Proof.
  induction ss as [|[k s] ss IH]; cbn [soloDeaths flat_map map_keys map];
    intros Hn.
  - constructor.
  - apply Forall_app. split.
    + eapply Forall_impl; [|apply soloDeath_ids].
      cbn [fst]. intros d ->. intros ->. apply Hn. now left.
    + apply IH. intros H. apply Hn. now right.
Qed.

Lemma map_get_split {V : Type} id (s : V) m :
  map_get id m = Some s ->
  exists l1 l2, m = l1 ++ (id, s) :: l2 /\ ~ In id (map_keys l1).
Proof.
  induction m as [|[k v] m IH]; cbn [map_get]; [discriminate|].
  destruct (String.eqb id k) eqn:E.
  - apply String.eqb_eq in E. subst k. intros [= ->].
    exists [], m. split; [reflexivity|]. intros [].
  - apply String.eqb_neq in E. intros H.
    destruct (IH H) as (l1 & l2 & -> & Hn).
    exists ((k, v) :: l1), l2. split; [reflexivity|].
    unfold map_keys in *. cbn [map fst In].
    intros [Hk|Hin]; [congruence|contradiction].
Qed.

(** A living snake outside the boundary without a ghost effect comes out
    of the death pass dead, killed by the wall. *)
Lemma detectCollisions_wall e id s :
  map_get id (snakes e) = Some s ->
  Snake.alive s = true ->
  outside e (Snake.head s) = true ->
  Snake.has s ghost = false ->
  exists s1,
    credit_only s s1
    /\ map_get id (snakes (_detectCollisions e))
       = Some (Snake.die s1 (tick e) wall None).
Proof.
  intros Hg Ha Ho Hgh.
  destruct (map_get_split id s _ Hg) as (l1 & l2 & Hs & Hn).
  unfold _detectCollisions, collectDeaths.
  destruct (crossOuter_appends (indexed (snakes e)) (indexed (snakes e))
              (soloDeaths e (snakes e))) as (extra & ->).
  assert (Hsolo : soloDeaths e (snakes e)
                  = soloDeaths e l1
                    ++ {| d_id := id; d_cause := wall; d_killerId := None |}
                       :: soloDeaths e l2).
  { rewrite Hs. unfold soloDeaths. rewrite flat_map_app.
    cbn [flat_map fst snd]. unfold soloDeath at 2.
    rewrite Ha, Ho, Hgh. reflexivity. }
  rewrite Hsolo, <- app_assoc. cbn [app].
  apply (applyDeaths_first (soloDeaths e l1) [] e id s
           {| d_id := id; d_cause := wall; d_killerId := None |});
    auto.
  apply (soloDeaths_ids e l1 id Hn).
Qed.

(** *** The phases after the death pass *)

Lemma settled_refl s : settled s s.
Proof.
  destruct (Snake.alive s) eqn:Ha; [right|left; auto].
  split; [exact Ha|].
  exists (Snake.growPending s), (Snake.score s), (Snake.activePowerups s).
  split; [lia|now destruct s].
Qed.

Lemma settled_trans a b c : settled a b -> settled b c -> settled a c.
Proof.
  intros [[Ha ->]|[Ha (g & sc & fx & Hg & ->)]] Hbc; [exact Hbc|].
  destruct Hbc as [[Hb ->]|[Hb (g' & sc' & fx' & Hg' & ->)]].
  - cbn in Hb. congruence.
  - right. split; [exact Ha|]. exists g', sc', fx'.
    cbn in Hg'. split; [lia|now destruct a].
Qed.

Lemma eatLoop_settled s fs fs' s' evs :
  Snake.alive s = true ->
  eatLoop s fs = (fs', s', evs) -> settled s s'.
Proof.
  intros Ha. revert fs' s' evs.
  induction fs as [|f fs IH]; intros fs' s' evs; cbn [eatLoop].
  - intros [= _ <- _]. apply settled_refl.
  - destruct (eatLoop s fs) as [[r s1] ev1].
    specialize (IH _ _ _ eq_refl).
    destruct (PrimFloat.ltb _ _); intros [= _ <- _]; [|exact IH].
    eapply settled_trans; [exact IH|].
    assert (Ha1 : Snake.alive s1 = true).
    { destruct IH as [[H _]|[_ (g & sc & fx & _ & ->)]];
        [congruence|exact Ha]. }
    right. split; [exact Ha1|].
    exists (Snake.growPending s1
            + match food_type f with
              | bonus => GROW_PER_FOOD + 2
              | normal => GROW_PER_FOOD
              end),
      (Snake.score s1
       + (if food_value f =? 0 then FOOD_SCORE else food_value f)),
      (Snake.activePowerups s1).
    split; [|now destruct s1].
    destruct (food_type f); unfold GROW_PER_FOOD; lia.
Qed.

Lemma checkFood_loop_keyrel ss :
  forall fs ss' fs' evs,
    _checkFood_loop ss fs = (ss', fs', evs) -> keyrel settled ss ss'.
Proof.
  induction ss as [|[id s] ss IH]; intros fs ss' fs' evs;
    cbn [_checkFood_loop].
  - intros [= <- _ _]. constructor.
  - destruct (Snake.alive s) eqn:Ha; cbn [negb].
    + destruct (eatLoop s fs) as [[fs1 s1] ev1] eqn:He.
      destruct (_checkFood_loop ss fs1) as [[r f'] ev] eqn:Hl.
      intros [= <- _ _]. constructor; [|eapply IH; eauto].
      split; [reflexivity|]. eapply eatLoop_settled; eauto.
    + destruct (_checkFood_loop ss fs) as [[r f'] ev] eqn:Hl.
      intros [= <- _ _]. constructor; [|eapply IH; eauto].
      split; [reflexivity|]. left. auto.
Qed.

Lemma checkFood_keyrel e : keyrel settled (snakes e) (snakes (_checkFood e)).
Proof.
  unfold _checkFood.
  destruct (_checkFood_loop (snakes e) (food e)) as [[ss fs] evs] eqn:H.
  cbn [snakes set_events set_food set_snakes].
  eapply checkFood_loop_keyrel; eauto.
Qed.

Lemma pickup_settled s pu :
  Snake.alive s = true -> settled s (fst (pickup s pu)).
Proof.
  intros Ha. right. split; [exact Ha|]. unfold pickup. cbn [fst].
  destruct (pu_type pu) as [ty|].
  - exists (Snake.growPending s), (Snake.score s + 15),
      (fx_set ty (powerup_duration ty) (Snake.activePowerups s)).
    split; [lia|]. now destruct s.
  - exists (Snake.growPending s), (Snake.score s + 15),
      (Snake.activePowerups s).
    split; [lia|]. now destruct s.
Qed.

Lemma checkPowerupPickup_loop_keyrel ss :
  forall ps ss' ps' evs,
    _checkPowerupPickup_loop ss ps = (ss', ps', evs) -> keyrel settled ss ss'.
Proof.
  induction ss as [|[id s] ss IH]; intros ps ss' ps' evs;
    cbn [_checkPowerupPickup_loop].
  - intros [= <- _ _]. constructor.
  - destruct (Snake.alive s) eqn:Ha; cbn [negb].
    + destruct (pickLast (Snake.head s) ps) as [[pu ps1]|].
      * pose proof (pickup_settled s pu Ha) as Hp.
        destruct (pickup s pu) as [s1 ev1]. cbn [fst] in Hp.
        destruct (_checkPowerupPickup_loop ss ps1) as [[r p'] ev] eqn:Hl.
        intros [= <- _ _]. constructor; [|eapply IH; eauto].
        split; [reflexivity|exact Hp].
      * destruct (_checkPowerupPickup_loop ss ps) as [[r p'] ev] eqn:Hl.
        intros [= <- _ _]. constructor; [|eapply IH; eauto].
        split; [reflexivity|apply settled_refl].
    + destruct (_checkPowerupPickup_loop ss ps) as [[r p'] ev] eqn:Hl.
      intros [= <- _ _]. constructor; [|eapply IH; eauto].
      split; [reflexivity|]. left. auto.
Qed.

Lemma checkPowerupPickup_keyrel e :
  keyrel settled (snakes e) (snakes (_checkPowerupPickup e)).
Proof.
  unfold _checkPowerupPickup.
  destruct (_checkPowerupPickup_loop (snakes e) (powerups e))
    as [[ss ps] evs] eqn:H.
  cbn [snakes set_events set_powerups set_snakes].
  eapply checkPowerupPickup_loop_keyrel; eauto.
Qed.

Lemma tickSnakes_keyrel ss : keyrel settled ss (fst (tickSnakes ss)).
Proof.
  induction ss as [|[id s] ss IH]; cbn [tickSnakes].
  - constructor.
  - destruct (tickSnakes ss) as [r ev]. cbn [fst] in IH.
    destruct (Snake.alive s) eqn:Ha; cbn [negb].
    + destruct (tickEffects (Snake.id s) (Snake.activePowerups s)) as [m ev1].
      cbn [fst]. constructor; [|exact IH]. split; [reflexivity|].
      cbn [snd]. right. split; [exact Ha|].
      exists (Snake.growPending s), (Snake.score s), m.
      split; [lia|now destruct s].
    + cbn [fst]. constructor; [|exact IH]. split; [reflexivity|]. left. auto.
Qed.

Lemma tickActivePowerups_keyrel e :
  keyrel settled (snakes e) (snakes (_tickActivePowerups e)).
Proof.
  unfold _tickActivePowerups.
  pose proof (tickSnakes_keyrel (snakes e)) as H.
  destruct (tickSnakes (snakes e)) as [ss ev1].
  destruct (despawn (tick e) (powerups e)) as [ps ev2].
  exact H.
Qed.

Lemma snakes_maintainFood_loop M n e :
  snakes (_maintainFood_loop M n e) = snakes e.
Proof.
  revert e. induction n as [|n IH]; intros e; cbn [_maintainFood_loop].
  - reflexivity.
  - unfold _randomWorldPosition, _randFloat. cbv zeta. now rewrite IH.
Qed.

Lemma snakes_maybeSpawnPowerup M e : snakes (_maybeSpawnPowerup M e) = snakes e.
Proof.
  unfold _maybeSpawnPowerup.
  destruct (_ <? 1); [reflexivity|].
  destruct (_ >=? POWERUP_MAX); [reflexivity|].
  unfold _randomWorldPosition, _randInt, _randFloat. cbv zeta.
  destruct (JS.gt _ _); reflexivity.
Qed.

(** From the death pass to the end of the tick. *)
Lemma afterDetect_keyrel M e :
  keyrel settled (snakes e)
    (snakes (_maybeSpawnPowerup M
               (_maintainFood M
                  (_tickActivePowerups (_checkPowerupPickup (_checkFood e)))))).
Proof.
  rewrite snakes_maybeSpawnPowerup. unfold _maintainFood.
  rewrite snakes_maintainFood_loop.
  eapply keyrel_trans; [apply settled_trans|apply checkFood_keyrel|].
  eapply keyrel_trans; [apply settled_trans|apply checkPowerupPickup_keyrel|].
  apply tickActivePowerups_keyrel.
Qed.

(* ================================================================== *)
(** ** Growth, trimming and the cap *)

Lemma len_truncate {A : Type} (l : list A) n :
  0 <= n <= len l -> len (truncate l n) = n.
Proof.
  unfold len, truncate. intros H. rewrite length_firstn. lia.
Qed.

Lemma growTrim_bounds s newHead segs length1 grow1 :
  0 <= Snake.growPending s ->
  INITIAL_SNAKE_LENGTH <= Snake.length s ->
  growTrim s newHead = (segs, length1, grow1) ->
  0 <= grow1 /\ INITIAL_SNAKE_LENGTH <= length1
  /\ 1 <= len segs /\ len segs <= length1 + grow1
  /\ len segs <= MAX_SNAKE_SEGMENTS.
Proof.
  unfold growTrim, INITIAL_SNAKE_LENGTH, MAX_SNAKE_SEGMENTS.
  intros Hg Hl.
  set (segs1 := newHead :: Snake.segments s).
  set (targetLen := Snake.length s + Snake.growPending s).
  assert (H1 : len segs1 = len (Snake.segments s) + 1)
    by (unfold len, segs1; cbn [List.length]; lia).
  assert (H0 : 0 <= len (Snake.segments s)) by (unfold len; lia).
  set (segs2 := if len segs1 >? targetLen then truncate segs1 targetLen
                else segs1).
  assert (H2 : 1 <= len segs2 <= targetLen).
  { unfold segs2. destruct (len segs1 >? targetLen) eqn:E.
    - rewrite len_truncate; lia.
    - lia. }
  destruct ((Snake.growPending s >? 0) && (len segs2 >=? targetLen)) eqn:E1;
    destruct (len segs2 >? 200) eqn:E2; intros [= <- <- <-];
    rewrite ?len_truncate by lia; try apply andb_prop in E1; lia.
Qed.

Lemma boostCost_bounds tick boost segs length1 length2 dropped :
  boostCost tick boost segs length1 = (length2, dropped) ->
  INITIAL_SNAKE_LENGTH <= length1 ->
  INITIAL_SNAKE_LENGTH <= length2 /\ length1 <= length2 + 1.
Proof.
  unfold boostCost, INITIAL_SNAKE_LENGTH.
  destruct (boost && (Z.rem tick BOOST_COST_INTERVAL =? 0)).
  - destruct (length1 >? 10 + 3) eqn:E; intros [= <- _]; lia.
  - intros [= <- _]. lia.
Qed.

Lemma ghostWrap_len e g segs : len (ghostWrap e g segs) = len segs.
Proof.
  unfold ghostWrap. destruct segs as [|gh rest]; [reflexivity|].
  destruct g; [|reflexivity]. destruct (JS.gt _ _); reflexivity.
Qed.

Lemma moveSnake_fields M fuel e s s' dropped :
  moveSnake M fuel e s = Some (s', dropped) ->
  Snake.alive s' = Snake.alive s
  /\ Snake.activePowerups s' = Snake.activePowerups s
  /\ Snake.deathCause s' = Snake.deathCause s.
Proof.
  unfold moveSnake.
  destruct (normalizeDiff fuel _) as [d|]; [|discriminate].
  destruct (growTrim _ _) as [[segs l1] g1].
  destruct (boostCost _ _ _ _) as [l2 dr].
  intros [= <- _]. repeat split.
Qed.

Lemma moveSnake_ok M fuel e s s' dropped :
  0 <= Snake.growPending s ->
  INITIAL_SNAKE_LENGTH <= Snake.length s ->
  moveSnake M fuel e s = Some (s', dropped) ->
  snake_ok s'.
Proof.
  intros Hg Hl. unfold moveSnake.
  destruct (normalizeDiff fuel _) as [d|]; [|discriminate].
  destruct (growTrim _ _) as [[segs l1] g1] eqn:Hgt.
  destruct (boostCost _ _ _ _) as [l2 dr] eqn:Hbc.
  intros [= <- _].
  apply growTrim_bounds in Hgt as (G1 & G2 & G3 & G4 & G5); try assumption.
  apply boostCost_bounds in Hbc as (B1 & B2); try assumption.
  unfold snake_ok.
  cbn [Snake.growPending Snake.length Snake.segments Snake.set_segments
       Snake.set_growPending Snake.set_length Snake.set_angle].
  rewrite ghostWrap_len. lia.
Qed.

Lemma moved_ok M fuel e s s' : snake_ok s -> moved M fuel e s s' -> snake_ok s'.
Proof.
  intros Hok [[_ ->]|[_ (dr & Hm)]]; [exact Hok|].
  destruct Hok as (H1 & H2 & _). eapply moveSnake_ok; eauto.
Qed.

Lemma moved_fields M fuel e s s' :
  moved M fuel e s s' ->
  Snake.alive s' = Snake.alive s
  /\ Snake.activePowerups s' = Snake.activePowerups s
  /\ (Snake.alive s = false -> s' = s).
Proof.
  intros [[Hd ->]|[Ha (dr & Hm)]]; [auto|].
  apply moveSnake_fields in Hm as (H1 & H2 & _).
  repeat split; auto. congruence.
Qed.

Lemma credit_only_ok s s' : credit_only s s' -> snake_ok s -> snake_ok s'.
Proof. intros (k & sc & ->). destruct s. exact (fun H => H). Qed.

Lemma evolves_ok t s s' : evolves t s s' -> snake_ok s -> snake_ok s'.
Proof.
  intros [->|[[_ Hc]|[_ (s1 & c & k & Hc & ->)]]] Hok; auto.
  - eapply credit_only_ok; eauto.
  - apply (credit_only_ok _ _ Hc) in Hok. destruct s1. exact Hok.
Qed.

Lemma evolves_fields t s s' :
  evolves t s s' ->
  Snake.segments s' = Snake.segments s
  /\ Snake.activePowerups s' = Snake.activePowerups s.
Proof.
  intros [->|[[_ (k & sc & ->)]|[_ (s1 & c & k & (k1 & sc & ->) & ->)]]];
    split; reflexivity.
Qed.

Lemma settled_ok s s' : settled s s' -> snake_ok s -> snake_ok s'.
Proof.
  intros [[_ ->]|[_ (g & sc & fx & Hg & ->)]] Hok; [exact Hok|].
  destruct s. unfold snake_ok in *. cbn in *. lia.
Qed.

Lemma settled_fields s s' :
  settled s s' ->
  Snake.alive s' = Snake.alive s
  /\ Snake.segments s' = Snake.segments s
  /\ (Snake.alive s = false -> s' = s).
Proof.
  intros [[Hd ->]|[Ha (g & sc & fx & _ & ->)]]; repeat split; auto.
  congruence.
Qed.

Lemma head_segments s s' :
  Snake.segments s' = Snake.segments s -> Snake.head s' = Snake.head s.
Proof. unfold Snake.head. now intros ->. Qed.

Lemma has_activePowerups s s' ty :
  Snake.activePowerups s' = Snake.activePowerups s ->
  Snake.has s' ty = Snake.has s ty.
Proof. unfold Snake.has. now intros ->. Qed.

(* ================================================================== *)
(** ** One snake through a tick *)

(** The stages a snake goes through in one [update()]: moved from its
    state in [e], through the death pass of the moved engine [e1], to its
    state in [e']. *)
Lemma update_chain_fwd M fuel e e' r id s0 :
  update M fuel e = Some (e', r) ->
  map_get id (snakes e) = Some s0 ->
  exists e1 sa sb s',
    frame (set_tick e (tick e + 1)) e1 /\ frame e1 e'
    /\ moved M fuel (set_events (set_tick e (tick e + 1)) []) s0 sa
    /\ map_get id (snakes e1) = Some sa
    /\ evolves (tick e1) sa sb
    /\ map_get id (snakes (_detectCollisions e1)) = Some sb
    /\ settled sb s'
    /\ map_get id (snakes e') = Some s'.
Proof.
  intros Hu Hg.
  apply update_phases in Hu as (e1 & Hm & -> & _).
  destruct (keyrel_get_fwd _ _ _ _ _ (moveSnakes_keyrel _ _ _ _ Hm) Hg)
    as (sa & Hga & Hma).
  destruct (keyrel_get_fwd _ _ _ _ _ (detectCollisions_keyrel e1) Hga)
    as (sb & Hgb & Hev).
  destruct (keyrel_get_fwd _ _ _ _ _
              (afterDetect_keyrel M (_detectCollisions e1)) Hgb)
    as (s' & Hg' & Hst).
  assert (F0 : frame (set_tick e (tick e + 1)) e1)
    by (apply frame_moveSnakes in Hm; exact Hm).
  pose proof (frame_afterMove M e1) as F1.
  exists e1, sa, sb, s'.
  split; [exact F0|]. split; [exact F1|]. split; [exact Hma|].
  split; [exact Hga|]. split; [exact Hev|]. split; [exact Hgb|].
  split; [exact Hst|exact Hg'].
Qed.

Lemma update_chain_bwd M fuel e e' r id s' :
  update M fuel e = Some (e', r) ->
  map_get id (snakes e') = Some s' ->
  exists s0, map_get id (snakes e) = Some s0.
Proof.
  intros Hu Hg.
  apply update_phases in Hu as (e1 & Hm & -> & _).
  destruct (keyrel_get _ _ _ _ _
              (afterDetect_keyrel M (_detectCollisions e1)) Hg)
    as (sb & Hgb & _).
  destruct (keyrel_get _ _ _ _ _ (detectCollisions_keyrel e1) Hgb)
    as (sa & Hga & _).
  destruct (keyrel_get _ _ _ _ _ (moveSnakes_keyrel _ _ _ _ Hm) Hga)
    as (s0 & Hg0 & _).
  eauto.
Qed.

Lemma update_inv M fuel e e' r :
  engine_inv e -> update M fuel e = Some (e', r) -> engine_inv e'.
Proof.
  intros Hinv Hu id s' Hs'.
  destruct (update_chain_bwd _ _ _ _ _ _ _ Hu Hs') as (s0 & Hg0).
  destruct (update_chain_fwd _ _ _ _ _ _ _ Hu Hg0)
    as (e1 & sa & sb & s'' & F0 & F1 & Hmv & Hga & Hev & Hgb & Hst & Hg').
  rewrite Hs' in Hg'. injection Hg' as <-.
  destruct (Hinv id s0 Hg0) as [Hok Hwr].
  split.
  - eapply settled_ok; [exact Hst|].
    eapply evolves_ok; [exact Hev|].
    eapply moved_ok; eauto.
  - intros Hdead Hgh Hout.
    destruct (settled_fields _ _ Hst) as (Hal & _ & Hsame).
    rewrite Hdead in Hal. symmetry in Hal. specialize (Hsame Hal). subst s'.
    destruct (evolves_fields _ _ _ Hev) as (Hseg & Hfx).
    destruct (moved_fields _ _ _ _ _ Hmv) as (Hal0 & Hfx0 & Hsame0).
    destruct Hev as [->|[[Ha Hc]|[Ha (s1 & c & k & Hc & ->)]]].
    + rewrite Hdead in Hal0. symmetry in Hal0. specialize (Hsame0 Hal0).
      subst sa. apply Hwr; auto.
      rewrite <- Hout. symmetry.
      rewrite (frame_outside _ _ _ F1), (frame_outside _ _ _ F0).
      reflexivity.
    + rewrite (credit_only_alive _ _ Hc) in Hdead. congruence.
    + destruct (detectCollisions_wall e1 id sa Hga Ha) as (s2 & _ & Hw).
      * rewrite <- Hout, (frame_outside _ _ _ F1).
        f_equal. symmetry. now apply head_segments.
      * rewrite <- Hgh. symmetry. now apply has_activePowerups.
      * assert (Hsb : Snake.die s1 (tick e1) c k
                      = Snake.die s2 (tick e1) wall None) by congruence.
        apply (f_equal Snake.deathCause) in Hsb. exact Hsb.
Qed.

(* ================================================================== *)
(** ** The invariant holds in every reachable state *)

Lemma map_get_delete {V : Type} id k (m : list (string * V)) :
  map_get id (map_delete k m)
  = if String.eqb k id then None else map_get id m.
Proof.
  induction m as [|[k' v] m IH]; cbn [map_delete filter map_get fst].
  - now destruct (String.eqb k id).
  - destruct (String.eqb k k') eqn:E; cbn [negb map_get].
    + apply String.eqb_eq in E. subst k'. unfold map_delete in IH.
      rewrite IH. rewrite (String.eqb_sym id k).
      now destruct (String.eqb k id).
    + unfold map_delete in IH. rewrite IH.
      destruct (String.eqb id k') eqn:E'; [|reflexivity].
      apply String.eqb_eq in E'. subst k'. now rewrite E.
Qed.

Lemma findSpawnPosition_loop_spec M n e :
  snakes (snd (_findSpawnPosition_loop M n e)) = snakes e
  /\ frame e (snd (_findSpawnPosition_loop M n e)).
Proof.
  revert e. induction n as [|n IH]; intros e;
    cbn [_findSpawnPosition_loop]; unfold _randFloat; cbv zeta.
  - split; [reflexivity|repeat split].
  - destruct (tooClose _ _).
    + destruct (IH (set_rng (set_rng e (Z.rem (_rng e * 16807) 2147483647))
                      (Z.rem (_rng (set_rng e
                                (Z.rem (_rng e * 16807) 2147483647)) * 16807)
                             2147483647))) as [Hs Hf].
      split; [exact Hs|]. eapply frame_trans; [|exact Hf]. repeat split.
    + split; [reflexivity|repeat split].
Qed.

Lemma spawnSnake_spec M e id username pattern color :
  exists s,
    snakes (snd (spawnSnake M e id username pattern color))
    = map_set id s (snakes e)
    /\ snake_ok s /\ Snake.alive s = true
    /\ frame e (snd (spawnSnake M e id username pattern color)).
Proof.
  unfold spawnSnake, _findSpawnPosition.
  destruct (findSpawnPosition_loop_spec M 200 e) as [Hs Hf].
  destruct (_findSpawnPosition_loop M 200 e) as [pos e1].
  cbn [snd] in *. eexists. split; [|split; [|split]].
  - cbn [snd snakes set_snakes]. rewrite Hs. reflexivity.
  - unfold snake_ok, len.
    cbn [Snake.growPending Snake.length Snake.segments].
    rewrite length_map, length_seq.
    unfold INITIAL_SNAKE_LENGTH, MAX_SNAKE_SEGMENTS. cbn. lia.
  - reflexivity.
  - eapply frame_trans; [exact Hf|]. repeat split.
Qed.

Lemma frame_queueInput e id a b : frame e (queueInput e id a b).
Proof.
  unfold queueInput. destruct (map_get id (snakes e)) as [s|];
    [|apply frame_refl].
  destruct (negb (Snake.alive s)); [apply frame_refl|repeat split].
Qed.

Lemma queueInput_get e id a b id' s' :
  map_get id' (snakes (queueInput e id a b)) = Some s' ->
  exists s,
    map_get id' (snakes e) = Some s
    /\ (s' = s \/ (Snake.alive s' = true /\ (snake_ok s -> snake_ok s'))).
Proof.
  unfold queueInput.
  destruct (map_get id (snakes e)) as [s|] eqn:Hg; [|eauto].
  destruct (Snake.alive s) eqn:Ha; cbn [negb]; [|eauto].
  cbn [snakes set_snakes]. intros H.
  destruct (String.eqb id id') eqn:E.
  - apply String.eqb_eq in E. subst id'.
    rewrite map_get_set_same in H. injection H as <-.
    exists s. split; [exact Hg|]. right.
    destruct a as [f|]; [destruct (JS.isFinite f)|]; destruct s;
      (split; [exact Ha|exact (fun H => H)]).
  - apply String.eqb_neq in E.
    rewrite map_get_set_other in H by exact E. eauto.
Qed.

Lemma reachable_inv M e : reachable M e -> engine_inv e.
Proof.
  induction 1 as [ws now|e id u p c _ IH|e id _ IH|e id a b _ IH
                  |e fuel e' r _ IH Hu|e now _ IH].
  - intros id s H. discriminate.
  - destruct (spawnSnake_spec M e id u p c) as (s & Hs & Hok & Ha & Hf).
    intros id' s' H. rewrite Hs in H.
    destruct (String.eqb id id') eqn:E.
    + apply String.eqb_eq in E. subst id'.
      rewrite map_get_set_same in H. injection H as <-.
      split; [exact Hok|]. intros Hd. congruence.
    + apply String.eqb_neq in E.
      rewrite map_get_set_other in H by exact E.
      destruct (IH id' s' H) as [Hok' Hwr]. split; [exact Hok'|].
      intros Hd Hg Ho. apply Hwr; auto.
      now rewrite <- (frame_outside _ _ _ Hf).
  - intros id' s' H. unfold removeSnake in H. cbn [snakes set_snakes] in H.
    rewrite map_get_delete in H.
    destruct (String.eqb id id'); [discriminate|]. exact (IH id' s' H).
  - intros id' s' H.
    destruct (queueInput_get e id a b id' s' H) as (s & Hg & Hcase).
    destruct (IH id' s Hg) as [Hok Hwr].
    destruct Hcase as [->|[Ha Hok']].
    + split; [exact Hok|]. intros Hd Hgh Ho. apply Hwr; auto.
      now rewrite <- (frame_outside _ _ _ (frame_queueInput e id a b)).
    + split; [auto|]. intros Hd. congruence.
  - eapply update_inv; eauto.
  - intros id s H. discriminate.
Qed.

(* ================================================================== *)
(** ** Segment counts *)

(** C2 as stated fails: on a tick on which the boost cost falls due,
    [length] is lowered after the tail has been trimmed, and the body is
    left one segment longer than [length + growPending]. *)
Lemma boost_cost_leaves_extra_segment :
  sizes boostWorld "ann" = Some (20, 20, 0)
  /\ update RefMath.lib 1 boostWorld
     = Some (next boostWorld, returned boostWorld)
  /\ sizes (next boostWorld) "ann" = Some (20, 19, 0).
Proof. split; [|split]; vm_compute; reflexivity. Qed.

(** C2, amended.  In every reachable engine state, after every [update()]
    call, each snake's [segments.length] is at most
    [length + growPending + 1] and at most [MAX_SNAKE_SEGMENTS]. *)
Theorem segments_bounded_after_update
        (M : MathLib) (fuel : nat) (e e' : GameEngine.t) (r : UpdateResult) :
  reachable M e ->
  update M fuel e = Some (e', r) ->
  forall id s,
    map_get id (snakes e') = Some s ->
    len (Snake.segments s) <= Snake.length s + Snake.growPending s + 1
    /\ len (Snake.segments s) <= MAX_SNAKE_SEGMENTS.
Proof.
  intros Hr Hu id s Hs.
  assert (Hinv : engine_inv e')
    by (eapply reachable_inv, reach_update; eauto).
  destruct (Hinv id s Hs) as [(_ & _ & _ & H1 & H2) _]. auto.
Qed.

Lemma segments_bounded_after_update_witness :
  sizes (next spawned) "ann" = Some (10, 10, 0)
  /\ 10 <= 10 + 0 + 1 /\ 10 <= MAX_SNAKE_SEGMENTS.
Proof.
  assert (Hu : update RefMath.lib 1 spawned
               = Some (next spawned, returned spawned))
    by (vm_compute; reflexivity).
  assert (Hs : exists s,
             map_get "ann" (snakes (next spawned)) = Some s
             /\ (len (Snake.segments s), Snake.length s,
                 Snake.growPending s) = (10, 10, 0)).
  { vm_compute. eexists. split; reflexivity. }
  destruct Hs as (s & Hg & Hsz).
  pose proof (segments_bounded_after_update RefMath.lib 1 spawned
                (next spawned) (returned spawned)
                (reach_spawn _ _ _ _ _ _ (reach_new _ _ _)) Hu "ann" s Hg)
    as H.
  injection Hsz as H1 H2 H3. rewrite H1, H2, H3 in H.
  split; [|exact H].
  unfold sizes. rewrite Hg. cbn [option_map]. now rewrite H1, H2, H3.
Defined.

(* ================================================================== *)
(** ** The boundary *)

(** C4.  In a run of the engine, a snake that has no ghost effect and
    whose head is outside the boundary at the end of one [update()] and
    still outside at the end of the next is, after that second call, dead
    with cause "wall". *)
Theorem boundary_two_ticks
        (M : MathLib) (fuel1 fuel2 : nat) (e0 e1 e2 : GameEngine.t)
        (r1 r2 : UpdateResult) (id : PlayerId) (s1 s2 : Snake.t) :
  reachable M e0 ->
  update M fuel1 e0 = Some (e1, r1) ->
  update M fuel2 e1 = Some (e2, r2) ->
  map_get id (snakes e1) = Some s1 ->
  map_get id (snakes e2) = Some s2 ->
  Snake.has s1 ghost = false ->
  outside e1 (Snake.head s1) = true ->
  outside e2 (Snake.head s2) = true ->
  Snake.alive s2 = false /\ Snake.deathCause s2 = Some wall.
Proof.
  intros Hr Hu1 Hu2 Hg1 Hg2 Hgh Ho1 Ho2.
  assert (Hinv1 : engine_inv e1)
    by (eapply reachable_inv, reach_update; eauto).
  destruct (update_chain_fwd _ _ _ _ _ _ _ Hu2 Hg1)
    as (em & sa & sb & s' & F0 & F1 & Hmv & Hga & Hev & Hgb & Hst & Hg').
  rewrite Hg2 in Hg'. injection Hg' as <-.
  destruct (moved_fields _ _ _ _ _ Hmv) as (Hal & Hfx & Hsame).
  destruct (evolves_fields _ _ _ Hev) as (Hseg & _).
  destruct (settled_fields _ _ Hst) as (Hal2 & Hseg2 & Hsame2).
  destruct (Snake.alive s1) eqn:Ha1.
  - destruct (detectCollisions_wall em id sa Hga Hal) as (sx & _ & Hw).
    + rewrite <- Ho2, (frame_outside _ _ _ F1). f_equal. symmetry.
      apply head_segments. congruence.
    + rewrite <- Hgh. now apply has_activePowerups.
    + rewrite Hgb in Hw. injection Hw as ->.
      rewrite (Hsame2 eq_refl). split; reflexivity.
  - specialize (Hsame eq_refl). subst sa.
    apply evolves_dead in Hev; [|exact Ha1]. subst sb.
    specialize (Hsame2 Ha1). subst s2.
    split; [exact Ha1|]. now apply (proj2 (Hinv1 id s1 Hg1)).
Qed.

Lemma boundary_two_ticks_witness :
  exists s2,
    map_get "ann" (snakes (next (next (next (next tiny))))) = Some s2
    /\ Snake.alive s2 = false /\ Snake.deathCause s2 = Some wall.
Proof.
  assert (U1 : update RefMath.lib 1 tiny = Some (next tiny, returned tiny))
    by (vm_compute; reflexivity).
  assert (U2 : update RefMath.lib 1 (next tiny)
               = Some (next (next tiny), returned (next tiny)))
    by (vm_compute; reflexivity).
  assert (U3 : update RefMath.lib 1 (next (next tiny))
               = Some (next (next (next tiny)), returned (next (next tiny))))
    by (vm_compute; reflexivity).
  assert (U4 : update RefMath.lib 1 (next (next (next tiny)))
               = Some (next (next (next (next tiny))),
                       returned (next (next (next tiny)))))
    by (vm_compute; reflexivity).
  assert (G1 : exists s1,
             map_get "ann" (snakes (next (next (next tiny)))) = Some s1
             /\ Snake.has s1 ghost = false
             /\ outside (next (next (next tiny))) (Snake.head s1) = true)
    by (vm_compute; eexists; repeat split).
  assert (G2 : exists s2,
             map_get "ann" (snakes (next (next (next (next tiny))))) = Some s2
             /\ outside (next (next (next (next tiny)))) (Snake.head s2)
                = true)
    by (vm_compute; eexists; repeat split).
  destruct G1 as (s1 & Hg1 & Hgh & Ho1). destruct G2 as (s2 & Hg2 & Ho2).
  exists s2. split; [exact Hg2|].
  apply (boundary_two_ticks RefMath.lib 1 1 (next (next tiny))
           (next (next (next tiny))) (next (next (next (next tiny))))
           (returned (next (next tiny)))
           (returned (next (next (next tiny)))) "ann" s1 s2); auto.
  eapply reach_update; [|exact U2].
  eapply reach_update; [|exact U1].
  apply reach_spawn, reach_new.
Defined.


(* ================================================================== *)
(** ** The seeded generator *)

Lemma rng_step_ok s : rngOk s -> rngOk (Z.rem (s * 16807) 2147483647).
Proof.
  unfold rngOk. intros Hs.
  rewrite Z.rem_mod_nonneg by lia.
  pose proof (Z.mod_pos_bound (s * 16807) 2147483647 ltac:(lia)) as Hb.
  assert (Hnz : (s * 16807) mod 2147483647 <> 0).
  { intros H0. apply Z.mod_divide in H0; [|lia].
    rewrite Z.mul_comm in H0.
    apply Z.gauss in H0; [|reflexivity].
    apply Z.divide_pos_le in H0; lia. }
  lia.
Qed.

Lemma createRng_ok seed : 0 <= seed -> rngOk (_createRng seed).
Proof.
  intros Hs. unfold _createRng, rngOk.
  assert (H : 0 <= Z.rem seed 2147483647 < 2147483647).
  { rewrite Z.rem_mod_nonneg by lia. apply Z.mod_pos_bound. lia. }
  destruct (Z.rem seed 2147483647 <=? 0) eqn:E; lia.
Qed.

Lemma randFloat_ok e : rngOk (_rng e) -> rngOk (_rng (snd (_randFloat e))).
Proof. intros H. unfold _randFloat. cbn [snd _rng set_rng]. now apply rng_step_ok. Qed.

Lemma randInt_ok e lo hi : rngOk (_rng e) -> rngOk (_rng (snd (_randInt e lo hi))).
Proof.
  intros H. unfold _randInt. pose proof (randFloat_ok e H) as H1.
  destruct (_randFloat e) as [r e1]. exact H1.
Qed.

Lemma randomWorldPosition_ok M e f :
  rngOk (_rng e) -> rngOk (_rng (snd (_randomWorldPosition M e f))).
Proof.
  intros H. unfold _randomWorldPosition.
  pose proof (randFloat_ok e H) as H1.
  destruct (_randFloat e) as [ra e1]. cbn [snd] in H1.
  pose proof (randFloat_ok e1 H1) as H2.
  destruct (_randFloat e1) as [rr e2]. exact H2.
Qed.

Lemma dropCorpseFood_ok segs e :
  rngOk (_rng e) -> rngOk (_rng (dropCorpseFood e segs)).
Proof.
  revert e. induction segs as [|seg segs IH]; intros e H; cbn [dropCorpseFood].
  - exact H.
  - destruct (PrimFloat.ltb _ _); [|now apply IH].
    pose proof (randFloat_ok e H) as H1.
    destruct (_randFloat e) as [rx e1]. cbn [snd] in H1.
    pose proof (randFloat_ok e1 H1) as H2.
    destruct (_randFloat e1) as [ry e2]. cbn [snd] in H2.
    apply IH. exact H2.
Qed.

Lemma applyDeath_ok e pid c k :
  rngOk (_rng e) -> rngOk (_rng (_applyDeath e pid c k)).
Proof.
  intros H. unfold _applyDeath.
  destruct (map_get pid (snakes e)) as [s|]; [|exact H].
  destruct (negb (Snake.alive s)); [exact H|].
  rewrite creditKiller_spec.
  set (e2 := dropCorpseFood _ _).
  assert (H2 : rngOk (_rng e2)) by (apply dropCorpseFood_ok; exact H).
  destruct (killerOf k (snakes e2)) as [[k' killer]|]; exact H2.
Qed.

Lemma applyDeaths_ok ds killed e :
  rngOk (_rng e) -> rngOk (_rng (applyDeaths ds killed e)).
Proof.
  revert killed e. induction ds as [|d ds IH]; intros killed e H;
    cbn [applyDeaths].
  - exact H.
  - destruct (existsb (String.eqb (d_id d)) killed); [now apply IH|].
    apply IH. now apply applyDeath_ok.
Qed.

Lemma rng_checkFood e : _rng (_checkFood e) = _rng e.
Proof.
  unfold _checkFood.
  now destruct (_checkFood_loop (snakes e) (food e)) as [[ss fs] evs].
Qed.

Lemma rng_checkPowerupPickup e : _rng (_checkPowerupPickup e) = _rng e.
Proof.
  unfold _checkPowerupPickup.
  now destruct (_checkPowerupPickup_loop (snakes e) (powerups e))
    as [[ss ps] evs].
Qed.

Lemma rng_tickActivePowerups e : _rng (_tickActivePowerups e) = _rng e.
Proof.
  unfold _tickActivePowerups.
  destruct (tickSnakes (snakes e)) as [ss evs1].
  now destruct (despawn (tick e) (powerups e)) as [ps evs2].
Qed.

Lemma maintainFood_loop_ok M n e :
  rngOk (_rng e) -> rngOk (_rng (_maintainFood_loop M n e)).
Proof.
  revert e. induction n as [|n IH]; intros e H; cbn [_maintainFood_loop].
  - exact H.
  - pose proof (randomWorldPosition_ok M e 0.9%float H) as H1.
    destruct (_randomWorldPosition M e 0.9%float) as [pos e1]. cbn [snd] in H1.
    pose proof (randFloat_ok e1 H1) as H2.
    destruct (_randFloat e1) as [r e2]. cbn [snd] in H2.
    apply IH. exact H2.
Qed.

Lemma maybeSpawnPowerup_ok M e :
  rngOk (_rng e) -> rngOk (_rng (_maybeSpawnPowerup M e)).
Proof.
  intros H. unfold _maybeSpawnPowerup.
  destruct (_ <? 1); [exact H|].
  destruct (_ >=? POWERUP_MAX); [exact H|].
  pose proof (randFloat_ok e H) as H1.
  destruct (_randFloat e) as [r e1]. cbn [snd] in H1.
  destruct (JS.gt r POWERUP_SPAWN_CHANCE); [exact H1|].
  pose proof (randomWorldPosition_ok M e1 0.75%float H1) as H2.
  destruct (_randomWorldPosition M e1 0.75%float) as [pos e2].
  cbn [snd] in H2.
  pose proof (randInt_ok e2 0 (len POWERUP_TYPE_KEYS - 1) H2) as H3.
  destruct (_randInt e2 0 (len POWERUP_TYPE_KEYS - 1)) as [ti e3].
  cbn [snd] in H3.
  pose proof (randInt_ok e3 0 9999 H3) as H4.
  destruct (_randInt e3 0 9999) as [n e4]. exact H4.
Qed.

Lemma rng_moveSnakes M fuel e e' :
  _moveSnakes M fuel e = Some e' -> _rng e' = _rng e.
Proof.
  unfold _moveSnakes.
  destruct (_moveSnakes_loop M fuel e (snakes e)) as [[ss dr]|];
    [|discriminate].
  now intros [= <-].
Qed.

Lemma findSpawnPosition_loop_ok M n e :
  rngOk (_rng e) -> rngOk (_rng (snd (_findSpawnPosition_loop M n e))).
Proof.
  revert e. induction n as [|n IH]; intros e H;
    cbn [_findSpawnPosition_loop].
  - pose proof (randFloat_ok e H) as H1.
    destruct (_randFloat e) as [ra e1]. cbn [snd] in H1.
    pose proof (randFloat_ok e1 H1) as H2.
    destruct (_randFloat e1) as [rr e2]. exact H2.
  - pose proof (randFloat_ok e H) as H1.
    destruct (_randFloat e) as [ra e1]. cbn [snd] in H1.
    pose proof (randFloat_ok e1 H1) as H2.
    destruct (_randFloat e1) as [rr e2]. cbn [snd] in H2.
    destruct (tooClose _ _); [now apply IH|exact H2].
Qed.

(** X1.  The generator's state stays between 1 and 2^31 - 2, so it never
    sticks at 0: this holds after construction and [reset] with a
    non-negative clock value, and every draw, [spawnSnake] and [update]
    keeps it. *)
Theorem rng_state_in_range :
  (forall worldSize now,
      0 <= now -> rngOk (_rng (constructor worldSize now)))
  /\ (forall e now, 0 <= now -> rngOk (_rng (reset e now)))
  /\ (forall e, rngOk (_rng e) -> rngOk (_rng (snd (_randFloat e))))
  /\ (forall M e id u p c,
        rngOk (_rng e) -> rngOk (_rng (snd (spawnSnake M e id u p c))))
  /\ (forall M fuel e e' r,
        rngOk (_rng e) -> update M fuel e = Some (e', r) ->
        rngOk (_rng e')).
Proof.
  split; [intros ws now H; now apply createRng_ok|].
  split; [intros e now H; now apply createRng_ok|].
  split; [apply randFloat_ok|]. split.
  - intros M e id u p c H. unfold spawnSnake, _findSpawnPosition.
    pose proof (findSpawnPosition_loop_ok M 200 e H) as H1.
    destruct (_findSpawnPosition_loop M 200 e) as [pos e1]. exact H1.
  - intros M fuel e e' r H Hu.
    apply update_phases in Hu as (e1 & Hm & -> & _).
    apply rng_moveSnakes in Hm. cbn [_rng set_events set_tick] in Hm.
    unfold afterMove. apply maybeSpawnPowerup_ok.
    unfold _maintainFood. apply maintainFood_loop_ok.
    rewrite rng_tickActivePowerups, rng_checkPowerupPickup, rng_checkFood.
    apply applyDeaths_ok. now rewrite Hm.
Qed.

Lemma rng_state_in_range_witness :
  rngOk (_rng (next (next tiny))).
Proof.
  destruct rng_state_in_range as (Hc & _ & _ & Hs & Hu).
  assert (U1 : update RefMath.lib 1 tiny = Some (next tiny, returned tiny))
    by (vm_compute; reflexivity).
  assert (U2 : update RefMath.lib 1 (next tiny)
               = Some (next (next tiny), returned (next tiny)))
    by (vm_compute; reflexivity).
  assert (H0 : 0 <= 1700000000000) by lia.
  pose proof (Hc 110%float 1700000000000 H0) as R0.
  pose proof (Hs RefMath.lib _ "ann" "Ann" EmptyString EmptyString R0) as R1.
  exact (Hu _ _ _ _ _ (Hu _ _ _ _ _ R1 U1) U2).
Defined.


(* ================================================================== *)
(** ** What a tick does to the set of snakes *)

Lemma update_keys M fuel e e' r :
  update M fuel e = Some (e', r) -> map_keys (snakes e') = map_keys (snakes e).
Proof.
  intros Hu. apply update_phases in Hu as (e1 & Hm & -> & _).
  unfold afterMove.
  rewrite (keyrel_keys _ _ _ (afterDetect_keyrel M (_detectCollisions e1))).
  rewrite (keyrel_keys _ _ _ (detectCollisions_keyrel e1)).
  now rewrite (keyrel_keys _ _ _ (moveSnakes_keyrel _ _ _ _ Hm)).
Qed.

(** X2.  [update()] neither adds nor removes a snake, and a dead snake
    comes out of it exactly as it went in: body, score, death record and
    all. *)
Theorem update_freezes_the_dead
        (M : MathLib) (fuel : nat) (e e' : GameEngine.t) (r : UpdateResult) :
  update M fuel e = Some (e', r) ->
  map_keys (snakes e') = map_keys (snakes e)
  /\ forall id s,
       map_get id (snakes e) = Some s ->
       Snake.alive s = false ->
       map_get id (snakes e') = Some s.
Proof.
  intros Hu. split; [eapply update_keys; eauto|].
  intros id s Hg Hd.
  destruct (update_chain_fwd _ _ _ _ _ _ _ Hu Hg)
    as (e1 & sa & sb & s' & _ & _ & Hmv & _ & Hev & _ & Hst & Hg').
  destruct (moved_fields _ _ _ _ _ Hmv) as (_ & _ & Hsame).
  specialize (Hsame Hd). subst sa.
  apply evolves_dead in Hev; [|exact Hd]. subst sb.
  destruct (settled_fields _ _ Hst) as (_ & _ & Hsame2).
  now rewrite (Hsame2 Hd) in Hg'.
Qed.

Lemma update_freezes_the_dead_witness :
  map_get "ann" (snakes (next (next (next (next tiny)))))
  = map_get "ann" (snakes (next (next (next tiny)))).
Proof.
  assert (U4 : update RefMath.lib 1 (next (next (next tiny)))
               = Some (next (next (next (next tiny))),
                       returned (next (next (next tiny)))))
    by (vm_compute; reflexivity).
  destruct (update_freezes_the_dead _ _ _ _ _ U4) as [_ H].
  destruct (map_get "ann" (snakes (next (next (next tiny))))) as [s|] eqn:Hg.
  - apply (H "ann" s Hg). vm_compute in Hg. injection Hg as <-. reflexivity.
  - vm_compute in Hg. discriminate.
Defined.

(** X3.  A snake that was alive before an [update()] and is dead after it
    carries the tick of that call as its [deathTick] and has a cause of
    death; one that is alive after the call was alive before it. *)
Theorem update_records_death
        (M : MathLib) (fuel : nat) (e e' : GameEngine.t) (r : UpdateResult)
        (id : PlayerId) (s s' : Snake.t) :
  update M fuel e = Some (e', r) ->
  map_get id (snakes e) = Some s ->
  map_get id (snakes e') = Some s' ->
  (Snake.alive s' = true -> Snake.alive s = true)
  /\ (Snake.alive s = true -> Snake.alive s' = false ->
      Snake.deathTick s' = Some (tick e + 1)
      /\ exists cause, Snake.deathCause s' = Some cause).
Proof.
  intros Hu Hg Hg'.
  destruct (update_chain_fwd _ _ _ _ _ _ _ Hu Hg)
    as (e1 & sa & sb & s'' & F0 & _ & Hmv & _ & Hev & _ & Hst & Hg'').
  rewrite Hg' in Hg''. injection Hg'' as <-.
  destruct (moved_fields _ _ _ _ _ Hmv) as (Hal & _ & _).
  destruct (settled_fields _ _ Hst) as (Hal2 & _ & Hsame2).
  destruct F0 as (_ & _ & _ & _ & Ht). cbn [tick set_tick] in Ht.
  split.
  - intros Ha'. rewrite Hal2 in Ha'.
    destruct Hev as [->|[[Ha _]|[Ha (s1 & c & k & _ & ->)]]];
      [congruence|congruence|discriminate].
  - intros Ha Hd'. rewrite Hal2 in Hd'. rewrite (Hsame2 Hd').
    destruct Hev as [->|[[_ Hc]|[_ (s1 & c & k & _ & ->)]]].
    + congruence.
    + rewrite (credit_only_alive _ _ Hc) in Hd'. congruence.
    + cbn [Snake.deathTick Snake.deathCause Snake.die]. rewrite Ht.
      split; [reflexivity|eauto].
Qed.

Lemma update_records_death_witness :
  exists s',
    map_get "ann" (snakes (next (next (next tiny)))) = Some s'
    /\ Snake.deathTick s' = Some 3.
Proof.
  assert (U3 : update RefMath.lib 1 (next (next tiny))
               = Some (next (next (next tiny)), returned (next (next tiny))))
    by (vm_compute; reflexivity).
  assert (G : exists s,
             map_get "ann" (snakes (next (next tiny))) = Some s
             /\ Snake.alive s = true)
    by (vm_compute; eexists; split; reflexivity).
  assert (G' : exists s',
             map_get "ann" (snakes (next (next (next tiny)))) = Some s'
             /\ Snake.alive s' = false)
    by (vm_compute; eexists; split; reflexivity).
  destruct G as (s & Hg & Ha). destruct G' as (s' & Hg' & Hd).
  exists s'. split; [exact Hg'|].
  destruct (update_records_death _ _ _ _ _ "ann" s s' U3 Hg Hg') as [_ H].
  destruct (H Ha Hd) as [Ht _]. rewrite Ht. reflexivity.
Defined.


(* ================================================================== *)
(** ** Eating *)

Lemma Zsum_app l1 l2 : Zsum (l1 ++ l2) = Zsum l1 + Zsum l2.
Proof.
  unfold Zsum. induction l1 as [|a l1 IH]; cbn [app fold_right]; lia.
Qed.

Lemma filter_split_length {A : Type} (p : A -> bool) l :
  (List.length (filter p l)
   + List.length (filter (fun x => negb (p x)) l))%nat
  = List.length l.
Proof.
  induction l as [|a l IH]; cbn [filter List.length]; [reflexivity|].
  destruct (p a); cbn [negb List.length]; lia.
Qed.

Lemma Zsum_cons a l : Zsum (a :: l) = a + Zsum l.
Proof. reflexivity. Qed.

Lemma eatLoop_spec s fs :
  let '(fs', s', evs) := eatLoop s fs in
  fs' = filter (fun f => negb (inPickupRange (Snake.head s) f)) fs
  /\ len fs' + len evs = len fs
  /\ forallb isEat evs = true
  /\ Snake.score s' = Snake.score s + Zsum (map eatPoints evs)
  /\ Snake.growPending s' = Snake.growPending s + Zsum (map eatGrowth evs)
  /\ Snake.segments s' = Snake.segments s.
Proof.
  induction fs as [|f fs IH]; cbn [eatLoop].
  - cbn. repeat split; lia.
  - destruct (eatLoop s fs) as [[r s1] ev1].
    destruct IH as (Hf & Hl & He & Hs & Hg & Hseg).
    assert (Hh : Snake.head s1 = Snake.head s) by now apply head_segments.
    rewrite Hh. cbn [filter]. fold (inPickupRange (Snake.head s) f).
    destruct (inPickupRange (Snake.head s) f); cbn [negb].
    + split; [exact Hf|]. unfold len in *.
      rewrite length_app, forallb_app, !map_app, !Zsum_app.
      cbn [List.length map forallb isEat eatPoints eatGrowth Zsum fold_right
           andb Snake.score Snake.growPending Snake.segments
           Snake.set_score Snake.set_growPending].
      rewrite He. repeat split; try lia. exact Hseg.
    + split; [now rewrite Hf|]. unfold len in *. cbn [List.length].
      repeat split; try lia; assumption.
Qed.

Lemma checkFood_loop_spec ss :
  forall fs,
    let '(ss', fs', evs) := _checkFood_loop ss fs in
    len fs' + len evs = len fs
    /\ forallb isEat evs = true
    /\ totalScore ss' = totalScore ss + Zsum (map eatPoints evs)
    /\ totalPending ss' = totalPending ss + Zsum (map eatGrowth evs).
Proof.
  unfold totalScore, totalPending.
  induction ss as [|[id s] ss IH]; intros fs; cbn [_checkFood_loop].
  - cbn. repeat split; lia.
  - destruct (Snake.alive s); cbn [negb].
    + pose proof (eatLoop_spec s fs) as H1.
      destruct (eatLoop s fs) as [[fs1 s1] ev1].
      destruct H1 as (_ & Hl1 & He1 & Hs1 & Hg1 & _).
      specialize (IH fs1).
      destruct (_checkFood_loop ss fs1) as [[r f'] ev].
      destruct IH as (Hl & He & Hs & Hg).
      unfold len in *.
      rewrite length_app, forallb_app, !map_app, !Zsum_app, He1, He.
      cbn [map snd] in *. rewrite !Zsum_cons. repeat split; lia.
    + specialize (IH fs).
      destruct (_checkFood_loop ss fs) as [[r f'] ev].
      destruct IH as (Hl & He & Hs & Hg).
      cbn [map snd] in *. rewrite !Zsum_cons.
      repeat split; try lia; assumption.
Qed.

(** X4.  [_checkFood] only appends [eat] events, one for each food item it
    removes, and the points and growth those events report are exactly
    what the snakes' scores and pending growth gain in total. *)
Theorem checkFood_conserves (e : GameEngine.t) :
  exists evs,
    events (_checkFood e) = events e ++ evs
    /\ forallb isEat evs = true
    /\ len (food (_checkFood e)) + len evs = len (food e)
    /\ totalScore (snakes (_checkFood e))
       = totalScore (snakes e) + Zsum (map eatPoints evs)
    /\ totalPending (snakes (_checkFood e))
       = totalPending (snakes e) + Zsum (map eatGrowth evs).
Proof.
  unfold _checkFood.
  pose proof (checkFood_loop_spec (snakes e) (food e)) as H.
  destruct (_checkFood_loop (snakes e) (food e)) as [[ss fs] evs].
  destruct H as (Hl & He & Hs & Hg).
  exists evs. cbn [events food snakes set_events set_food set_snakes].
  repeat split; assumption.
Qed.

(** X5.  One living snake's turn at the food: it eats every item within
    the pickup radius of its head, however many there are, and leaves the
    others in their order. *)
Theorem eatLoop_eats_all_in_range (s : Snake.t) (fs : list Food) :
  fst (fst (eatLoop s fs))
  = filter (fun f => negb (inPickupRange (Snake.head s) f)) fs
  /\ len (snd (eatLoop s fs))
     = len (filter (inPickupRange (Snake.head s)) fs).
Proof.
  pose proof (eatLoop_spec s fs) as H.
  destruct (eatLoop s fs) as [[fs' s'] evs].
  destruct H as (Hf & Hl & _). cbn [fst snd]. split; [exact Hf|].
  subst fs'. unfold len in *.
  pose proof (filter_split_length (inPickupRange (Snake.head s)) fs). lia.
Qed.


(* ================================================================== *)
(** ** Power-ups *)

Lemma PowerupType_eqb_eq a b : PowerupType_eqb a b = true <-> a = b.
Proof. destruct a, b; cbn; split; congruence. Qed.

Lemma PowerupType_eqb_refl a : PowerupType_eqb a a = true.
Proof. now destruct a. Qed.

Lemma fx_get_set_same ty v m : fx_get ty (fx_set ty v m) = Some v.
Proof.
  induction m as [|[t' v'] m IH]; cbn [fx_set fx_get].
  - now rewrite PowerupType_eqb_refl.
  - destruct (PowerupType_eqb ty t') eqn:E; cbn [fx_get].
    + now rewrite PowerupType_eqb_refl.
    + now rewrite E.
Qed.

Lemma fx_get_set_other ty ty' v m :
  ty <> ty' -> fx_get ty' (fx_set ty v m) = fx_get ty' m.
Proof.
  intros Hne. induction m as [|[t0 v0] m IH]; cbn [fx_set fx_get].
  - destruct (PowerupType_eqb ty' ty) eqn:E; [|reflexivity].
    apply PowerupType_eqb_eq in E. congruence.
  - destruct (PowerupType_eqb ty t0) eqn:E; cbn [fx_get].
    + apply PowerupType_eqb_eq in E. subst t0.
      destruct (PowerupType_eqb ty' ty) eqn:E'; [|reflexivity].
      apply PowerupType_eqb_eq in E'. congruence.
    + now rewrite IH.
Qed.

Lemma pickup_score s pu :
  Snake.score (fst (pickup s pu)) = Snake.score s + 15.
Proof. unfold pickup. now destruct (pu_type pu). Qed.

(** X6.  Picking up a power-up of a known type sets that effect to its
    full duration whatever was left of it (a second pickup refreshes, it
    does not extend), leaves the other effects alone and adds 15 to the
    score; a power-up without a known type only gives the 15 points. *)
Theorem pickup_refreshes_effect (s : Snake.t) (pu : Powerup) :
  Snake.score (fst (pickup s pu)) = Snake.score s + 15
  /\ match pu_type pu with
     | Some ty =>
         fx_get ty (Snake.activePowerups (fst (pickup s pu)))
         = Some (powerup_duration ty)
         /\ (forall ty', ty <> ty' ->
               fx_get ty' (Snake.activePowerups (fst (pickup s pu)))
               = fx_get ty' (Snake.activePowerups s))
     | None =>
         Snake.activePowerups (fst (pickup s pu)) = Snake.activePowerups s
     end.
Proof.
  unfold pickup. cbn [fst]. destruct (pu_type pu) as [ty|].
  - cbn [Snake.score Snake.activePowerups Snake.set_score
         Snake.set_activePowerups].
    split; [reflexivity|]. split; [apply fx_get_set_same|].
    intros ty' Hne. now apply fx_get_set_other.
  - split; reflexivity.
Qed.

Lemma pickLast_len head ps pu rest :
  pickLast head ps = Some (pu, rest) -> len rest + 1 = len ps.
Proof.
  revert pu rest. induction ps as [|p ps IH]; intros pu rest;
    cbn [pickLast]; [discriminate|].
  destruct (pickLast head ps) as [[hit r']|].
  - intros [= <- <-]. specialize (IH _ _ eq_refl).
    unfold len in *. cbn [List.length]. lia.
  - destruct (PrimFloat.ltb _ _); [|discriminate].
    intros [= <- <-]. unfold len. cbn [List.length]. lia.
Qed.

Lemma checkPowerupPickup_loop_spec ss :
  forall ps,
    let '(ss', ps', evs) := _checkPowerupPickup_loop ss ps in
    len ps' + len evs = len ps
    /\ forallb isPickup evs = true
    /\ len evs <= len (filter Snake.alive (map_values ss))
    /\ totalScore ss' = totalScore ss + 15 * len evs.
Proof.
  unfold totalScore, map_values.
  induction ss as [|[id s] ss IH]; intros ps;
    cbn [_checkPowerupPickup_loop].
  - cbn. repeat split; lia.
  - cbn [map snd filter]. destruct (Snake.alive s); cbn [negb].
    + destruct (pickLast (Snake.head s) ps) as [[pu ps1]|] eqn:Hp.
      * apply pickLast_len in Hp.
        pose proof (pickup_score s pu) as Hsc.
        assert (He : isPickup (snd (pickup s pu)) = true) by reflexivity.
        destruct (pickup s pu) as [s1 ev1]. cbn [fst snd] in Hsc, He.
        specialize (IH ps1).
        destruct (_checkPowerupPickup_loop ss ps1) as [[r p'] ev].
        destruct IH as (Hl & Hev & Hc & Hs).
        unfold len in *. cbn [List.length forallb map snd].
        rewrite !Zsum_cons, He, Hev. repeat split; lia.
      * specialize (IH ps).
        destruct (_checkPowerupPickup_loop ss ps) as [[r p'] ev].
        destruct IH as (Hl & Hev & Hc & Hs).
        unfold len in *. cbn [List.length map snd].
        rewrite !Zsum_cons. repeat split; try lia; assumption.
    + specialize (IH ps).
      destruct (_checkPowerupPickup_loop ss ps) as [[r p'] ev].
      destruct IH as (Hl & Hev & Hc & Hs).
      cbn [map snd]. rewrite !Zsum_cons. repeat split; try lia; assumption.
Qed.

(** X7.  [_checkPowerupPickup] removes one field power-up for each
    [powerup_pickup] event it appends, appends nothing else, hands out at
    most one power-up per living snake, and raises the total score by 15
    per pickup. *)
Theorem checkPowerupPickup_one_each (e : GameEngine.t) :
  exists evs,
    events (_checkPowerupPickup e) = events e ++ evs
    /\ forallb isPickup evs = true
    /\ len (powerups (_checkPowerupPickup e)) + len evs = len (powerups e)
    /\ len evs <= getAliveCount e
    /\ totalScore (snakes (_checkPowerupPickup e))
       = totalScore (snakes e) + 15 * len evs.
Proof.
  unfold _checkPowerupPickup, getAliveCount.
  pose proof (checkPowerupPickup_loop_spec (snakes e) (powerups e)) as H.
  destruct (_checkPowerupPickup_loop (snakes e) (powerups e))
    as [[ss ps] evs].
  destruct H as (Hl & He & Hc & Hs).
  exists evs. cbn [events powerups snakes set_events set_powerups set_snakes].
  repeat split; assumption.
Qed.

Lemma tickEffects_positive id m :
  Forall (fun tv => 1 <= snd tv) (fst (tickEffects id m)).
Proof.
  induction m as [|[ty v] m IH]; cbn [tickEffects]; [constructor|].
  destruct (tickEffects id m) as [r evs]. cbn [fst] in IH.
  destruct (v - 1 <=? 0) eqn:E; cbn [fst]; [exact IH|].
  constructor; [cbn [snd]; lia|exact IH].
Qed.

Lemma tickEffects_keys id m ty :
  In ty (map fst (fst (tickEffects id m))) -> In ty (map fst m).
Proof.
  induction m as [|[t0 v] m IH]; cbn [tickEffects]; [auto|].
  destruct (tickEffects id m) as [r evs]. cbn [fst] in IH.
  destruct (v - 1 <=? 0); cbn [fst map In]; intuition.
Qed.

Lemma fx_get_notin ty m : ~ In ty (map fst m) -> fx_get ty m = None.
Proof.
  induction m as [|[t0 v] m IH]; cbn [fx_get map fst In]; [reflexivity|].
  intros H. destruct (PowerupType_eqb ty t0) eqn:E.
  - apply PowerupType_eqb_eq in E. subst. tauto.
  - apply IH. tauto.
Qed.

Lemma tickEffects_NoDup id m :
  NoDup (map fst m) -> NoDup (map fst (fst (tickEffects id m))).
Proof.
  induction m as [|[t0 v] m IH]; cbn [tickEffects map fst]; [auto|].
  intros Hnd. inversion Hnd as [|? ? Hn Hnd']; subst.
  pose proof (tickEffects_keys id m t0) as Hk.
  destruct (tickEffects id m) as [r evs]. cbn [fst] in *.
  destruct (v - 1 <=? 0); cbn [fst map]; [auto|].
  constructor; auto.
Qed.

Lemma tickEffects_get id m ty :
  NoDup (map fst m) ->
  fx_get ty (fst (tickEffects id m))
  = match fx_get ty m with
    | Some v => if v - 1 <=? 0 then None else Some (v - 1)
    | None => None
    end.
Proof.
  induction m as [|[t0 v] m IH]; cbn [tickEffects map fst fx_get];
    [reflexivity|].
  intros Hnd. inversion Hnd as [|? ? Hn Hnd']; subst.
  specialize (IH Hnd').
  pose proof (tickEffects_keys id m t0) as Hk.
  destruct (tickEffects id m) as [r evs]. cbn [fst] in *.
  destruct (PowerupType_eqb ty t0) eqn:E.
  - apply PowerupType_eqb_eq in E. subst t0.
    destruct (v - 1 <=? 0); cbn [fst fx_get].
    + apply fx_get_notin. tauto.
    + now rewrite PowerupType_eqb_refl.
  - destruct (v - 1 <=? 0); cbn [fst fx_get]; [exact IH|].
    now rewrite E.
Qed.

(** X9.  In a table that holds each effect once, an effect with [v]
    ticks left is still there, with [v - n] left, after [n < v] countdowns
    of [_tickActivePowerups], and is gone from the [v]-th on. *)
Theorem effect_lifetime (playerId : PlayerId) (m : Effects)
        (ty : PowerupType) (v : Z) (n : nat) :
  NoDup (map fst m) ->
  fx_get ty m = Some v ->
  1 <= v ->
  fx_get ty (countdown n playerId m)
  = if Z.of_nat n <? v then Some (v - Z.of_nat n) else None.
Proof.
  revert m v. induction n as [|n IH]; intros m v Hnd Hg Hv.
  - cbn [countdown].
    replace (Z.of_nat 0 <? v) with true by (symmetry; apply Z.ltb_lt; lia).
    rewrite Hg. f_equal. lia.
  - cbn [countdown].
    pose proof (tickEffects_get playerId m ty Hnd) as Ht.
    rewrite Hg in Ht.
    pose proof (tickEffects_NoDup playerId m Hnd) as Hnd'.
    destruct (v - 1 <=? 0) eqn:E.
    + replace (Z.of_nat (S n) <? v) with false
        by (symmetry; apply Z.ltb_ge; lia).
      clear IH Hg. revert Ht Hnd'.
      generalize (fst (tickEffects playerId m)). clear.
      induction n as [|n IH]; intros m Ht Hnd'; cbn [countdown];
        [exact Ht|].
      apply IH; [|now apply tickEffects_NoDup].
      rewrite tickEffects_get by exact Hnd'. now rewrite Ht.
    + rewrite (IH _ (v - 1) Hnd' Ht) by lia.
      destruct (Z.ltb_spec (Z.of_nat n) (v - 1));
        destruct (Z.ltb_spec (Z.of_nat (S n)) v); try lia; [|reflexivity].
      f_equal. lia.
Qed.

Lemma effect_lifetime_witness :
  fx_get speed (countdown 79 "ann" [(shield, 3); (speed, 80)]) = Some 1
  /\ fx_get speed (countdown 80 "ann" [(shield, 3); (speed, 80)]) = None.
Proof.
  assert (Hnd : NoDup (map fst [(shield, 3); (speed, 80)])).
  { cbn. constructor; [intros [H|[]]; discriminate|].
    constructor; [intros []|constructor]. }
  split.
  - apply (effect_lifetime "ann" _ speed 80 79 Hnd); [reflexivity|lia].
  - apply (effect_lifetime "ann" _ speed 80 80 Hnd); [reflexivity|lia].
Defined.

Lemma tickSnakes_keyrel_ticked ss : keyrel ticked ss (fst (tickSnakes ss)).
Proof.
  induction ss as [|[id s] ss IH]; cbn [tickSnakes].
  - constructor.
  - destruct (tickSnakes ss) as [r ev]. cbn [fst] in IH.
    destruct (Snake.alive s) eqn:Ha; cbn [negb].
    + destruct (tickEffects (Snake.id s) (Snake.activePowerups s))
        as [m ev1] eqn:Ht.
      cbn [fst]. constructor; [|exact IH]. split; [reflexivity|].
      cbn [snd]. right. split; [exact Ha|]. now rewrite Ht.
    + cbn [fst]. constructor; [|exact IH]. split; [reflexivity|]. left. auto.
Qed.

Lemma despawn_young t ps :
  Forall (fun p => t - pu_spawnTick p <= POWERUP_DESPAWN_TICKS)
         (fst (despawn t ps)).
Proof.
  induction ps as [|p ps IH]; cbn [despawn]; [constructor|].
  destruct (despawn t ps) as [r evs]. cbn [fst] in IH.
  destruct (t - pu_spawnTick p >? POWERUP_DESPAWN_TICKS) eqn:E; cbn [fst];
    [exact IH|].
  constructor; [lia|exact IH].
Qed.

(** X8.  After [_tickActivePowerups] every effect a living snake still
    holds has at least one tick left (so an effect that is present is in
    force), and no field power-up left on the map is more than
    [POWERUP_DESPAWN_TICKS] ticks old. *)
Theorem tickActivePowerups_leaves_live_effects (e : GameEngine.t) :
  (forall id s,
     map_get id (snakes (_tickActivePowerups e)) = Some s ->
     Snake.alive s = true ->
     Forall (fun tv => 1 <= snd tv) (Snake.activePowerups s))
  /\ Forall (fun p => tick e - pu_spawnTick p <= POWERUP_DESPAWN_TICKS)
            (powerups (_tickActivePowerups e)).
Proof.
  unfold _tickActivePowerups.
  pose proof (tickSnakes_keyrel_ticked (snakes e)) as Hk.
  pose proof (despawn_young (tick e) (powerups e)) as Hd.
  destruct (tickSnakes (snakes e)) as [ss ev1].
  destruct (despawn (tick e) (powerups e)) as [ps ev2].
  cbn [fst snakes powerups set_events set_powerups set_snakes] in *.
  split; [|exact Hd].
  intros id s Hg Ha.
  destruct (keyrel_get _ _ _ _ _ Hk Hg) as (s0 & _ & [[Hd0 ->]|[_ ->]]).
  - congruence.
  - apply tickEffects_positive.
Qed.


(* ================================================================== *)
(** ** Food top-up and power-up spawning *)

Lemma maintainFood_loop_spec M n :
  forall e,
    exists added,
      food (_maintainFood_loop M n e) = food e ++ added
      /\ List.length added = n
      /\ Forall freshFood added
      /\ snakes (_maintainFood_loop M n e) = snakes e
      /\ powerups (_maintainFood_loop M n e) = powerups e
      /\ events (_maintainFood_loop M n e) = events e.
Proof.
  induction n as [|n IH]; intros e; cbn [_maintainFood_loop].
  - exists []. rewrite app_nil_r. repeat split. constructor.
  - unfold _randomWorldPosition, _randFloat. cbv zeta.
    match goal with
    | |- context [_maintainFood_loop M n ?e1] =>
        destruct (IH e1) as (added & Hf & Hl & Hfr & Hs & Hp & He)
    end.
    rewrite Hf, Hs, Hp, He.
    cbn [food snakes powerups events push_food set_food set_rng].
    eexists (_ :: added). rewrite <- app_assoc. cbn [app].
    split; [reflexivity|]. split; [cbn [List.length]; now rewrite Hl|].
    split; [|repeat split].
    constructor; [|exact Hfr]. unfold freshFood. cbn [food_type food_value].
    destruct (PrimFloat.ltb _ _); auto.
Qed.

Lemma maintainFood_frame M e :
  len (food (_maintainFood M e))
  = Z.max (len (food e)) (_desiredFoodCount e)
  /\ snakes (_maintainFood M e) = snakes e
  /\ powerups (_maintainFood M e) = powerups e.
Proof.
  unfold _maintainFood.
  destruct (maintainFood_loop_spec M
              (Z.to_nat (_desiredFoodCount e - len (food e))) e)
    as (added & Hf & Hl & _ & Hs & Hp & _).
  rewrite Hf. repeat split; try assumption.
  unfold len in *. rewrite length_app, Hl. lia.
Qed.

(** X10.  [_maintainFood] never removes or changes a food item: it appends
    new items, each "bonus" worth 30 or "normal" worth [FOOD_SCORE], until
    the count reaches [_desiredFoodCount], and touches nothing else. *)
Theorem maintainFood_tops_up (M : MathLib) (e : GameEngine.t) :
  exists added,
    food (_maintainFood M e) = food e ++ added
    /\ Forall freshFood added
    /\ len (food (_maintainFood M e))
       = Z.max (len (food e)) (_desiredFoodCount e)
    /\ snakes (_maintainFood M e) = snakes e
    /\ powerups (_maintainFood M e) = powerups e
    /\ events (_maintainFood M e) = events e.
Proof.
  unfold _maintainFood.
  destruct (maintainFood_loop_spec M
              (Z.to_nat (_desiredFoodCount e - len (food e))) e)
    as (added & Hf & Hl & Hfr & Hs & Hp & He).
  exists added. rewrite Hf. repeat split; try assumption.
  unfold len in *. rewrite length_app, Hl. lia.
Qed.

Lemma maybeSpawnPowerup_spec M e :
  food (_maybeSpawnPowerup M e) = food e
  /\ snakes (_maybeSpawnPowerup M e) = snakes e
  /\ ((powerups (_maybeSpawnPowerup M e) = powerups e
       /\ events (_maybeSpawnPowerup M e) = events e)
      \/ (exists pu,
            powerups (_maybeSpawnPowerup M e) = powerups e ++ [pu]
            /\ events (_maybeSpawnPowerup M e)
               = events e ++ [EvPowerupSpawn pu]
            /\ pu_spawnTick pu = tick e
            /\ 1 <= getAliveCount e
            /\ len (powerups e) < POWERUP_MAX)).
Proof.
  unfold _maybeSpawnPowerup, getAliveCount.
  destruct (_ <? 1) eqn:E1; [repeat split; left; split; reflexivity|].
  destruct (_ >=? POWERUP_MAX) eqn:E2;
    [repeat split; left; split; reflexivity|].
  unfold _randomWorldPosition, _randInt, _randFloat. cbv zeta.
  destruct (JS.gt _ _); [repeat split; left; split; reflexivity|].
  split; [reflexivity|]. split; [reflexivity|].
  right. eexists. split; [reflexivity|]. split; [reflexivity|].
  split; [reflexivity|]. lia.
Qed.

(** X11.  [_maybeSpawnPowerup] adds at most one field power-up, stamped
    with the current tick and announced by one [powerup_spawn] event, and
    only when some snake is alive and fewer than [POWERUP_MAX] are on the
    map; with no living snake, or at the cap, the engine is left exactly
    as it was (not even the generator advances). *)
Theorem maybeSpawnPowerup_respects_cap (M : MathLib) (e : GameEngine.t) :
  (getAliveCount e < 1 \/ POWERUP_MAX <= len (powerups e) ->
   _maybeSpawnPowerup M e = e)
  /\ ((powerups (_maybeSpawnPowerup M e) = powerups e
       /\ events (_maybeSpawnPowerup M e) = events e)
      \/ (exists pu,
            powerups (_maybeSpawnPowerup M e) = powerups e ++ [pu]
            /\ events (_maybeSpawnPowerup M e)
               = events e ++ [EvPowerupSpawn pu]
            /\ pu_spawnTick pu = tick e
            /\ 1 <= getAliveCount e
            /\ len (powerups e) < POWERUP_MAX)).
Proof.
  split; [|apply maybeSpawnPowerup_spec].
  unfold _maybeSpawnPowerup, getAliveCount. intros H.
  destruct (_ <? 1) eqn:E1; [reflexivity|].
  destruct (_ >=? POWERUP_MAX) eqn:E2; [reflexivity|]. lia.
Qed.

Lemma maybeSpawnPowerup_respects_cap_witness :
  _maybeSpawnPowerup RefMath.lib (world []) = world [].
Proof.
  apply (maybeSpawnPowerup_respects_cap RefMath.lib (world [])).
  left. reflexivity.
Defined.


(* ================================================================== *)
(** ** Food and power-up counts across a tick *)

Lemma desiredFoodCount_snakes e e' :
  snakes e' = snakes e -> _desiredFoodCount e' = _desiredFoodCount e.
Proof. unfold _desiredFoodCount. now intros ->. Qed.

(** X12.  When [update()] returns, the map holds at least
    [_desiredFoodCount] food items for the snakes then alive, hence at
    least [FOOD_BASE_COUNT]. *)
Theorem update_food_floor
        (M : MathLib) (fuel : nat) (e e' : GameEngine.t) (r : UpdateResult) :
  update M fuel e = Some (e', r) ->
  _desiredFoodCount e' <= len (food e')
  /\ FOOD_BASE_COUNT <= len (food e').
Proof.
  intros Hu. apply update_phases in Hu as (e1 & _ & -> & _).
  unfold afterMove.
  set (e5 := _tickActivePowerups _).
  destruct (maybeSpawnPowerup_spec M (_maintainFood M e5)) as (Hf & Hs & _).
  destruct (maintainFood_frame M e5) as (Hl & Hs5 & _).
  rewrite Hf, Hl.
  rewrite (desiredFoodCount_snakes e5) by (now rewrite Hs, Hs5).
  split; [lia|].
  assert (FOOD_BASE_COUNT <= _desiredFoodCount e5); [|lia].
  unfold _desiredFoodCount, FOOD_PER_PLAYER, len. lia.
Qed.

Lemma update_food_floor_witness : 120 <= len (food (next spawned)).
Proof.
  assert (Hu : update RefMath.lib 1 spawned
               = Some (next spawned, returned spawned))
    by (vm_compute; reflexivity).
  exact (proj2 (update_food_floor _ _ _ _ _ Hu)).
Defined.

Lemma powerups_dropCorpseFood segs e :
  powerups (dropCorpseFood e segs) = powerups e.
Proof.
  revert e. induction segs as [|seg segs IH]; intros e; cbn [dropCorpseFood].
  - reflexivity.
  - destruct (PrimFloat.ltb _ _); [|apply IH].
    unfold _randFloat. cbv zeta. now rewrite IH.
Qed.

Lemma powerups_applyDeath e pid c k :
  powerups (_applyDeath e pid c k) = powerups e.
Proof.
  unfold _applyDeath.
  destruct (map_get pid (snakes e)) as [s|]; [|reflexivity].
  destruct (negb (Snake.alive s)); [reflexivity|].
  rewrite creditKiller_spec.
  set (e2 := dropCorpseFood _ _).
  assert (H2 : powerups e2 = powerups e)
    by (unfold e2; now rewrite powerups_dropCorpseFood).
  destruct (killerOf k (snakes e2)) as [[k' killer]|]; exact H2.
Qed.

Lemma powerups_applyDeaths ds killed e :
  powerups (applyDeaths ds killed e) = powerups e.
Proof.
  revert killed e. induction ds as [|d ds IH]; intros killed e;
    cbn [applyDeaths].
  - reflexivity.
  - destruct (existsb (String.eqb (d_id d)) killed); [apply IH|].
    now rewrite IH, powerups_applyDeath.
Qed.

Lemma powerups_detectCollisions e :
  powerups (_detectCollisions e) = powerups e.
Proof. apply powerups_applyDeaths. Qed.

Lemma powerups_checkFood e : powerups (_checkFood e) = powerups e.
Proof.
  unfold _checkFood.
  now destruct (_checkFood_loop (snakes e) (food e)) as [[ss fs] evs].
Qed.

Lemma despawn_len t ps : len (fst (despawn t ps)) <= len ps.
Proof.
  induction ps as [|p ps IH]; cbn [despawn]; [cbn [fst]; lia|].
  destruct (despawn t ps) as [r evs]. cbn [fst] in IH.
  unfold len in *.
  destruct (t - pu_spawnTick p >? POWERUP_DESPAWN_TICKS);
    cbn [fst List.length]; lia.
Qed.

Lemma powerups_tickActivePowerups e :
  len (powerups (_tickActivePowerups e)) <= len (powerups e).
Proof.
  unfold _tickActivePowerups.
  pose proof (despawn_len (tick e) (powerups e)) as H.
  destruct (tickSnakes (snakes e)) as [ss evs1].
  destruct (despawn (tick e) (powerups e)) as [ps evs2]. exact H.
Qed.

Lemma powerups_moveSnakes M fuel e e' :
  _moveSnakes M fuel e = Some e' -> powerups e' = powerups e.
Proof.
  unfold _moveSnakes.
  destruct (_moveSnakes_loop M fuel e (snakes e)) as [[ss dr]|];
    [|discriminate].
  now intros [= <-].
Qed.

Lemma powerups_checkPowerupPickup e :
  len (powerups (_checkPowerupPickup e)) <= len (powerups e).
Proof.
  unfold _checkPowerupPickup.
  pose proof (checkPowerupPickup_loop_spec (snakes e) (powerups e)) as H.
  destruct (_checkPowerupPickup_loop (snakes e) (powerups e))
    as [[ss ps] evs].
  destruct H as (Hl & _). cbn [powerups set_events set_powerups set_snakes].
  unfold len in *. lia.
Qed.

Lemma update_powerups_cap M fuel e e' r :
  update M fuel e = Some (e', r) ->
  len (powerups e') <= Z.max (len (powerups e)) POWERUP_MAX.
Proof.
  intros Hu. apply update_phases in Hu as (e1 & Hm & -> & _).
  apply powerups_moveSnakes in Hm. cbn [powerups set_events set_tick] in Hm.
  unfold afterMove.
  set (e5 := _tickActivePowerups _).
  assert (H5 : len (powerups e5) <= len (powerups e)).
  { unfold e5.
    eapply Z.le_trans; [apply powerups_tickActivePowerups|].
    pose proof (powerups_checkPowerupPickup
                  (_checkFood (_detectCollisions e1))) as Hl.
    rewrite powerups_checkFood, powerups_detectCollisions, Hm in Hl.
    exact Hl. }
  destruct (maintainFood_frame M e5) as (_ & _ & Hp).
  destruct (maybeSpawnPowerup_spec M (_maintainFood M e5))
    as (_ & _ & [[Hq _]|(pu & Hq & _ & _ & _ & Hcap)]);
    rewrite Hq, Hp in *.
  - lia.
  - unfold len in *. rewrite length_app. cbn [List.length]. lia.
Qed.

Lemma powerups_findSpawnPosition_loop M n e :
  powerups (snd (_findSpawnPosition_loop M n e)) = powerups e.
Proof.
  revert e. induction n as [|n IH]; intros e;
    cbn [_findSpawnPosition_loop]; unfold _randFloat; cbv zeta.
  - reflexivity.
  - destruct (tooClose _ _); [|reflexivity]. now rewrite IH.
Qed.

(** X13.  In every reachable engine state there are at most [POWERUP_MAX]
    field power-ups on the map. *)
Theorem powerups_never_exceed_cap (M : MathLib) (e : GameEngine.t) :
  reachable M e -> len (powerups e) <= POWERUP_MAX.
Proof.
  induction 1 as [ws now|e id u p c _ IH|e id _ IH|e id a b _ IH
                  |e fuel e' r _ IH Hu|e now _ IH].
  - cbn. unfold POWERUP_MAX. lia.
  - unfold spawnSnake, _findSpawnPosition.
    pose proof (powerups_findSpawnPosition_loop M 200 e) as H.
    destruct (_findSpawnPosition_loop M 200 e) as [pos e1].
    cbn [snd powerups set_snakes] in *. now rewrite H.
  - exact IH.
  - unfold queueInput. destruct (map_get id (snakes e)) as [s|]; [|exact IH].
    destruct (negb (Snake.alive s)); exact IH.
  - pose proof (update_powerups_cap _ _ _ _ _ Hu). lia.
  - cbn. unfold POWERUP_MAX. lia.
Qed.

Lemma powerups_never_exceed_cap_witness :
  len (powerups (next spawned)) <= 5.
Proof.
  apply (powerups_never_exceed_cap RefMath.lib).
  eapply reach_update;
    [apply reach_spawn, reach_new
    |exact (eq_refl : update RefMath.lib 1 spawned
                      = Some (next spawned, returned spawned))].
Defined.


(* ================================================================== *)
(** ** Spawning *)

Lemma findSpawnPosition_loop_first M n :
  forall e p,
    find (fun q => negb (tooClose e q)) (spawnCandidates M n e) = Some p ->
    fst (_findSpawnPosition_loop M n e) = p.
Proof.
  induction n as [|n IH]; intros e p;
    cbn [spawnCandidates _findSpawnPosition_loop]; unfold _randFloat;
    cbv zeta; cbn [find].
  - discriminate.
  - destruct (tooClose e _) eqn:E; cbn [negb].
    + intros H. apply IH. exact H.
    + now intros [= <-].
Qed.

(** X14.  Unless each of the 200 candidate positions is too close, the
    position [_findSpawnPosition] returns is the first candidate that no
    living snake's head is within 150 units of. *)
Theorem findSpawnPosition_keeps_distance
        (M : MathLib) (e : GameEngine.t) :
  existsb (fun q => negb (tooClose e q)) (spawnCandidates M 200 e) = true ->
  find (fun q => negb (tooClose e q)) (spawnCandidates M 200 e)
  = Some (fst (_findSpawnPosition M e))
  /\ tooClose e (fst (_findSpawnPosition M e)) = false.
Proof.
  intros Hex.
  destruct (find (fun q => negb (tooClose e q)) (spawnCandidates M 200 e))
    as [p|] eqn:Hf.
  - pose proof (findSpawnPosition_loop_first M 200 e p Hf) as Hp.
    unfold _findSpawnPosition. rewrite Hp. split; [reflexivity|].
    apply find_some in Hf as [_ Hn]. now apply negb_true_iff in Hn.
  - apply existsb_exists in Hex as (q & Hin & Hq).
    pose proof (find_none _ _ Hf q Hin) as Hc. cbv beta in Hc. congruence.
Qed.

Lemma findSpawnPosition_keeps_distance_witness :
  tooClose duo (fst (_findSpawnPosition RefMath.lib duo)) = false.
Proof.
  apply (findSpawnPosition_keeps_distance RefMath.lib duo).
  vm_compute. reflexivity.
Defined.

Lemma findSpawnPosition_loop_frame M n e :
  food (snd (_findSpawnPosition_loop M n e)) = food e
  /\ events (snd (_findSpawnPosition_loop M n e)) = events e.
Proof.
  revert e. induction n as [|n IH]; intros e;
    cbn [_findSpawnPosition_loop]; unfold _randFloat; cbv zeta.
  - split; reflexivity.
  - destruct (tooClose _ _); [|split; reflexivity].
    match goal with
    | |- context [_findSpawnPosition_loop M n ?e2] =>
        destruct (IH e2) as [Hf He]
    end.
    now rewrite Hf, He.
Qed.

(** X15.  [spawnSnake] stores, under the player's id, a living snake with
    score 0, no kills, no effects, target length [INITIAL_SNAKE_LENGTH]
    and as many segments, heading where it aims, born at the current
    tick.  A snake already stored under that id is replaced in its place
    in the map; every other snake, the food, the power-ups, the events and
    the tick are untouched. *)
Theorem spawnSnake_adds_one_fresh_snake
        (M : MathLib) (e : GameEngine.t) (id : PlayerId)
        (username pattern color : string) :
  let s := fst (spawnSnake M e id username pattern color) in
  let e' := snd (spawnSnake M e id username pattern color) in
  map_get id (snakes e') = Some s
  /\ (Snake.alive s = true /\ Snake.score s = 0 /\ Snake.kills s = 0
      /\ Snake.activePowerups s = []
      /\ Snake.length s = INITIAL_SNAKE_LENGTH /\ Snake.growPending s = 0
      /\ len (Snake.segments s) = INITIAL_SNAKE_LENGTH
      /\ Snake.targetAngle s = Snake.angle s
      /\ Snake.spawnTick s = tick e /\ Snake.deathTick s = None)
  /\ (forall id', id' <> id ->
        map_get id' (snakes e') = map_get id' (snakes e))
  /\ (map_get id (snakes e) <> None ->
      map_keys (snakes e') = map_keys (snakes e))
  /\ food e' = food e /\ powerups e' = powerups e
  /\ events e' = events e /\ tick e' = tick e.
Proof.
  cbv zeta. unfold spawnSnake, _findSpawnPosition.
  destruct (findSpawnPosition_loop_spec M 200 e) as [Hs (_ & _ & _ & _ & Ht)].
  destruct (findSpawnPosition_loop_frame M 200 e) as [Hf He].
  pose proof (powerups_findSpawnPosition_loop M 200 e) as Hp.
  destruct (_findSpawnPosition_loop M 200 e) as [pos e1].
  cbn [fst snd snakes food powerups events tick set_snakes] in *.
  rewrite Hs, Ht. split; [apply map_get_set_same|]. split.
  - cbn [Snake.alive Snake.score Snake.kills Snake.activePowerups
         Snake.length Snake.growPending Snake.segments Snake.targetAngle
         Snake.angle Snake.spawnTick Snake.deathTick].
    unfold len. rewrite length_map, length_seq. repeat split.
  - split; [intros id' Hne; apply map_get_set_other; congruence|].
    split; [|auto].
    intros Hin. destruct (map_get id (snakes e)) as [s0|] eqn:Hg;
      [|congruence].
    eapply map_keys_set_present; eauto.
Qed.

Lemma spawnSnake_adds_one_fresh_snake_witness :
  map_keys
    (snakes (snd (spawnSnake RefMath.lib duo "ann" "Ann" "neon" "#EF4444")))
  = ["ann"; "bob"].
Proof.
  destruct (spawnSnake_adds_one_fresh_snake RefMath.lib duo "ann" "Ann"
              "neon" "#EF4444") as (_ & _ & _ & H & _).
  rewrite H; [reflexivity|]. vm_compute. discriminate.
Defined.


(* ================================================================== *)
(** ** What a shield protects from *)

Lemma map_get_NoDup_In {V : Type} k (v : V) (m : list (string * V)) :
  NoDup (map_keys m) -> In (k, v) m -> map_get k m = Some v.
Proof.
  induction m as [|[k0 v0] m IH]; cbn [map_keys map map_get fst In];
    [tauto|].
  intros Hnd [H|H].
  - injection H as -> ->. now rewrite String.eqb_refl.
  - inversion Hnd as [|? ? Hnin Hnd']; subst.
    destruct (String.eqb_spec k k0) as [->|_]; [|auto].
    exfalso. apply Hnin. unfold map_keys.
    change k0 with (fst (k0, v)). now apply in_map.
Qed.

Lemma in_indexed {A : Type} (l : list A) j x :
  In (j, x) (indexed l) -> In x l.
Proof. unfold indexed. apply in_combine_r. Qed.

Lemma soloDeaths_wallOnly e id s entries :
  Snake.has s shield = true ->
  (forall k v, In (k, v) entries -> k = id -> v = s) ->
  Forall (wallOnly e id s) (soloDeaths e entries).
Proof.
  intros Hsh. unfold soloDeaths.
  induction entries as [|[k v] rest IH]; intros Hall; cbn [flat_map].
  - constructor.
  - apply Forall_app. split.
    + cbn [fst snd]. unfold soloDeath.
      destruct (negb (Snake.alive v)); [constructor|].
      destruct (outside e (Snake.head v) && negb (Snake.has v ghost)) eqn:Ew.
      * constructor; [|constructor]. intros Hid. cbn [d_id d_cause] in *.
        rewrite <- (Hall k v (or_introl eq_refl) Hid).
        apply andb_true_iff in Ew as [Ho Hg].
        apply negb_true_iff in Hg. auto.
      * destruct (negb (Snake.has v shield) && selfHit v) eqn:Es;
          [|constructor].
        constructor; [|constructor]. intros Hid. cbn [d_id] in Hid.
        rewrite (Hall k v (or_introl eq_refl) Hid), Hsh in Es.
        discriminate.
    + apply IH. intros k' v' Hin. apply Hall. now right.
Qed.

Lemma crossInner_wallOnly e id s i idA a js :
  forall deaths,
    (idA = id -> Snake.has a shield = true) ->
    (forall j k v, In (j, (k, v)) js -> k = id ->
                   Snake.has v shield = true) ->
    Forall (wallOnly e id s) deaths ->
    Forall (wallOnly e id s) (crossInner i idA a js deaths).
Proof.
  intros deaths HA. revert deaths.
  induction js as [|[j [idB b]] rest IH]; intros deaths Hjs Hd;
    cbn [crossInner]; [exact Hd|].
  assert (Hrest : forall j k v, In (j, (k, v)) rest -> k = id ->
                                Snake.has v shield = true)
    by (intros j' k v Hin; apply (Hjs j' k v); now right).
  pose proof (Hjs j idB b (or_introl eq_refl)) as HB.
  destruct (Nat.eqb i j); [now apply IH|].
  destruct (negb (Snake.alive b)); [now apply IH|].
  destruct (isDead deaths idA); [exact Hd|].
  destruct (Nat.ltb i j && headToHead a b).
  - apply IH; [exact Hrest|].
    destruct (colliderIsA a b).
    + destruct (Snake.has a shield) eqn:Ea; cbn [negb]; [exact Hd|].
      apply Forall_app. split; [exact Hd|].
      constructor; [|constructor]. intros Hid. cbn [d_id] in Hid.
      specialize (HA Hid). congruence.
    + destruct (Snake.has b shield) eqn:Eb; cbn [negb]; [exact Hd|].
      apply Forall_app. split; [exact Hd|].
      constructor; [|constructor]. intros Hid. cbn [d_id] in Hid.
      specialize (HB Hid). congruence.
  - destruct (negb (Snake.has a ghost) && negb (Snake.has a shield)
              && bodyHit a b) eqn:Eh; [|now apply IH].
    apply IH; [exact Hrest|].
    apply Forall_app. split; [exact Hd|].
    constructor; [|constructor]. intros Hid. cbn [d_id] in Hid.
    rewrite (HA Hid) in Eh. cbn [negb] in Eh.
    rewrite andb_false_r in Eh. discriminate.
Qed.

Lemma crossOuter_wallOnly e id s all todo :
  forall deaths,
    (forall j k v, In (j, (k, v)) all -> k = id ->
                   Snake.has v shield = true) ->
    (forall j k v, In (j, (k, v)) todo -> k = id ->
                   Snake.has v shield = true) ->
    Forall (wallOnly e id s) deaths ->
    Forall (wallOnly e id s) (crossOuter all todo deaths).
Proof.
  induction todo as [|[i [idA a]] rest IH]; intros deaths Hall Htodo Hd;
    cbn [crossOuter]; [exact Hd|].
  assert (Hrest : forall j k v, In (j, (k, v)) rest -> k = id ->
                                Snake.has v shield = true)
    by (intros j' k v Hin; apply (Htodo j' k v); now right).
  destruct (negb (Snake.alive a) || isDead deaths idA); [now apply IH|].
  apply IH; [exact Hall|exact Hrest|].
  apply crossInner_wallOnly; [|exact Hall|exact Hd].
  apply (Htodo i idA a). now left.
Qed.

Lemma collectDeaths_wallOnly e id s :
  NoDup (map_keys (snakes e)) ->
  map_get id (snakes e) = Some s ->
  Snake.has s shield = true ->
  Forall (wallOnly e id s) (collectDeaths e).
Proof.
  intros Hnd Hg Hsh.
  assert (Hall : forall k v, In (k, v) (snakes e) -> k = id -> v = s).
  { intros k v Hin ->.
    pose proof (map_get_NoDup_In id v (snakes e) Hnd Hin). congruence. }
  assert (Hidx : forall (j : nat) k v,
             In (j, (k, v)) (indexed (snakes e)) -> k = id ->
             Snake.has v shield = true).
  { intros j k v Hin Hk. apply in_indexed in Hin.
    now rewrite (Hall k v Hin Hk). }
  unfold collectDeaths. cbv zeta.
  apply crossOuter_wallOnly; [exact Hidx|exact Hidx|].
  now apply soloDeaths_wallOnly.
Qed.

Lemma applyDeaths_wallVictim e0 id s0 ds :
  forall killed e s,
    Forall (wallOnly e0 id s0) ds ->
    map_get id (snakes e) = Some s ->
    wallVictim e0 s0 s ->
    exists s',
      map_get id (snakes (applyDeaths ds killed e)) = Some s'
      /\ wallVictim e0 s0 s'.
Proof.
  induction ds as [|d rest IH]; intros killed e s Hds Hg Hv;
    cbn [applyDeaths]; [eauto|].
  inversion Hds as [|? ? Hd Hrest]; subst.
  destruct (existsb (String.eqb (d_id d)) killed); [eauto|].
  destruct (applyDeath_get e (d_id d) (d_cause d) (d_killerId d) id s Hg)
    as (s1 & Hg1 & Hs1).
  apply (IH _ _ s1 Hrest Hg1).
  destruct (Snake.alive s) eqn:Ea.
  - destruct (String.eqb_spec id (d_id d)) as [Hid|_].
    + subst s1. intros _. cbn [Snake.deathCause Snake.die].
      destruct (Hd (eq_sym Hid)) as (-> & Ho & Hgh). auto.
    + intros Hdead. rewrite (credit_only_alive _ _ Hs1) in Hdead.
      congruence.
  - now subst s1.
Qed.

(** X16.  A shield protects from everything but the wall: a living snake
    with an active shield either survives [_detectCollisions] or is
    recorded dead of cause [wall], its head having been outside the
    boundary while it had no ghost effect.  With both effects active it
    survives. *)
Theorem shield_protects_but_for_the_wall
        (e : GameEngine.t) (id : PlayerId) (s : Snake.t) :
  NoDup (map_keys (snakes e)) ->
  map_get id (snakes e) = Some s ->
  Snake.alive s = true ->
  Snake.has s shield = true ->
  exists s',
    map_get id (snakes (_detectCollisions e)) = Some s'
    /\ (Snake.alive s' = true
        \/ (Snake.deathCause s' = Some wall
            /\ outside e (Snake.head s) = true
            /\ Snake.has s ghost = false))
    /\ (Snake.has s ghost = true -> Snake.alive s' = true).
Proof.
  intros Hnd Hg Ha Hsh.
  pose proof (collectDeaths_wallOnly e id s Hnd Hg Hsh) as Hds.
  assert (Hv : wallVictim e s s) by (intros Hd; congruence).
  destruct (applyDeaths_wallVictim e id s (collectDeaths e) [] e s Hds Hg Hv)
    as (s' & Hg' & Hv').
  exists s'. split; [exact Hg'|]. unfold wallVictim in Hv'.
  destruct (Snake.alive s') eqn:Ea'.
  - split; [now left|reflexivity].
  - destruct (Hv' eq_refl) as (Hc & Ho & Hgh).
    split; [right; auto|]. congruence.
Qed.

Lemma shield_protects_but_for_the_wall_witness :
  exists s',
    map_get "bob" (snakes (_detectCollisions shieldedClash)) = Some s'
    /\ (Snake.alive s' = true
        \/ (Snake.deathCause s' = Some wall
            /\ outside shieldedClash (Snake.head bobShielded) = true
            /\ Snake.has bobShielded ghost = false))
    /\ (Snake.has bobShielded ghost = true -> Snake.alive s' = true).
Proof.
  apply (shield_protects_but_for_the_wall shieldedClash "bob" bobShielded).
  - repeat constructor; cbn; intuition discriminate.
  - reflexivity.
  - reflexivity.
  - reflexivity.
Defined.


(* ================================================================== *)
(** ** The end of a round *)

Lemma broadcast_all r data :
  broadcast r data None
  = map (fun id => Send id data) (map_keys (players r)).
Proof.
  unfold broadcast, map_keys.
  induction (players r) as [|kv m IH]; cbn [flat_map map app].
  - reflexivity.
  - now rewrite IH.
Qed.

(** X17.  [_endGame] ends a round once.  On a room that is not ENDED it
    sets the state to ENDED, stamps [endedAt], disarms both timers, leaves
    every member in place with [alive] and [spectating] cleared, and sends
    one [game_over] message to each member, then to the hook if there is
    one.  On the room it returns, a further [_endGame] or [_checkGameEnd]
    changes nothing and sends nothing. *)
Theorem endGame_only_once (r : Room.t) (now : Z) (reason : EndReason) :
  Room.state r <> ENDED ->
  (Room.state (fst (_endGame r now reason)) = ENDED
   /\ endedAt (fst (_endGame r now reason)) = Some now
   /\ _tickInterval (fst (_endGame r now reason)) = false
   /\ _timedGameTimeout (fst (_endGame r now reason)) = false)
  /\ map_keys (players (fst (_endGame r now reason)))
     = map_keys (players r)
  /\ Forall (fun p => Player.alive p = false /\ Player.spectating p = false)
            (map_values (players (fst (_endGame r now reason))))
  /\ snd (_endGame r now reason)
     = map (fun id => Send id (MsgGameOver (gameOverData r now reason)))
           (map_keys (players r))
       ++ (if onGameOver r
           then [OnGameOver (gameOverData r now reason)] else [])
  /\ (forall now' reason',
        _endGame (fst (_endGame r now reason)) now' reason'
        = (fst (_endGame r now reason), [])
        /\ _checkGameEnd (fst (_endGame r now reason)) now'
           = (fst (_endGame r now reason), [])).
Proof.
  intros Hst. unfold _endGame at 1 2 3 4 5 6 7.
  destruct (RoomState_eqb (Room.state r) ENDED) eqn:E.
  { apply RoomState_eqb_eq in E. contradiction. }
  cbv zeta. cbn [fst snd Room.state endedAt _tickInterval _timedGameTimeout
                 players].
  split; [repeat split|]. split; [|split; [|split]].
  - unfold map_keys. rewrite map_map. reflexivity.
  - unfold map_values. rewrite map_map. apply Forall_forall.
    intros p Hin. apply in_map_iff in Hin as (kv & <- & _).
    split; reflexivity.
  - now rewrite broadcast_all.
  - assert (Hend : Room.state (fst (_endGame r now reason)) = ENDED).
    { unfold _endGame. rewrite E. reflexivity. }
    intros now' reason'. unfold _checkGameEnd, _endGame at 1.
    rewrite Hend. split; reflexivity.
Qed.

Lemma endGame_only_once_witness :
  _endGame (fst (_endGame lastRound 5000 winner)) 6000 draw
  = (fst (_endGame lastRound 5000 winner), []).
Proof.
  apply (endGame_only_once lastRound 5000 winner).
  vm_compute. discriminate.
Defined.

Lemma len_filter_zero {A : Type} (f : A -> bool) l :
  len (filter f l) = 0 -> Forall (fun a => f a = false) l.
Proof.
  unfold len. induction l as [|a l IH]; cbn [filter]; [constructor|].
  destruct (f a) eqn:E; cbn [List.length].
  - lia.
  - intros H. constructor; auto.
Qed.

(** X18.  [_checkGameEnd] ends a PLAYING round only for a cause: the
    engine holds at least one snake and, in free play, no connected member
    is alive; in the other modes at most one snake is alive.  So a
    last-standing or timed round with two living snakes goes on. *)
Theorem checkGameEnd_ends_only_for_cause (r : Room.t) (now : Z) :
  Room.state r = PLAYING ->
  Room.state (fst (_checkGameEnd r now)) = ENDED ->
  exists e,
    engine r = Some e
    /\ 0 < map_size (snakes e)
    /\ match mode r with
       | FREE_PLAY =>
           Forall (fun p => Player.connected p && Player.alive p = false)
                  (map_values (players r))
       | LAST_STANDING | TIMED => getAliveCount e <= 1
       end.
Proof.
  intros Hst. unfold _checkGameEnd. rewrite Hst. cbn [RoomState_eqb negb].
  destruct (engine r) as [e|]; cbn [fst]; [|congruence].
  destruct (endDecision r e) as [reason|] eqn:Hd; cbn [fst]; [|congruence].
  intros _. exists e. split; [reflexivity|].
  unfold endDecision in Hd. cbv zeta in Hd.
  pose proof (Zle_0_nat (List.length (snakes e))) as Hnn.
  fold (map_size (snakes e)) in Hnn.
  destruct (mode r).
  - destruct (Z.geb_spec (map_size (snakes e)) 2).
    + destruct (Z.leb_spec (getAliveCount e) 1); [lia|].
      cbn [andb] in Hd.
      destruct (Z.eqb_spec (map_size (snakes e)) 1); [lia|discriminate].
    + cbn [andb] in Hd.
      destruct (Z.eqb_spec (map_size (snakes e)) 1); [|discriminate].
      destruct (Z.eqb_spec (getAliveCount e) 0); [lia|discriminate].
  - destruct (Z.gtb_spec (map_size (snakes e)) 0); [|discriminate].
    destruct (Z.leb_spec (getAliveCount e) 1); [lia|discriminate].
  - match type of Hd with
    | (if (?c =? 0) && _ then _ else _) = _ =>
        destruct (Z.eqb_spec c 0) as [Hc|]; [|discriminate]
    end.
    destruct (Z.gtb_spec (map_size (snakes e)) 0); [|discriminate].
    split; [lia|]. now apply len_filter_zero in Hc.
Qed.

Lemma checkGameEnd_ends_only_for_cause_witness :
  exists e,
    engine lastRound = Some e
    /\ 0 < map_size (snakes e)
    /\ getAliveCount e <= 1.
Proof.
  apply (checkGameEnd_ends_only_for_cause lastRound 5000).
  - reflexivity.
  - vm_compute. reflexivity.
Defined.

(** *** The winner *)

Lemma cmpStanding_dead_alive a b :
  Snake.alive a = false -> Snake.alive b = true -> cmpStanding a b = 1.
Proof. intros Ha Hb. unfold cmpStanding. now rewrite Ha, Hb. Qed.

Lemma cmpStanding_alive_score a b :
  Snake.alive a = true -> Snake.alive b = true -> cmpStanding a b <= 0 ->
  Snake.score b <= Snake.score a.
Proof.
  intros Ha Hb. unfold cmpStanding. rewrite Ha, Hb. cbn [Bool.eqb negb].
  destruct (Z.eqb_spec (Snake.score b) (Snake.score a)); cbn [negb]; lia.
Qed.

Lemma standings_head e :
  0 < getAliveCount e ->
  exists s rest,
    Array_sort cmpStanding (map_values (snakes e)) = s :: rest
    /\ In s (map_values (snakes e))
    /\ Snake.alive s = true
    /\ forall s', In s' (map_values (snakes e)) -> Snake.alive s' = true ->
                  Snake.score s' <= Snake.score s.
Proof.
  intros Hal. unfold getAliveCount, len in Hal.
  pose proof (Array_sort_perm cmpStanding (map_values (snakes e))) as Hp.
  pose proof (Array_sort_sorted cmpStanding cmpStanding_total
                                cmpStanding_trans (map_values (snakes e)))
    as Hs.
  destruct (filter Snake.alive (map_values (snakes e))) as [|a fl] eqn:Ef;
    [cbn in Hal; lia|].
  assert (Ha : In a (map_values (snakes e)) /\ Snake.alive a = true).
  { apply filter_In. rewrite Ef. now left. }
  destruct Ha as [Hain Haa].
  destruct (Array_sort cmpStanding (map_values (snakes e))) as [|s rest].
  { apply Permutation_sym, Permutation_nil in Hp. rewrite Hp in Hain.
    destruct Hain. }
  inversion Hs as [|? ? _ Hhd]; subst. rewrite Forall_forall in Hhd.
  assert (Hlead : forall x, In x (map_values (snakes e)) ->
                            x = s \/ cmpStanding s x <= 0).
  { intros x Hx. apply (Permutation_in _ Hp) in Hx as [<-|Hx]; auto. }
  assert (Hsa : Snake.alive s = true).
  { destruct (Snake.alive s) eqn:Es; [reflexivity|].
    destruct (Hlead a Hain) as [->|Hc]; [congruence|].
    rewrite (cmpStanding_dead_alive s a Es Haa) in Hc. lia. }
  exists s, rest. split; [reflexivity|]. split.
  - apply (Permutation_in _ (Permutation_sym Hp)). now left.
  - split; [exact Hsa|]. intros s' Hin' Ha'.
    destruct (Hlead s' Hin') as [->|Hc]; [lia|].
    now apply cmpStanding_alive_score.
Qed.

(** X19.  While a snake is alive, the winner named in the [game_over]
    data is a living snake of the engine, and no living snake has a higher
    score. *)
Theorem game_over_winner_leads
        (r : Room.t) (e : GameEngine.t) (now : Z) (reason : EndReason) :
  engine r = Some e ->
  0 < getAliveCount e ->
  exists s,
    In s (map_values (snakes e))
    /\ Snake.alive s = true
    /\ go_winner (gameOverData r now reason) = Some (winnerOf s)
    /\ forall s', In s' (map_values (snakes e)) -> Snake.alive s' = true ->
                  Snake.score s' <= Snake.score s.
Proof.
  intros He Hal.
  destruct (standings_head e Hal) as (s & rest & Hsort & Hin & Ha & Hmax).
  exists s. split; [exact Hin|]. split; [exact Ha|]. split; [|exact Hmax].
  unfold gameOverData. rewrite He. cbv zeta. cbn [go_winner].
  unfold getStandings. rewrite Hsort. cbn [mapi_from]. reflexivity.
Qed.

Lemma game_over_winner_leads_witness :
  exists s,
    In s (map_values (snakes trio))
    /\ Snake.alive s = true
    /\ go_winner (gameOverData lastRound 5000 winner) = Some (winnerOf s)
    /\ forall s', In s' (map_values (snakes trio)) ->
                  Snake.alive s' = true -> Snake.score s' <= Snake.score s.
Proof.
  apply (game_over_winner_leads lastRound trio 5000 winner).
  - reflexivity.
  - vm_compute. reflexivity.
Defined.

(** *** Joining the lobby *)

Lemma map_size_set {V : Type} k (v : V) m :
  map_size m <= map_size (map_set k v m) <= map_size m + 1.
Proof.
  unfold map_size. induction m as [|[k' v'] m IH]; cbn [map_set List.length].
  - lia.
  - destruct (String.eqb k k'); cbn [List.length]; lia.
Qed.

(** X20.  Outside a round (state WAITING or ENDED) [addPlayer] never
    takes the room past [maxPlayers]: a full room refuses with "Room is
    full" and is left as it was, and a room with a free place admits the
    player as a participant. *)
Theorem lobby_never_overfills (r : Room.t) (p : Player.t) :
  Room.state r = WAITING \/ Room.state r = ENDED ->
  map_size (players r) <= maxPlayers r ->
  map_size (players (added_room (addPlayer r p)))
  <= maxPlayers (added_room (addPlayer r p))
  /\ (map_size (players r) = maxPlayers r ->
      addPlayer r p = (r, AddError "Room is full", []))
  /\ (map_size (players r) < maxPlayers r ->
      added_result (addPlayer r p) = AddSuccess false
      /\ exists p1,
           map_get (Player.id p) (players (added_room (addPlayer r p)))
           = Some p1
           /\ Player.spectating p1 = false
           /\ Player.roomId p1 = Some (Room.id r)).
Proof.
  intros Hst Hle. unfold addPlayer.
  assert (Hlobby : RoomState_eqb (Room.state r) PLAYING
                   || RoomState_eqb (Room.state r) COUNTDOWN = false)
    by (destruct Hst as [-> | ->]; reflexivity).
  rewrite Hlobby. unfold isFull.
  destruct (Z.geb_spec (map_size (players r)) (maxPlayers r)) as [Hfull|Hfree].
  - unfold added_room, added_result. cbn [fst snd].
    split; [exact Hle|]. split; [reflexivity|]. lia.
  - cbv zeta. unfold added_room, added_result.
    cbn [fst snd players maxPlayers set_players].
    split.
    + pose proof (map_size_set (Player.id p)
                    (Player.mk (Player.id p) (Player.username p)
                       (Player.pattern p) (Player.color p)
                       (Some (Room.id r)) (is_creator r (Player.id p))
                       (Player.alive p) (Player.score p) (Player.kills p)
                       false (Player.connected p)) (players r)).
      lia.
    + split; [lia|]. intros _. split; [reflexivity|].
      eexists. split; [apply map_get_set_same|]. split; reflexivity.
Qed.

Lemma lobby_never_overfills_witness :
  addPlayer (arena WAITING None
                   [("ann", mkPlayer "ann"); ("bob", mkPlayer "bob")])
            (mkPlayer "cat")
  = (arena WAITING None [("ann", mkPlayer "ann"); ("bob", mkPlayer "bob")],
     AddError "Room is full", []).
Proof.
  apply (lobby_never_overfills
           (arena WAITING None
                  [("ann", mkPlayer "ann"); ("bob", mkPlayer "bob")])
           (mkPlayer "cat")).
  - left. reflexivity.
  - vm_compute. discriminate.
  - reflexivity.
Defined.

(* ================================================================== *)
(** ** Ranks *)

Lemma nth_error_mapi_from {A B : Type} (f : A -> Z -> B) l :
  forall i k b,
    nth_error (mapi_from i f l) k = Some b ->
    exists a, nth_error l k = Some a /\ b = f a (i + Z.of_nat k).
Proof.
  induction l as [|a l IH]; intros i k b; cbn [mapi_from].
  - destruct k; discriminate.
  - destruct k as [|k]; cbn [nth_error].
    + intros [= <-]. exists a. split; [reflexivity|].
      f_equal. cbn. lia.
    + intros H. destruct (IH _ _ _ H) as (a' & Ha' & ->).
      exists a'. split; [exact Ha'|]. f_equal. lia.
Qed.

Lemma len_mapi_from {A B : Type} (f : A -> Z -> B) l i :
  List.length (mapi_from i f l) = List.length l.
Proof.
  revert i. induction l as [|a l IH]; intros i; cbn [mapi_from List.length].
  - reflexivity.
  - now rewrite IH.
Qed.

(** X21.  [getStandings] lists every snake of the engine exactly once and
    numbers the rows 1, 2, 3, ... in order. *)
Theorem standings_rank_every_snake (e : GameEngine.t) :
  Permutation (map st_id (getStandings e))
              (map Snake.id (map_values (snakes e)))
  /\ len (getStandings e) = map_size (snakes e)
  /\ forall k row,
       nth_error (getStandings e) k = Some row ->
       st_rank row = Z.of_nat k + 1.
Proof.
  unfold getStandings. split; [|split].
  - rewrite (mapi_from_map _ st_id Snake.id) by reflexivity.
    apply Permutation_map, Permutation_sym, Array_sort_perm.
  - unfold len, map_size. rewrite len_mapi_from.
    rewrite <- (Permutation_length
                  (Array_sort_perm cmpStanding (map_values (snakes e)))).
    unfold map_values. now rewrite length_map.
  - intros k row H.
    apply nth_error_mapi_from in H as (s & _ & ->). cbn [st_rank standingEntry].
    lia.
Qed.

(** X22.  [getLeaderboard] counts the living snakes as [getAliveCount]
    does, lists the ids of [getAliveIds] among its living rows, marks the
    rows of its two lists alive and dead, and numbers the living rows
    followed by the dead rows 1, 2, 3, ... *)
Theorem leaderboard_ranks_alive_then_dead (e : GameEngine.t) :
  lb_aliveCount (getLeaderboard e) = getAliveCount e
  /\ lb_total (getLeaderboard e) = map_size (snakes e)
  /\ Permutation (map le_id (lb_alive (getLeaderboard e))) (getAliveIds e)
  /\ Forall (fun row => le_alive row = true) (lb_alive (getLeaderboard e))
  /\ Forall (fun row => le_alive row = false) (lb_dead (getLeaderboard e))
  /\ forall k row,
       nth_error (lb_alive (getLeaderboard e) ++ lb_dead (getLeaderboard e)) k
       = Some row ->
       le_rank row = Z.of_nat k + 1.
Proof.
  unfold getLeaderboard. cbv zeta.
  cbn [lb_aliveCount lb_total lb_alive lb_dead].
  set (sortedAlive :=
         Array_sort cmpAlive (filter Snake.alive (map_values (snakes e)))).
  assert (Hlen : len (mapi_from 0 aliveEntry sortedAlive) = getAliveCount e).
  { unfold len, getAliveCount, len. rewrite len_mapi_from. f_equal.
    symmetry. apply Permutation_length, Array_sort_perm. }
  split; [exact Hlen|]. split.
  { unfold len, map_size, map_values. now rewrite length_map. }
  split.
  { rewrite (mapi_from_map _ le_id Snake.id) by reflexivity.
    unfold getAliveIds.
    apply Permutation_map, Permutation_sym, Array_sort_perm. }
  split.
  { apply Forall_forall. intros row Hin.
    apply In_nth_error in Hin as [k Hk].
    now apply nth_error_mapi_from in Hk as (s & _ & ->). }
  split.
  { apply Forall_forall. intros row Hin.
    apply In_nth_error in Hin as [k Hk].
    now apply nth_error_mapi_from in Hk as (s & _ & ->). }
  intros k row H.
  destruct (Nat.lt_ge_cases k (List.length (mapi_from 0 aliveEntry sortedAlive)))
    as [Hk|Hk].
  - rewrite nth_error_app1 in H by exact Hk.
    apply nth_error_mapi_from in H as (s & _ & ->).
    cbn [le_rank aliveEntry]. lia.
  - rewrite nth_error_app2 in H by exact Hk.
    apply nth_error_mapi_from in H as (s & _ & ->).
    cbn [le_rank deadEntry]. unfold len. lia.
Qed.


(* ================================================================== *)
(** ** The tick loop of a room *)

Lemma lastN_app {A : Type} (n : nat) (l rest : list A) :
  skipn (List.length (skipn (List.length l - n) l ++ rest) - n)
        (skipn (List.length l - n) l ++ rest)
  = skipn (List.length (l ++ rest) - n) (l ++ rest).
Proof.
  destruct (Nat.le_gt_cases (List.length l) n) as [Hle|Hgt].
  - replace (List.length l - n)%nat with 0%nat by lia. reflexivity.
  - rewrite !length_app, length_skipn.
    replace (List.length l - (List.length l - n) + List.length rest - n)%nat
      with (List.length rest) by lia.
    replace (List.length l + List.length rest - n)%nat
      with (List.length rest + (List.length l - n))%nat by lia.
    rewrite <- (skipn_skipn (List.length rest) (List.length l - n)).
    rewrite (skipn_app (List.length l - n) l rest).
    replace (List.length l - n - List.length l)%nat with 0%nat by lia.
    reflexivity.
Qed.

Lemma bufferEvents_spec events :
  forall recent,
    len recent <= 50 ->
    bufferEvents recent events
    = skipn (List.length (recent ++ events) - 50) (recent ++ events).
Proof.
  unfold bufferEvents, len.
  induction events as [|evt rest IH]; intros recent Hle; cbn [fold_left].
  - rewrite app_nil_r.
    replace (List.length recent - 50)%nat with 0%nat by lia. reflexivity.
  - cbv zeta.
    assert (Hstep :
              (if Z.of_nat (List.length (recent ++ [evt])) >? 50
               then tl (recent ++ [evt]) else recent ++ [evt])
              = skipn (List.length (recent ++ [evt]) - 50)
                      (recent ++ [evt])).
    { rewrite length_app. cbn [List.length].
      destruct (Z.gtb_spec (Z.of_nat (List.length recent + 1)) 50).
      - replace (List.length recent + 1 - 50)%nat with 1%nat by lia.
        destruct recent; reflexivity.
      - replace (List.length recent + 1 - 50)%nat with 0%nat by lia.
        reflexivity. }
    rewrite Hstep. rewrite IH.
    + rewrite lastN_app. rewrite <- app_assoc. reflexivity.
    + rewrite length_skipn, length_app. cbn [List.length]. lia.
Qed.

(** X23.  The kill feed holds the latest 50 events: starting from a
    buffer of at most 50, the loop leaves the last 50 of the old buffer
    followed by the new events (all of them when they are fewer), so the
    buffer never grows past 50. *)
Theorem bufferEvents_keeps_latest_50 (recent events : list Event) :
  len recent <= 50 ->
  bufferEvents recent events
  = skipn (List.length (recent ++ events) - 50) (recent ++ events)
  /\ len (bufferEvents recent events) <= 50
  /\ (len (recent ++ events) <= 50 ->
      bufferEvents recent events = recent ++ events).
Proof.
  intros Hle. rewrite (bufferEvents_spec events recent Hle).
  split; [reflexivity|]. unfold len in *. split.
  - rewrite length_skipn. lia.
  - intros H.
    replace (List.length (recent ++ events) - 50)%nat with 0%nat by lia.
    reflexivity.
Qed.

Lemma bufferEvents_keeps_latest_50_witness :
  bufferEvents [] [EvPowerupExpired "ann" shield; EvPowerupExpired "bob" ghost]
  = [EvPowerupExpired "ann" shield; EvPowerupExpired "bob" ghost].
Proof.
  apply (bufferEvents_keeps_latest_50
           [] [EvPowerupExpired "ann" shield; EvPowerupExpired "bob" ghost]).
  - vm_compute. discriminate.
  - vm_compute. discriminate.
Defined.

Lemma map_get_mapv {V W : Type} (f : string -> V -> W) id m :
  map_get id (map (fun kv => (fst kv, f (fst kv) (snd kv))) m)
  = option_map (f id) (map_get id m).
Proof.
  induction m as [|[k v] m IH]; cbn [map map_get fst snd].
  - reflexivity.
  - destruct (String.eqb_spec id k) as [->|_]; [reflexivity|exact IH].
Qed.

Lemma checkGameEnd_fields r now :
  engine (fst (_checkGameEnd r now)) = engine r
  /\ recentEvents (fst (_checkGameEnd r now)) = recentEvents r
  /\ creatorId (fst (_checkGameEnd r now)) = creatorId r
  /\ map_keys (players (fst (_checkGameEnd r now))) = map_keys (players r)
  /\ (Room.state (fst (_checkGameEnd r now)) = PLAYING ->
      fst (_checkGameEnd r now) = r).
Proof.
  unfold _checkGameEnd.
  destruct (negb (RoomState_eqb (Room.state r) PLAYING));
    [cbn [fst]; auto 6|].
  destruct (engine r) as [e|] eqn:He; [|cbn [fst]; auto 6].
  destruct (endDecision r e) as [reason|]; [|cbn [fst]; auto 6].
  unfold _endGame.
  destruct (RoomState_eqb (Room.state r) ENDED); [cbn [fst]; auto 6|].
  cbv zeta. cbn [fst engine recentEvents creatorId players Room.state].
  split; [exact He|]. split; [reflexivity|]. split; [reflexivity|].
  split; [|discriminate].
  unfold map_keys. rewrite map_map. reflexivity.
Qed.

(** X24.  One run of the tick callback on a PLAYING room runs [update()]
    once: the engine's tick goes up by one, the members stay the same, the
    kill feed stays within 50, and, unless the round has just ended, each
    member with a snake shows its snake's [alive], [score] and [kills]
    and is a spectator when the snake is dead. *)
Theorem tickCallback_syncs_members
        (M : MathLib) (fuel : nat) (r : Room.t) (e : GameEngine.t)
        (now : Z) :
  Room.state r = PLAYING ->
  engine r = Some e ->
  (turnsTerminate fuel e ->
   exists r' out, tickCallback M fuel r now = Some (r', out))
  /\ forall r' out,
       tickCallback M fuel r now = Some (r', out) ->
       exists e',
         engine r' = Some e'
         /\ tick e' = tick e + 1
         /\ map_keys (players r') = map_keys (players r)
         /\ (len (recentEvents r) <= 50 -> len (recentEvents r') <= 50)
         /\ (Room.state r' = PLAYING ->
             forall id p' s,
               map_get id (players r') = Some p' ->
               map_get id (snakes e') = Some s ->
               Player.alive p' = Snake.alive s
               /\ Player.score p' = Snake.score s
               /\ Player.kills p' = Snake.kills s
               /\ (Snake.alive s = false -> Player.spectating p' = true)).
Proof.
  intros Hst He. unfold tickCallback. rewrite Hst, He.
  cbn [RoomState_eqb negb]. split.
  - intros Ht. destruct (update_total M fuel e Ht) as (e1 & res & ->).
    cbv zeta. destruct (_checkGameEnd _ now) as [r2 effects]. eauto.
  - intros r' out.
    destruct (update M fuel e) as [[e1 res]|] eqn:Hu; [|discriminate].
    cbv zeta.
    match goal with
    | |- context [_checkGameEnd ?r1 now] =>
        pose proof (checkGameEnd_fields r1 now) as (Hen & Hrec & _ & Hk & Hsame);
        destruct (_checkGameEnd r1 now) as [r2 effects]
    end.
    cbn [fst engine recentEvents players] in Hen, Hrec, Hk, Hsame.
    intros H. injection H as <- _.
    exists e1. split; [exact Hen|]. split.
    { apply update_frame in Hu as (_ & _ & _ & _ & Ht).
      exact Ht. }
    split.
    { rewrite Hk. unfold map_keys. rewrite map_map. reflexivity. }
    split.
    { intros Hle. rewrite Hrec.
      rewrite (bufferEvents_spec _ _ Hle). unfold len.
      rewrite length_skipn. lia. }
    intros Hpl id p' s Hp Hs. rewrite (Hsame Hpl) in Hp.
    cbn [players] in Hp. rewrite map_get_mapv in Hp.
    destruct (map_get id (players r)) as [p|]; [|discriminate].
    cbn [option_map] in Hp. injection Hp as <-.
    unfold syncPlayer. rewrite Hs.
    cbn [Player.alive Player.score Player.kills Player.spectating].
    repeat split. intros ->. cbn [negb andb].
    now destruct (Player.spectating p).
Qed.

Lemma tickCallback_syncs_members_witness :
  exists r' out e',
    tickCallback RefMath.lib 1 liveRound 5000 = Some (r', out)
    /\ engine r' = Some e' /\ tick e' = 5.
Proof.
  destruct (tickCallback_syncs_members RefMath.lib 1 liveRound duo 5000
              eq_refl eq_refl) as (Htot & Hstep).
  destruct Htot as (r' & out & Hr).
  - repeat constructor; simpl; intros _; vm_compute; discriminate.
  - destruct (Hstep r' out Hr) as (e' & He' & Ht & _).
    exists r', out, e'. split; [exact Hr|]. split; [exact He'|exact Ht].
Defined.


(* ================================================================== *)
(** ** Starting a round *)






(* ================================================================== *)
(** ** Leaving a room *)

Lemma map_keys_delete {V : Type} k (m : list (string * V)) :
  map_keys (map_delete k m)
  = filter (fun k' => negb (String.eqb k k')) (map_keys m).
Proof.
  unfold map_keys, map_delete.
  induction m as [|[k' v] m IH]; cbn [filter map fst]; [reflexivity|].
  destruct (String.eqb k k'); cbn [negb map fst]; now rewrite IH.
Qed.

Lemma filter_others_nil k (l : list string) :
  NoDup l -> In k l ->
  filter (fun k' => negb (String.eqb k k')) l = [] <-> l = [k].
Proof.
  intros Hnd Hin. split.
  - intros Hf.
    assert (Hall : forall x, In x l -> x = k).
    { intros x Hx. destruct (String.eqb_spec k x) as [->|Hne]; [reflexivity|].
      assert (In x (filter (fun k' => negb (String.eqb k k')) l)).
      { apply filter_In. split; [exact Hx|].
        apply negb_true_iff. now apply String.eqb_neq. }
      rewrite Hf in H. destruct H. }
    destruct l as [|a [|b l]]; [destruct Hin| |].
    + now rewrite (Hall a (or_introl eq_refl)).
    + exfalso. inversion Hnd as [|? ? Hnin _]; subst. apply Hnin.
      rewrite (Hall a), (Hall b); cbn; auto.
  - intros ->. cbn [filter]. now rewrite String.eqb_refl.
Qed.

Lemma transferCreator_spec r wasCreator :
  map_keys (players (fst (transferCreator r wasCreator)))
  = map_keys (players r)
  /\ engine (fst (transferCreator r wasCreator)) = engine r
  /\ Room.state (fst (transferCreator r wasCreator)) = Room.state r
  /\ (wasCreator = false ->
      creatorId (fst (transferCreator r wasCreator)) = creatorId r)
  /\ (wasCreator = true ->
      forall k next rest,
        players r = (k, next) :: rest ->
        creatorId (fst (transferCreator r wasCreator))
        = Some (Player.id next)).
Proof.
  unfold transferCreator.
  destruct (players r) as [|[k next] rest] eqn:Hp.
  - cbn [fst]. rewrite Hp. repeat split; auto. discriminate.
  - destruct wasCreator; cbv zeta; cbn [fst players engine Room.state
                                         creatorId].
    + repeat split; try discriminate. intros _ k' next' rest' [= _ <- _].
      reflexivity.
    + rewrite Hp. repeat split; auto. discriminate.
Qed.

(** X26.  [removePlayer] takes a member out of the room and its snake out
    of the engine, leaving the other members in their order.  It answers
    "empty" exactly when the member was the last one; otherwise, in a
    room whose creator was a member, the creator afterwards is again a
    member: the same one, or the first remaining member when the creator
    is the one who left. *)
Theorem removePlayer_keeps_a_creator
        (r : Room.t) (playerId : PlayerId) (now : Z) :
  NoDup (map_keys (players r)) ->
  Forall (fun kv => Player.id (snd kv) = fst kv) (players r) ->
  In playerId (map_keys (players r)) ->
  map_keys (players (rm_room (removePlayer r playerId now)))
  = map_keys (map_delete playerId (players r))
  /\ map_get playerId (players (rm_room (removePlayer r playerId now)))
     = None
  /\ (forall e, engine (rm_room (removePlayer r playerId now)) = Some e ->
                map_get playerId (snakes e) = None)
  /\ (rm_result (removePlayer r playerId now) = empty
      <-> map_keys (players r) = [playerId])
  /\ (rm_result (removePlayer r playerId now) = ok
      <-> map_keys (players r) <> [playerId])
  /\ (rm_result (removePlayer r playerId now) = ok ->
      forall c,
        creatorId r = Some c -> In c (map_keys (players r)) ->
        exists c',
          creatorId (rm_room (removePlayer r playerId now)) = Some c'
          /\ In c' (map_keys (players (rm_room (removePlayer r playerId now))))
          /\ (c <> playerId -> c' = c)
          /\ (c = playerId ->
              Some c' = hd_error (map_keys (map_delete playerId (players r))))).
Proof.
  intros Hnd Hid Hin. unfold removePlayer.
  destruct (map_get playerId (players r)) as [player|] eqn:Hg.
  2:{ exfalso. apply (map_get_None_notin playerId (players r) Hg Hin). }
  assert (Hpid : Player.id player = playerId).
  { apply map_get_In in Hg. rewrite Forall_forall in Hid.
    exact (Hid _ Hg). }
  cbv zeta. rewrite Hpid.
  set (r1 := set_engine (set_players r (map_delete playerId (players r)))
                        (option_map (fun e => removeSnake e playerId)
                                    (engine r))).
  destruct (transferCreator_spec r1 (is_creator r playerId))
    as (Hk2 & He2 & Hs2 & Hc2f & Hc2t).
  destruct (transferCreator r1 (is_creator r playerId)) as [r2 out1].
  cbn [fst] in Hk2, He2, Hs2, Hc2f, Hc2t.
  assert (H3 : exists r3 effects,
             (if RoomState_eqb (Room.state r2) PLAYING
              then _checkGameEnd r2 now else (r2, [])) = (r3, effects)
             /\ engine r3 = engine r2 /\ creatorId r3 = creatorId r2
             /\ map_keys (players r3) = map_keys (players r2)).
  { destruct (RoomState_eqb (Room.state r2) PLAYING).
    - pose proof (checkGameEnd_fields r2 now) as (Ha & _ & Hb & Hc & _).
      destruct (_checkGameEnd r2 now) as [r3 effects]. cbn [fst] in *.
      eauto 6.
    - eauto 6. }
  destruct H3 as (r3 & effects & -> & He3 & Hc3 & Hk3).
  assert (Hkeys : map_keys (players r3)
                  = map_keys (map_delete playerId (players r))).
  { rewrite Hk3, Hk2. reflexivity. }
  assert (Hsize : map_size (players r3) = 0
                  <-> map_keys (players r) = [playerId]).
  { rewrite <- (filter_others_nil playerId _ Hnd Hin), <- map_keys_delete,
      <- Hkeys.
    unfold map_size, map_keys.
    destruct (players r3); cbn [List.length map]; split;
      (reflexivity || discriminate || lia). }
  assert (Hroom :
            forall P : Room.t -> Prop,
              P r3 -> P (destroy r3) ->
              P (rm_room
                   (if map_size (players r3) =? 0
                    then {| rm_room := destroy r3; rm_result := empty;
                            rm_player := Some (leave player);
                            rm_out := out1
                                      ++ announce (players r2)
                                           (player_left playerId
                                              (map_size (players r2)))
                                      ++ map Did effects |}
                    else {| rm_room := r3; rm_result := ok;
                            rm_player := Some (leave player);
                            rm_out := out1
                                      ++ announce (players r2)
                                           (player_left playerId
                                              (map_size (players r2)))
                                      ++ map Did effects |}))).
  { intros P H1 H2. destruct (map_size (players r3) =? 0); assumption. }
  assert (Hgone : map_get playerId (players r3) = None).
  { destruct (map_get playerId (players r3)) as [q|] eqn:Hq; [|reflexivity].
    exfalso. apply map_get_In in Hq.
    apply (in_map fst) in Hq. fold (map_keys (players r3)) in Hq.
    rewrite Hkeys, map_keys_delete in Hq.
    apply filter_In in Hq as [_ Hq]. cbn [fst] in Hq.
    now rewrite String.eqb_refl in Hq. }
  split; [apply Hroom; [exact Hkeys|exact Hkeys]|].
  split; [apply Hroom; [exact Hgone|exact Hgone]|].
  split.
  { apply Hroom.
    - intros e He. rewrite He3, He2 in He. unfold r1 in He.
      cbn [engine set_engine] in He.
      destruct (engine r) as [e0|]; [|discriminate].
      cbn [option_map] in He. injection He as <-.
      unfold removeSnake. cbn [snakes set_snakes].
      apply map_get_delete_same.
    - cbn [destroy engine]. discriminate. }
  split.
  { destruct (Z.eqb_spec (map_size (players r3)) 0) as [Hz|Hnz];
      cbn [rm_result]; split.
    - intros _. apply Hsize, Hz.
    - reflexivity.
    - discriminate.
    - intros H. exfalso. apply Hnz, Hsize, H. }
  split.
  { destruct (Z.eqb_spec (map_size (players r3)) 0) as [Hz|Hnz];
      cbn [rm_result]; split.
    - discriminate.
    - intros H. exfalso. apply H, Hsize, Hz.
    - intros _ H. apply Hnz, Hsize, H.
    - reflexivity. }
  destruct (Z.eqb_spec (map_size (players r3)) 0) as [|Hne];
    cbn [rm_result rm_room]; [discriminate|].
  intros _ c Hc Hcin. rewrite Hc3.
  unfold is_creator in Hc2f, Hc2t. rewrite Hc in Hc2f, Hc2t.
  destruct (String.eqb_spec playerId c) as [Heq|Hneq].
  - specialize (Hc2t eq_refl). subst c.
    destruct (players r1) as [|[k next] rest] eqn:Hp1.
    { exfalso. apply Hne. unfold map_size, map_keys in *.
      rewrite <- (length_map fst), Hk3, Hk2. reflexivity. }
    rewrite (Hc2t k next rest eq_refl).
    assert (Hnext : Player.id next = k).
    { rewrite Forall_forall in Hid. apply (Hid (k, next)).
      assert (Hin1 : In (k, next) (players r1)) by (rewrite Hp1; now left).
      unfold r1 in Hin1. cbn [players set_engine set_players] in Hin1.
      unfold map_delete in Hin1. now apply filter_In in Hin1 as [Hin1 _]. }
    exists (Player.id next). split; [reflexivity|].
    assert (Hk1 : map_keys (map_delete playerId (players r))
                  = k :: map_keys rest).
    { change (map_delete playerId (players r)) with (players r1).
      now rewrite Hp1. }
    rewrite Hkeys, Hk1, Hnext. split; [now left|].
    split; [congruence|reflexivity].
  - exists c. split; [rewrite (Hc2f eq_refl); exact Hc|].
    split; [|split; [reflexivity|congruence]].
    rewrite Hkeys, map_keys_delete. apply filter_In. split; [exact Hcin|].
    apply negb_true_iff. now apply String.eqb_neq.
Qed.

Lemma removePlayer_keeps_a_creator_witness :
  creatorId (rm_room (removePlayer lobby "ann" 5000)) = Some "bob".
Proof.
  destruct (removePlayer_keeps_a_creator lobby "ann" 5000)
    as (_ & _ & _ & _ & _ & H).
  - repeat constructor; cbn; intuition discriminate.
  - repeat constructor.
  - cbn. auto.
  - destruct (H eq_refl "ann" eq_refl) as (c' & Hc & _ & _ & Hhd).
    + cbn. auto.
    + rewrite Hc. exact (Hhd eq_refl).
Defined.


(* ================================================================== *)
(** ** One step of a snake *)

Lemma growTrim_len s h segs length1 grow1 :
  growTrim s h = (segs, length1, grow1) ->
  0 <= Snake.growPending s ->
  Snake.length s + Snake.growPending s <= MAX_SNAKE_SEGMENTS ->
  length1 + grow1 = Snake.length s + Snake.growPending s
  /\ Snake.length s <= length1
  /\ (0 < Snake.length s + Snake.growPending s -> segs <> []).
Proof.
  unfold growTrim. cbv zeta. intros H Hg Hmax.
  set (segs1 := h :: Snake.segments s) in *.
  set (targetLen := Snake.length s + Snake.growPending s) in *.
  assert (Hlen2 :
            forall segs2,
              segs2 = (if len segs1 >? targetLen
                       then truncate segs1 targetLen else segs1) ->
              len segs2 <= Z.max targetLen 0
              /\ (0 < targetLen -> segs2 <> [])).
  { intros segs2 ->. destruct (Z.gtb_spec (len segs1) targetLen).
    - split.
      + unfold truncate, len. rewrite length_firstn. lia.
      + intros Hpos. unfold truncate, segs1.
        destruct (Z.to_nat targetLen) eqn:En; [lia|]. discriminate.
    - split; [lia|]. intros _. discriminate. }
  destruct (Hlen2 _ eq_refl) as [Hle Hne].
  remember (if len segs1 >? targetLen then truncate segs1 targetLen
            else segs1) as segs2 eqn:E2.
  unfold MAX_SNAKE_SEGMENTS in *.
  destruct (Z.gtb_spec (len segs2) 200); [lia|].
  destruct ((Snake.growPending s >? 0) && (len segs2 >=? targetLen)) eqn:Es;
    injection H as <- <- <-.
  - apply andb_true_iff in Es as [Hp _]. apply Z.gtb_lt in Hp.
    split; [lia|]. split; [lia|exact Hne].
  - split; [reflexivity|]. split; [lia|exact Hne].
Qed.

(** X27.  Moving conserves a snake's length budget: for a snake whose
    target length plus pending growth is within [MAX_SNAKE_SEGMENTS],
    [length + growPending] is unchanged by the move, except that a boost
    whose cost falls due takes exactly one unit and drops exactly one
    normal food item worth [FOOD_SCORE]; nothing is dropped otherwise. *)
Theorem moveSnake_length_budget
        (M : MathLib) (fuel : nat) (e : GameEngine.t)
        (s s' : Snake.t) (dropped : list Food) :
  moveSnake M fuel e s = Some (s', dropped) ->
  0 <= Snake.growPending s ->
  Snake.length s + Snake.growPending s <= MAX_SNAKE_SEGMENTS ->
  Snake.length s' + Snake.growPending s'
  = Snake.length s + Snake.growPending s - (if boostDue e s then 1 else 0)
  /\ len dropped = (if boostDue e s then 1 else 0)
  /\ Forall (fun f => food_type f = normal /\ food_value f = FOOD_SCORE)
            dropped.
Proof.
  unfold moveSnake. intros H Hg Hmax.
  destruct (normalizeDiff fuel _) as [angleDiff|]; [|discriminate].
  cbv zeta in H.
  destruct (growTrim s _) as [[segs length1] grow1] eqn:Egt.
  destruct (growTrim_len _ _ _ _ _ Egt Hg Hmax) as (Hsum & Hl1 & Hne).
  unfold boostDue. unfold boostCost in H.
  destruct (canBoost s && (Z.rem (tick e) BOOST_COST_INTERVAL =? 0)) eqn:Ed.
  - assert (Hlong : INITIAL_SNAKE_LENGTH + 3 < Snake.length s).
    { apply andb_true_iff in Ed as [Hc _]. unfold canBoost in Hc.
      apply andb_true_iff in Hc as [_ Hc]. now apply Z.ltb_lt in Hc. }
    destruct (Z.gtb_spec length1 (INITIAL_SNAKE_LENGTH + 3)); [|lia].
    assert (Hsegs : segs <> []).
    { apply Hne. unfold INITIAL_SNAKE_LENGTH in *. lia. }
    assert (Hlast : exists tail, last (map Some segs) None = Some tail).
    { destruct segs as [|p segs]; [congruence|].
      clear - p. revert p. induction segs as [|q segs IH]; intros p.
      - exists p. reflexivity.
      - destruct (IH q) as [tail Ht]. exists tail.
        cbn [map] in *. cbn [last]. exact Ht. }
    destruct Hlast as [tail Htail]. rewrite Htail in H.
    injection H as <- <-.
    cbn [Snake.length Snake.growPending Snake.set_segments
         Snake.set_growPending Snake.set_length].
    split; [lia|]. split; [reflexivity|].
    constructor; [split; reflexivity|constructor].
  - injection H as <- <-.
    cbn [Snake.length Snake.growPending Snake.set_segments
         Snake.set_growPending Snake.set_length].
    split; [lia|]. split; [reflexivity|constructor].
Qed.

Lemma moveSnake_length_budget_witness :
  exists s' dropped,
    moveSnake RefMath.lib 1 boostWorld booster = Some (s', dropped)
    /\ Snake.length s' + Snake.growPending s' = 20.
Proof.
  destruct (moveSnake RefMath.lib 1 boostWorld booster)
    as [[s' dropped]|] eqn:Hm.
  - exists s', dropped. split; [reflexivity|].
    destruct (moveSnake_length_budget RefMath.lib 1 boostWorld booster
                s' dropped Hm) as (H & _).
    + vm_compute. discriminate.
    + vm_compute. discriminate.
    + exact H.
  - vm_compute in Hm. discriminate.
Defined.

Lemma firstn_cons_firstn {A : Type} (h : A) l n k :
  (0 < n)%nat ->
  firstn n (h :: firstn k l) = h :: firstn (Nat.min (n - 1) k) l.
Proof.
  intros Hn. destruct n as [|n]; [lia|]. cbn [firstn].
  rewrite firstn_firstn. f_equal. f_equal. lia.
Qed.

Lemma firstn_own_length {A : Type} (l : list A) k :
  firstn k l = firstn (List.length (firstn k l)) l.
Proof.
  rewrite length_firstn.
  destruct (Nat.le_ge_cases k (List.length l)).
  - now rewrite Nat.min_l.
  - rewrite Nat.min_r by assumption.
    now rewrite firstn_all, firstn_all2.
Qed.

Lemma growTrim_segs s h segs length1 grow1 :
  growTrim s h = (segs, length1, grow1) ->
  0 < Snake.length s + Snake.growPending s ->
  exists k, segs = h :: firstn k (Snake.segments s).
Proof.
  unfold growTrim. cbv zeta. intros H Hpos.
  assert (H2 : exists k,
             (if len (h :: Snake.segments s)
                 >? Snake.length s + Snake.growPending s
              then truncate (h :: Snake.segments s)
                            (Snake.length s + Snake.growPending s)
              else h :: Snake.segments s)
             = h :: firstn k (Snake.segments s)).
  { destruct (len (h :: Snake.segments s)
              >? Snake.length s + Snake.growPending s).
    - unfold truncate.
      destruct (Z.to_nat (Snake.length s + Snake.growPending s))
        as [|n] eqn:En; [lia|].
      exists n. reflexivity.
    - exists (List.length (Snake.segments s)). now rewrite firstn_all. }
  destruct H2 as [k Hk]. rewrite Hk in H. clear Hk.
  destruct (len (h :: firstn k (Snake.segments s)) >? MAX_SNAKE_SEGMENTS).
  - destruct (_ && _); injection H as <- _ _;
      unfold truncate; rewrite firstn_cons_firstn
        by (unfold MAX_SNAKE_SEGMENTS; lia); eexists; reflexivity.
  - destruct (_ && _); injection H as <- _ _; eexists; reflexivity.
Qed.

(** X28.  The body follows the head: after a move, a snake with a
    positive length budget has a head followed by its previous segments,
    each one place further back, as many as fit.  Without a ghost effect
    the head is the old head advanced by the snake's step along its new
    heading. *)
Theorem moveSnake_body_follows
        (M : MathLib) (fuel : nat) (e : GameEngine.t)
        (s s' : Snake.t) (dropped : list Food) :
  moveSnake M fuel e s = Some (s', dropped) ->
  0 < Snake.length s + Snake.growPending s ->
  exists newHead,
    Snake.segments s'
    = newHead :: firstn (List.length (Snake.segments s') - 1)
                        (Snake.segments s)
    /\ (Snake.has s ghost = false ->
        newHead
        = {| pt_x := (pt_x (Snake.head s)
                      + Math_cos M (Snake.angle s') * stepOf s)%float;
             pt_y := (pt_y (Snake.head s)
                      + Math_sin M (Snake.angle s') * stepOf s)%float |}).
Proof.
  unfold moveSnake. intros H Hpos.
  destruct (normalizeDiff fuel _) as [angleDiff|]; [|discriminate].
  cbv zeta in H.
  destruct (growTrim s _) as [[segs length1] grow1] eqn:Egt.
  destruct (growTrim_segs _ _ _ _ _ Egt Hpos) as [k ->].
  destruct (boostCost _ _ _ _) as [length2 dropped1].
  injection H as <- _.
  cbn [Snake.segments Snake.angle Snake.set_segments Snake.set_growPending
       Snake.set_length Snake.set_angle].
  unfold ghostWrap.
  destruct (Snake.has s ghost) eqn:Egh.
  - match goal with
    | |- context [if JS.gt ?a ?b then _ else _] => destruct (JS.gt a b)
    end.
    + eexists. split; [|discriminate].
      cbn [List.length Nat.sub]. rewrite Nat.sub_0_r. f_equal.
      apply firstn_own_length.
    + eexists. split; [|discriminate].
      cbn [List.length Nat.sub]. rewrite Nat.sub_0_r. f_equal.
      apply firstn_own_length.
  - eexists. split.
    + cbn [List.length Nat.sub]. rewrite Nat.sub_0_r. f_equal.
      apply firstn_own_length.
    + intros _. reflexivity.
Qed.

Lemma moveSnake_body_follows_witness :
  exists s' dropped newHead,
    moveSnake RefMath.lib 1 boostWorld booster = Some (s', dropped)
    /\ Snake.segments s'
       = newHead :: firstn (List.length (Snake.segments s') - 1)
                           (Snake.segments booster).
Proof.
  destruct (moveSnake RefMath.lib 1 boostWorld booster)
    as [[s' dropped]|] eqn:Hm.
  - destruct (moveSnake_body_follows RefMath.lib 1 boostWorld booster
                s' dropped Hm) as (newHead & H & _).
    + vm_compute. reflexivity.
    + exists s', dropped, newHead. split; [reflexivity|exact H].
  - vm_compute in Hm. discriminate.
Defined.
